(** * BearVault: dashboard tabs, tab groups and per-tab inputs

  A shallow embedding of the client-side state logic of the hooks
  [useDashboardTabs] and [useTabInputs] and of the route handlers of
  [/api/user-configs/tab-inputs], with the properties of the
  specification stated over it.

  Conventions of the embedding.
  - A JavaScript string is a [string]; its code units are the 8-bit
    characters of [ascii] (code units 0..255).
  - An optional field ([parentId?: string]) and a nullable argument
    ([string | null]) are an [option]; [undefined] and [null] are [None].
  - A [number] used as an order is a [Z]: the orders of the embedding
    are the integers a double holds.  [Math.max] and comparisons are
    exact on them; [x + 1] is [plusOne], the IEEE 754 sum.  An array
    index is a [nat].
  - [useState] is explicit state passing: an operation maps the current
    state to the state that [save] installs.  An operation that returns
    before calling [save] gives the state back as it was.
  - The clock ([new Date().toISOString()]) and the generated identifiers
    are arguments of the operations that read them. *)

From Stdlib Require Import List String Ascii ZArith Lia Bool Arith Permutation.
From Stdlib Require Import DecimalString DecimalNat Sorted.
Import ListNotations.
Open Scope string_scope.
Open Scope list_scope.

(** ** JavaScript helpers *)

(** Truthiness of an optional string: [undefined], [null] and the empty
  string are falsy. *)
Definition truthy (o : option string) : bool :=
match o with
| Some s => negb (s =? "")
| None => false
end.

(** [x || undefined] on an optional string. *)
Definition orUndefined (o : option string) : option string :=
if truthy o then o else None.

(** [a === b] on optional strings. *)
Definition opt_eqb (a b : option string) : bool :=
match a, b with
| Some x, Some y => x =? y
| None, None => true
| _, _ => false
end.

(** [Array.prototype.map] with the index as second argument. *)
Fixpoint mapi_from {A B : Type} (f : A -> nat -> B) (i : nat) (l : list A) : list B :=
match l with
| [] => []
| x :: r => f x i :: mapi_from f (S i) r
end.

Definition mapi {A B : Type} (f : A -> nat -> B) (l : list A) : list B :=
mapi_from f 0 l.

(** [a.splice(i, 1)] for a natural number [i]: the array without its
    element at [i] (unchanged when [i] is past the end). *)
Definition removeAt {A : Type} (i : nat) (l : list A) : list A :=
  firstn i l ++ skipn (S i) l.

(** [a.splice(i, 0, x)]: [x] inserted before position [i], at the end
    when [i] is past it. *)
Definition insertAt {A : Type} (i : nat) (x : A) (l : list A) : list A :=
  firstn i l ++ x :: skipn i l.

(** [const [moved] = a.splice(fromIndex, 1); a.splice(toIndex, 0, moved)]
    for indices that are natural numbers.  When [fromIndex] is past the
    end nothing is removed and [moved] is [undefined]: the result is
    [None], since a list of records cannot hold it. *)
Definition spliceMove {A : Type} (l : list A) (fromIndex toIndex : nat) : option (list A) :=
  match nth_error l fromIndex with
  | None => None
  | Some moved => Some (insertAt toIndex moved (removeAt fromIndex l))
  end.

(** [Math.max(...xs)] on a non-empty list, given as head and tail. *)
Definition Math_max (x : Z) (xs : list Z) : Z := fold_left Z.max xs x.

(** ** Data model (types/dashboard.ts, types/tab-input.ts) *)

Module TabGroup.
Record t : Type := mk {
  id : string;
  name : string;
  order : Z;
  parentId : option string
}.
End TabGroup.

Module DashboardTab.
Record t : Type := mk {
  id : string;
  name : string;
  createdAt : string;
  isPublic : option bool;
  groupId : option string;
  link : option string;
  icon : option string
}.
End DashboardTab.

Inductive TabInputType : Type := text | number | date.

Record TabInputOption : Type := mkOption {
opt_label : string;
opt_value : string
}.

Module TabInput.
Record t : Type := mk {
  id : string;
  tabId : string;
  key : string;
  label : string;
  type : TabInputType;
  value : option string;
  defaultValue : option string;
  placeholder : option string;
  description : option string;
  options : option (list TabInputOption);
  order : option Z;
  createdAt : option string;
  updatedAt : option string
}.
End TabInput.

(** ** useDashboardTabs *)

Module DashboardTabs.

(** The two [useState] cells of the hook. *)
Record State : Type := mkState {
  tabs : list DashboardTab.t;
  groups : list TabGroup.t
}.

(** [save(nextTabs, nextGroups)]: an array is always truthy, so both
    cells are replaced. *)
Definition save (nextTabs : list DashboardTab.t) (nextGroups : list TabGroup.t) : State :=
  mkState nextTabs nextGroups.

Definition withGroupId (t : DashboardTab.t) (g : option string) : DashboardTab.t :=
  DashboardTab.mk (DashboardTab.id t) (DashboardTab.name t) (DashboardTab.createdAt t)
    (DashboardTab.isPublic t) g (DashboardTab.link t) (DashboardTab.icon t).

Definition withParentId (g : TabGroup.t) (p : option string) : TabGroup.t :=
  TabGroup.mk (TabGroup.id g) (TabGroup.name g) (TabGroup.order g) p.

Definition withOrder (g : TabGroup.t) (o : Z) : TabGroup.t :=
  TabGroup.mk (TabGroup.id g) (TabGroup.name g) o (TabGroup.parentId g).

(** [groups.find(g => g.id === i)] *)
Definition findGroup (gs : list TabGroup.t) (i : string) : option TabGroup.t :=
  find (fun g => TabGroup.id g =? i) gs.

(** [(g.parentId || undefined) === (parentId || undefined)] *)
Definition sameLevel (parentId : option string) (g : TabGroup.t) : bool :=
  opt_eqb (orUndefined (TabGroup.parentId g)) (orUndefined parentId).

(** [reorderTabs(fromIndex, toIndex, groupId)] *)
Definition inGroup (groupId : option string) (t : DashboardTab.t) : bool :=
  if truthy groupId
  then opt_eqb (DashboardTab.groupId t) groupId
  else negb (truthy (DashboardTab.groupId t)).

Definition notInGroup (groupId : option string) (t : DashboardTab.t) : bool :=
if truthy groupId
then negb (opt_eqb (DashboardTab.groupId t) groupId)
else truthy (DashboardTab.groupId t).

Definition reorderTabs (st : State) (fromIndex toIndex : nat) (groupId : option string)
  : option State :=
  let groupTabs := filter (inGroup groupId) (tabs st) in
  let otherTabs := filter (notInGroup groupId) (tabs st) in
  match spliceMove groupTabs fromIndex toIndex with
  | None => None
  | Some reorderedGroupTabs => Some (save (otherTabs ++ reorderedGroupTabs) (groups st))
  end.

(** [removeGroup(groupId)] *)
Definition removeGroup (st : State) (groupId : string) : State :=
  let newTabs :=
    map (fun t => if opt_eqb (DashboardTab.groupId t) (Some groupId)
                  then withGroupId t None else t) (tabs st) in
  let groupToRemove := findGroup (groups st) groupId in
  let parentId :=
    match groupToRemove with
    | Some g => TabGroup.parentId g
    | None => None
    end in
  let newGroups :=
    map (fun g => if opt_eqb (TabGroup.parentId g) (Some groupId)
                  then withParentId g (orUndefined parentId) else g)
        (filter (fun g => negb (TabGroup.id g =? groupId)) (groups st)) in
  save newTabs newGroups.

(** [reorderGroups(fromIndex, toIndex, parentId)] *)
Definition reorderGroups (st : State) (fromIndex toIndex : nat) (parentId : option string)
  : option State :=
  let sameLevelGroups := filter (sameLevel parentId) (groups st) in
  let otherGroups := filter (fun g => negb (sameLevel parentId g)) (groups st) in
  match spliceMove sameLevelGroups fromIndex toIndex with
  | None => None
  | Some reorderedSameLevel =>
      let reorderedWithOrder :=
        mapi (fun g idx => withOrder g (Z.of_nat idx)) reorderedSameLevel in
      Some (save (tabs st) (otherGroups ++ reorderedWithOrder))
  end.

(** The local recursive function [isDescendant(checkId, ancestorId)] of
    [moveGroupToParent].  The recursion follows [parentId] links and is
    not structural: [fuel] bounds the number of calls, and [None] means
    the bound was reached before an answer. *)
Fixpoint isDescendant (fuel : nat) (gs : list TabGroup.t) (checkId ancestorId : string)
  : option bool :=
  match fuel with
  | O => None
  | S fuel' =>
      match findGroup gs checkId with
      | None => Some false
      | Some checkGroup =>
          if negb (truthy (TabGroup.parentId checkGroup)) then Some false
          else
            match TabGroup.parentId checkGroup with
            | None => Some false
            | Some p =>
                if p =? ancestorId then Some true
                else isDescendant fuel' gs p ancestorId
            end
      end
  end.

(** [x + 1] on a number that holds an integer.  A JavaScript number is
    an IEEE 754 double: the sum is exact from -2^53 up to 2^53 - 1; past
    that range the doubles are 2 apart below 2^54 in magnitude, where
    the sum lies half way between two of them and goes to the one with
    the even significand, and at least 4 apart from there on, where the
    sum goes back to [x]. *)
Definition plusOne (x : Z) : Z :=
  if ((- 2 ^ 53 <=? x) && (x <? 2 ^ 53))%Z then (x + 1)%Z
  else if (Z.abs x <? 2 ^ 54)%Z then (if Z.even (x / 2) then x else (x + 2)%Z)
  else x.

(** [maxOrder] of [addGroup] and [moveGroupToParent]:
    [l.length > 0 ? Math.max(...l.map(g => g.order)) : -1]. *)
Definition maxOrder (l : list TabGroup.t) : Z :=
  match map TabGroup.order l with
  | [] => (-1)%Z
  | x :: xs => Math_max x xs
  end.

(** [moveGroupToParent(groupId, targetParentId)].  [None] only when
    [isDescendant] ran out of fuel. *)
Definition moveGroupToParent (fuel : nat) (st : State) (groupId : string)
    (targetParentId : option string) : option State :=
  match findGroup (groups st) groupId with
  | None => Some st
  | Some _ =>
      if opt_eqb targetParentId (Some groupId) then Some st
      else
        let check :=
          match targetParentId with
          | Some t => if truthy targetParentId
                      then isDescendant fuel (groups st) t groupId
                      else Some false
          | None => Some false
          end in
        match check with
        | None => None
        | Some true => Some st
        | Some false =>
            let newGroups :=
              map (fun g => if TabGroup.id g =? groupId
                            then withParentId g (orUndefined targetParentId) else g)
                  (groups st) in
            let sameLevelGroups :=
              filter (fun g => sameLevel targetParentId g
                               && negb (TabGroup.id g =? groupId)) newGroups in
            let maxO := maxOrder sameLevelGroups in
            let updatedGroups :=
              map (fun g => if TabGroup.id g =? groupId
                            then withOrder g (plusOne maxO) else g) newGroups in
            Some (save (tabs st) updatedGroups)
        end
  end.

(** The walk along [parentId] links from the identifier [c] stops
    within [fuel] steps: at a falsy [parentId] (a root) or at an
    identifier no group carries. *)
Fixpoint reachesRoot (fuel : nat) (gs : list TabGroup.t) (c : option string) : bool :=
  match fuel with
  | O => false
  | S fuel' =>
      match c with
      | None => true
      | Some i =>
          if negb (truthy c) then true
          else
            match findGroup gs i with
            | None => true
            | Some g => reachesRoot fuel' gs (TabGroup.parentId g)
            end
      end
  end.

(** The walk of the code stops from every group: the walk follows the
    [parentId] links as [isDescendant] does, each id resolved to the
    first group that carries it.  With pairwise-distinct, non-empty ids
    this is [acyclicLinks], the acyclicity of the [parentId] relation. *)
Definition acyclic (gs : list TabGroup.t) : Prop :=
  forall g, In g gs -> exists n, reachesRoot n gs (TabGroup.parentId g) = true.

(** A decision procedure with the length of the list as bound. *)
Definition acyclicb (gs : list TabGroup.t) : bool :=
  forallb (fun g => reachesRoot (S (List.length gs)) gs (TabGroup.parentId g)) gs.

(** *** Vocabulary of the properties and sample data *)

(** The groups list [moveGroupToParent] saves when it performs the move. *)
Definition movedGroups (gs : list TabGroup.t) (groupId : string)
    (targetParentId : option string) : list TabGroup.t :=
  let newGroups :=
    map (fun g => if TabGroup.id g =? groupId
                  then withParentId g (orUndefined targetParentId) else g) gs in
  let sameLevelGroups :=
    filter (fun g => sameLevel targetParentId g && negb (TabGroup.id g =? groupId))
           newGroups in
  map (fun g => if TabGroup.id g =? groupId
                then withOrder g (plusOne (maxOrder sameLevelGroups)) else g) newGroups.

(** The guard of [moveGroupToParent] let the move through. *)
Definition movePerformed (fuel : nat) (gs : list TabGroup.t) (groupId : string)
    (targetParentId : option string) : Prop :=
  findGroup gs groupId <> None /\
  targetParentId <> Some groupId /\
  (truthy targetParentId = false \/
   exists t, targetParentId = Some t /\ isDescendant fuel gs t groupId = Some false).

(** What the move does to one group. *)
Definition moveOne (gs : list TabGroup.t) (groupId : string)
    (targetParentId : option string) (g : TabGroup.t) : TabGroup.t :=
  if TabGroup.id g =? groupId
  then TabGroup.mk (TabGroup.id g) (TabGroup.name g)
         (plusOne (maxOrder (filter (fun g => sameLevel targetParentId g
                                              && negb (TabGroup.id g =? groupId)) gs)))
         (orUndefined targetParentId)
  else g.

Definition groupA : TabGroup.t := TabGroup.mk "a" "A" 5 None.

Definition groupB : TabGroup.t := TabGroup.mk "b" "B" 1 (Some "a").
Definition groupC : TabGroup.t := TabGroup.mk "c" "C" 2 (Some "b").
Definition stateABC : State := mkState [] [groupA; groupB; groupC].

Definition groupG1 : TabGroup.t := TabGroup.mk "g" "G1" 0 None.
Definition groupG2 : TabGroup.t := TabGroup.mk "g" "G2" 1 None.
Definition stateTwins : State := mkState [] [groupG1; groupG2].

Definition tabInB : DashboardTab.t :=
  DashboardTab.mk "t1" "T1" "2024-01-01" None (Some "b") None None.
Definition stateABCt : State := mkState [tabInB] [groupA; groupB; groupC].

(** [m] is the [maxOrder] of [l]: -1 on the empty list, otherwise the
    greatest order in [l]. *)
Definition isMaxOrder (l : list TabGroup.t) (m : Z) : Prop :=
  (l = [] -> m = (-1)%Z) /\
  (forall h, In h l -> (TabGroup.order h <= m)%Z) /\
  (l <> [] -> exists h, In h l /\ TabGroup.order h = m).

Definition stateAB : State := mkState [] [groupA; groupB].

(** Following [parentId] links from the id [c] stops: it stops at no
    parent and at an id that no group carries, and it stops from an id
    when it stops from the parent of every group with that id. *)
Inductive linksStop (gs : list TabGroup.t) : option string -> Prop :=
| stop_root : linksStop gs None
| stop_step (i : string) :
    (forall h, In h gs -> TabGroup.id h = i -> linksStop gs (TabGroup.parentId h)) ->
    linksStop gs (Some i).

(** The [parentId] relation of a groups list is acyclic: following the
    links from any group stops. *)
Definition acyclicLinks (gs : list TabGroup.t) : Prop :=
  forall g, In g gs -> linksStop gs (TabGroup.parentId g).

(** Following [parentId] links from the id [c] reaches a root, a group
    without [parentId]: as [linksStop], but an id that no group carries
    does not count. *)
Inductive linksReachRoot (gs : list TabGroup.t) : option string -> Prop :=
| reach_root : linksReachRoot gs None
| reach_step (i : string) :
    (exists h, In h gs /\ TabGroup.id h = i) ->
    (forall h, In h gs -> TabGroup.id h = i -> linksReachRoot gs (TabGroup.parentId h)) ->
    linksReachRoot gs (Some i).

Definition allReachRoot (gs : list TabGroup.t) : Prop :=
  forall g, In g gs -> linksReachRoot gs (TabGroup.parentId g).

(** The group id [t] is a descendant of the id [a]: a group with id [t]
    has [a] as parent, or has a parent that is a descendant of [a]. *)
Inductive descendantOf (gs : list TabGroup.t) (a : string) : string -> Prop :=
| desc_child (h : TabGroup.t) :
    In h gs -> TabGroup.parentId h = Some a -> descendantOf gs a (TabGroup.id h)
| desc_step (h : TabGroup.t) (p : string) :
    In h gs -> TabGroup.parentId h = Some p -> descendantOf gs a p ->
    descendantOf gs a (TabGroup.id h).

Definition groupA1 : TabGroup.t := TabGroup.mk "a" "A1" 0 None.
Definition groupA2 : TabGroup.t := TabGroup.mk "a" "A2" 0 (Some "b").
Definition groupRootB : TabGroup.t := TabGroup.mk "b" "B" 0 None.
Definition stateTwinA : State := mkState [] [groupA1; groupA2; groupRootB].

Definition groupUnderEmpty : TabGroup.t := TabGroup.mk "x" "X" 0 (Some "").
Definition groupEmptyRoot : TabGroup.t := TabGroup.mk "" "E" 0 None.
Definition stateEmptyRoot : State := mkState [] [groupUnderEmpty; groupEmptyRoot].

Definition stateSingle : State := mkState [] [groupA].

Definition groupSmall : TabGroup.t := TabGroup.mk "g" "G" 0 None.
Definition groupBig : TabGroup.t := TabGroup.mk "h" "H" (2 ^ 53) None.
Definition stateBig : State := mkState [] [groupSmall; groupBig].

Definition tabG1 : DashboardTab.t :=
  DashboardTab.mk "g1" "G1" "2024-01-01" None (Some "g") None None.
Definition tabU : DashboardTab.t :=
  DashboardTab.mk "u" "U" "2024-01-02" None None None None.
Definition tabG2 : DashboardTab.t :=
  DashboardTab.mk "g2" "G2" "2024-01-03" None (Some "g") None None.
Definition stateTabs : State := mkState [tabG1; tabU; tabG2] [groupG1].

End DashboardTabs.

(** ** useTabInputs *)

Module TabInputs.

Definition code (c : ascii) : nat := nat_of_ascii c.

(** [String.prototype.toLowerCase] on one code unit below 256: the
    letters A-Z and the Latin-1 capitals U+00C0..U+00DE (without the
    multiplication sign U+00D7) move up by 32. *)
Definition lowerChar (c : ascii) : ascii :=
  let n := code c in
  if (((65 <=? n) && (n <=? 90)) || ((192 <=? n) && (n <=? 222) && negb (n =? 215)))%nat
  then ascii_of_nat (n + 32)
  else c.

Fixpoint toLowerCase (s : string) : string :=
  match s with
  | EmptyString => EmptyString
  | String c r => String (lowerChar c) (toLowerCase r)
  end.

(** The class [\s] on code units below 256: tab, line feed, vertical
    tab, form feed, carriage return, space and no-break space. *)
Definition isWhitespace (c : ascii) : bool :=
  let n := code c in
  (((9 <=? n) && (n <=? 13)) || (n =? 32) || (n =? 160))%nat.

(** [.replace(/\s+/g, "_")]: every maximal run of whitespace becomes one
    underscore, written when the last character of the run is read. *)
Fixpoint replaceWhitespaceRuns (s : string) : string :=
  match s with
  | EmptyString => EmptyString
  | String c r =>
      if isWhitespace c then
        match r with
        | EmptyString => "_"
        | String c' _ =>
            if isWhitespace c' then replaceWhitespaceRuns r
            else String "_" (replaceWhitespaceRuns r)
        end
      else String c (replaceWhitespaceRuns r)
  end.

(** The class [[a-z0-9_]]. *)
Definition isKeyChar (c : ascii) : bool :=
  let n := code c in
  (((97 <=? n) && (n <=? 122)) || ((48 <=? n) && (n <=? 57)) || (n =? 95))%nat.

(** [.replace(/[^a-z0-9_]/g, "")] *)
Fixpoint removeNonKeyChars (s : string) : string :=
  match s with
  | EmptyString => EmptyString
  | String c r =>
      if isKeyChar c then String c (removeNonKeyChars r) else removeNonKeyChars r
  end.

(** [.slice(0, n)] *)
Fixpoint slice0 (n : nat) (s : string) : string :=
  match n, s with
  | S n', String c r => String c (slice0 n' r)
  | _, _ => EmptyString
  end.

Definition sanitizeKey (key : string) : string :=
  slice0 50 (removeNonKeyChars (replaceWhitespaceRuns (toLowerCase key))).

(** The decimal numeral of a natural number, as a template literal
    prints it. *)
Definition decimal (n : nat) : string := NilEmpty.string_of_uint (Nat.to_uint n).

(** The loop of [ensureUniqueKey]:
    [while (existingKeys.has(uniqueKey)) uniqueKey = `${candidate}_${suffix++}`].
    [fuel] bounds the number of tests of the condition; [None] means the
    bound was reached with the condition still true. *)
Fixpoint uniqueKeyLoop (fuel : nat) (existingKeys : list string) (candidate : string)
    (suffix : nat) (uniqueKey : string) : option string :=
  match fuel with
  | O => None
  | S fuel' =>
      if existsb (String.eqb uniqueKey) existingKeys
      then uniqueKeyLoop fuel' existingKeys candidate (S suffix)
             (candidate ++ "_" ++ decimal suffix)%string
      else Some uniqueKey
  end.

(** [input.id !== excludeId], where [excludeId] may be [undefined]. *)
Definition notExcluded (excludeId : option string) (input : TabInput.t) : bool :=
  negb (opt_eqb (Some (TabInput.id input)) excludeId).

(** The set [existingKeys], used only through [has]. *)
Definition existingKeys (inputs : list TabInput.t) (excludeId : option string) : list string :=
  map TabInput.key (filter (notExcluded excludeId) inputs).

(** [ensureUniqueKey(desiredKey, excludeId)].  The loop is given one test
    more than there are existing keys. *)
Definition ensureUniqueKey (inputs : list TabInput.t) (desiredKey : string)
    (excludeId : option string) : option string :=
  let candidate := sanitizeKey desiredKey in
  let candidate := if candidate =? "" then "input" else candidate in
  let keys := existingKeys inputs excludeId in
  uniqueKeyLoop (S (List.length keys)) keys candidate 1 candidate.

(** [Partial<Omit<TabInput, "id" | "tabId">>]: a field is absent
    ([None]) or given with a value.  An object in which a member is
    present with the value [undefined] is not represented: [addInput]
    and the key of [updateInput] treat such a member as an absent one,
    while the spread of [updateInput] would clear the field. *)
Record Payload : Type := mkPayload {
  p_key : option string;
  p_label : option string;
  p_type : option TabInputType;
  p_value : option string;
  p_defaultValue : option string;
  p_placeholder : option string;
  p_description : option string;
  p_options : option (list TabInputOption);
  p_order : option Z;
  p_createdAt : option string;
  p_updatedAt : option string
}.

Definition withOrder (i : TabInput.t) (o : option Z) : TabInput.t :=
  TabInput.mk (TabInput.id i) (TabInput.tabId i) (TabInput.key i) (TabInput.label i)
    (TabInput.type i) (TabInput.value i) (TabInput.defaultValue i)
    (TabInput.placeholder i) (TabInput.description i) (TabInput.options i)
    o (TabInput.createdAt i) (TabInput.updatedAt i).

(** [a ?? b] and the override of an object spread, on an optional field. *)
Definition orElse {A : Type} (a b : option A) : option A :=
  match a with
  | Some _ => a
  | None => b
  end.

Section Hook.

(** [options.tabId] of the hook, the constant [DEFAULT_LABEL] (its code
    units lie above 255), the clock and the generated identifier. *)
Variable tabId : option string.
Variable DEFAULT_LABEL : string.
Variable now : string.
Variable newId : string.

(** [addInput(payload)]: the returned identifier ([None] for [null]) and
    the inputs after the call.  The outer [option] is [None] only when
    the loop of [ensureUniqueKey] did not finish. *)
Definition addInput (inputs : list TabInput.t) (payload : option Payload)
    : option (option string * list TabInput.t) :=
  match tabId with
  | None => Some (None, inputs)
  | Some tid =>
      if negb (truthy tabId) then Some (None, inputs)
      else
        let field {A : Type} (f : Payload -> option A) : option A :=
          match payload with
          | Some p => f p
          | None => None
          end in
        let desired :=
          if truthy (field p_key)
          then match field p_key with Some k => k | None => "" end
          else ("input_" ++ decimal (List.length inputs + 1))%string in
        match ensureUniqueKey inputs desired None with
        | None => None
        | Some nextKey =>
            let newInput :=
              TabInput.mk newId tid nextKey
                (if truthy (field p_label)
                 then match field p_label with Some l => l | None => "" end
                 else DEFAULT_LABEL)
                (match field p_type with Some t => t | None => text end)
                (orElse (orElse (field p_value) (field p_defaultValue)) (Some ""))
                (orElse (field p_defaultValue) (Some ""))
                (field p_placeholder)
                (field p_description)
                (field p_options)
                (Some (Z.of_nat (List.length inputs)))
                (Some now)
                (Some now) in
            Some (Some newId, inputs ++ [newInput])
        end
  end.

(** One step of the [map] of [updateInput]. *)
Definition updateOne (inputs : list TabInput.t) (id : string) (updates : Payload)
    (input : TabInput.t) : option TabInput.t :=
  if negb (TabInput.id input =? id) then Some input
  else
    let nextKey :=
      match p_key updates with
      | Some k =>
          if truthy (Some k) && negb (k =? TabInput.key input)
          then ensureUniqueKey inputs k (Some id)
          else Some (TabInput.key input)
      | None => Some (TabInput.key input)
      end in
    match nextKey with
    | None => None
    | Some nextKey =>
        Some (TabInput.mk (TabInput.id input) (TabInput.tabId input) nextKey
                (match p_label updates with Some l => l | None => TabInput.label input end)
                (match p_type updates with Some t => t | None => TabInput.type input end)
                (orElse (p_value updates) (TabInput.value input))
                (orElse (p_defaultValue updates) (TabInput.defaultValue input))
                (orElse (p_placeholder updates) (TabInput.placeholder input))
                (orElse (p_description updates) (TabInput.description input))
                (orElse (p_options updates) (TabInput.options input))
                (orElse (p_order updates) (TabInput.order input))
                (orElse (p_createdAt updates) (TabInput.createdAt input))
                (Some now))
    end.

(** [inputs.map(f)] for a step that may not finish. *)
Fixpoint mapOpt {A B : Type} (f : A -> option B) (l : list A) : option (list B) :=
  match l with
  | [] => Some []
  | x :: r =>
      match f x, mapOpt f r with
      | Some y, Some r' => Some (y :: r')
      | _, _ => None
      end
  end.

(** [updateInput(id, updates)] *)
Definition updateInput (inputs : list TabInput.t) (id : string) (updates : Payload)
    : option (list TabInput.t) :=
  mapOpt (updateOne inputs id updates) inputs.

End Hook.

(** [removeInput(id)] *)
Definition removeInput (inputs : list TabInput.t) (id : string) : list TabInput.t :=
  mapi (fun input index => withOrder input (Some (Z.of_nat index)))
       (filter (fun input => negb (TabInput.id input =? id)) inputs).

(** [reorderInputs(fromIndex, toIndex)]; [None] as for [spliceMove]. *)
Definition reorderInputs (inputs : list TabInput.t) (fromIndex toIndex : nat)
    : option (list TabInput.t) :=
  if Nat.eqb fromIndex toIndex then Some inputs
  else
    match spliceMove inputs fromIndex toIndex with
    | None => None
    | Some nextInputs =>
        Some (mapi (fun input index => withOrder input (Some (Z.of_nat index))) nextInputs)
    end.

(** *** Vocabulary of the properties and sample data *)

(** Every character of [s] satisfies [p]. *)
Fixpoint allChars (p : ascii -> bool) (s : string) : bool :=
  match s with
  | EmptyString => true
  | String c r => p c && allChars p r
  end.



(** The candidate [uniqueKey] takes at the [j]-th turn of the loop. *)
Definition suffixed (candidate : string) (j : nat) : string :=
  (candidate ++ "_" ++ decimal j)%string.

(** The candidate [ensureUniqueKey] starts from. *)
Definition candidateOf (desiredKey : string) : string :=
  if sanitizeKey desiredKey =? "" then "input" else sanitizeKey desiredKey.

Definition inputA : TabInput.t :=
  TabInput.mk "i" "tab" "a" "A" text None None None None None (Some 0%Z) None None.
Definition inputB : TabInput.t :=
  TabInput.mk "i" "tab" "b" "B" text None None None None None (Some 1%Z) None None.
Definition keyUpdate (k : string) : Payload :=
  mkPayload (Some k) None None None None None None None None None None.

Definition inputC : TabInput.t :=
  TabInput.mk "j" "tab" "b" "B" text None None None None None (Some 1%Z) None None.



(** [x'] is [x] with another [order]. *)
Definition reordered (x x' : TabInput.t) : Prop :=
  x' = withOrder x (TabInput.order x').

Definition inputOrder5 : TabInput.t :=
  TabInput.mk "i" "tab" "a" "A" text None None None None None (Some 5%Z) None None.

End TabInputs.

(** ** app/api/user-configs/tab-inputs/route.ts *)

Module Route.

(** The result of an awaited call: it resolves with a value or throws. *)
Inductive Outcome (A : Type) : Type :=
| Resolved (a : A)
| Thrown.
Arguments Resolved {A} a.
Arguments Thrown {A}.

(** A stored document as [findOne] types it: [{ inputs?: TabInput[] }]. *)
Record Doc : Type := mkDoc { doc_inputs : option (list TabInput.t) }.

(** The JSON bodies the two handlers send. *)
Inductive ResponseBody : Type :=
| ErrorBody (error : string)
| InputsBody (tabId : string) (inputs : list TabInput.t)
| SuccessBody.

(** [NextResponse.json(body, { status })]; the status is 200 when none is
    given. *)
Record Response : Type := mkResponse {
  status : nat;
  body : ResponseBody
}.

Definition json (b : ResponseBody) : Response := mkResponse 200 b.
Definition jsonStatus (b : ResponseBody) (s : nat) : Response := mkResponse s b.

(** [GET(request)].  [tabId] is [searchParams.get("tabId")]: [None] when
    the query has no such parameter.  [getDb] and [findOne] are the
    outcomes of the two awaited storage calls. *)
Definition GET (getDb : Outcome unit) (findOne : string -> Outcome (option Doc))
    (tabId : option string) : Response :=
  match tabId with
  | None => jsonStatus (ErrorBody "tabId is required") 400
  | Some tid =>
      if negb (truthy tabId) then jsonStatus (ErrorBody "tabId is required") 400
      else
        match getDb with
        | Thrown => jsonStatus (ErrorBody "Failed to fetch tab inputs") 500
        | Resolved _ =>
            match findOne tid with
            | Thrown => jsonStatus (ErrorBody "Failed to fetch tab inputs") 500
            | Resolved None => json (InputsBody tid [])
            | Resolved (Some doc) =>
                json (InputsBody tid
                        (match doc_inputs doc with Some l => l | None => [] end))
            end
        end
  end.

(** The [inputs] member of a request body: an array of inputs or any
    other value, [undefined] included. *)
Inductive InputsField : Type :=
| IsArray (l : list TabInput.t)
| NotArray.

(** The request body after the cast to [{ tabId?: string; inputs?: TabInput[] }]. *)
Record Body : Type := mkBody {
  b_tabId : option string;
  b_inputs : InputsField
}.

(** The update [updateOne] is asked to perform:
    [{ $set: { tabId, inputs, updatedAt } }] under the filter [{ tabId }],
    with [upsert: true]. *)
Record Upsert : Type := mkUpsert {
  u_filter : string;
  u_tabId : string;
  u_inputs : list TabInput.t;
  u_updatedAt : string
}.

(** One element of [sanitizedInputs]:
    [{ ...input, tabId, order: index, updatedAt: now, createdAt: input.createdAt || now }]. *)
Definition sanitizeInput (tabId now : string) (input : TabInput.t) (index : nat) : TabInput.t :=
  TabInput.mk (TabInput.id input) tabId (TabInput.key input) (TabInput.label input)
    (TabInput.type input) (TabInput.value input) (TabInput.defaultValue input)
    (TabInput.placeholder input) (TabInput.description input) (TabInput.options input)
    (Some (Z.of_nat index))
    (if truthy (TabInput.createdAt input) then TabInput.createdAt input else Some now)
    (Some now).

(** [POST(request)].  [requestJson] is the outcome of [request.json()],
    [now] and [nowDate] the two readings of the clock.  The result is the
    response and the updates [updateOne] was called with. *)
Definition POST (requestJson : Outcome Body) (getDb : Outcome unit)
    (updateOne : Upsert -> Outcome unit) (now nowDate : string)
    : Response * list Upsert :=
  match requestJson with
  | Thrown => (jsonStatus (ErrorBody "Failed to save tab inputs") 500, [])
  | Resolved b =>
      match b_tabId b with
      | None => (jsonStatus (ErrorBody "tabId is required") 400, [])
      | Some tid =>
          if negb (truthy (b_tabId b))
          then (jsonStatus (ErrorBody "tabId is required") 400, [])
          else
            match b_inputs b with
            | NotArray => (jsonStatus (ErrorBody "inputs must be an array") 400, [])
            | IsArray inputs =>
                match getDb with
                | Thrown => (jsonStatus (ErrorBody "Failed to save tab inputs") 500, [])
                | Resolved _ =>
                    let sanitizedInputs := mapi (sanitizeInput tid now) inputs in
                    let u := mkUpsert tid tid sanitizedInputs nowDate in
                    match updateOne u with
                    | Thrown => (jsonStatus (ErrorBody "Failed to save tab inputs") 500, [u])
                    | Resolved _ => (json SuccessBody, [u])
                    end
                end
            end
      end
  end.

(** *** Vocabulary of the properties and sample data *)

Definition storedDoc : Doc := mkDoc (Some [TabInputs.inputA]).

Definition inputFromClient : TabInput.t :=
  TabInput.mk "i" "other" "a" "A" text None None None None None (Some 7%Z)
    (Some "2024-01-01") None.

(** What [POST] stores for the input [x] submitted at position [i]. *)
Definition storedAs (tabId now : string) (i : nat) (x x' : TabInput.t) : Prop :=
  TabInput.tabId x' = tabId /\
  TabInput.order x' = Some (Z.of_nat i) /\
  (truthy (TabInput.createdAt x) = true -> TabInput.createdAt x' = TabInput.createdAt x) /\
  (truthy (TabInput.createdAt x) = false -> TabInput.createdAt x' = Some now) /\
  TabInput.updatedAt x' = Some now /\
  TabInput.id x' = TabInput.id x /\
  TabInput.key x' = TabInput.key x /\
  TabInput.label x' = TabInput.label x /\
  TabInput.type x' = TabInput.type x /\
  TabInput.value x' = TabInput.value x /\
  TabInput.defaultValue x' = TabInput.defaultValue x /\
  TabInput.placeholder x' = TabInput.placeholder x /\
  TabInput.description x' = TabInput.description x /\
  TabInput.options x' = TabInput.options x.

End Route.

(** ** useDashboardTabs: the operations on tabs and the other group operations

    The calls of [recordChange] (the change log) and the copy of the
    charts in [duplicateTab] do not touch the two state cells and are
    left out. *)

Module DashboardTabsOps.
Import DashboardTabs.

(** [String.prototype.trim], on the white space of [TabInputs.isWhitespace]. *)
Fixpoint trimStart (s : string) : string :=
  match s with
  | EmptyString => EmptyString
  | String c r => if TabInputs.isWhitespace c then trimStart r else s
  end.

Fixpoint trimEnd (s : string) : string :=
  match s with
  | EmptyString => EmptyString
  | String c r =>
      let r' := trimEnd r in
      if TabInputs.isWhitespace c && (r' =? "") then EmptyString else String c r'
  end.

Definition trim (s : string) : string := trimEnd (trimStart s).

(** The characters [.replace(/[^a-z0-9\s-]/g, "")] keeps. *)
Definition isSlugSource (c : ascii) : bool :=
  let n := TabInputs.code c in
  (((97 <=? n) && (n <=? 122)) || ((48 <=? n) && (n <=? 57)) || (n =? 45))%nat
  || TabInputs.isWhitespace c.

Fixpoint removeNonSlugChars (s : string) : string :=
  match s with
  | EmptyString => EmptyString
  | String c r =>
      if isSlugSource c then String c (removeNonSlugChars r) else removeNonSlugChars r
  end.

(** [.replace(/\s+/g, "-")] *)
Fixpoint hyphenateWhitespaceRuns (s : string) : string :=
  match s with
  | EmptyString => EmptyString
  | String c r =>
      if TabInputs.isWhitespace c then
        match r with
        | EmptyString => "-"
        | String c' _ =>
            if TabInputs.isWhitespace c' then hyphenateWhitespaceRuns r
            else String "-" (hyphenateWhitespaceRuns r)
        end
      else String c (hyphenateWhitespaceRuns r)
  end.

(** [slugify(name)]; [nowMs] is the reading of [Date.now()]. *)
Definition slugify (nowMs : nat) (name : string) : string :=
  let base :=
    hyphenateWhitespaceRuns (removeNonSlugChars (trim (TabInputs.toLowerCase name))) in
  if base =? "" then ("tab-" ++ TabInputs.decimal nowMs)%string else base.

(** The loop of [addTab] and [duplicateTab]:
    [while (existing.has(unique)) unique = `${slug}-${i++}`], with [fuel]
    tests of the condition at most. *)
Fixpoint uniqueSlugLoop (fuel : nat) (existing : list string) (slug : string)
    (i : nat) (unique : string) : option string :=
  match fuel with
  | O => None
  | S fuel' =>
      if existsb (String.eqb unique) existing
      then uniqueSlugLoop fuel' existing slug (S i)
             (slug ++ "-" ++ TabInputs.decimal i)%string
      else Some unique
  end.

(** The unique id both functions compute from a slug; the loop is given
    one test more than there are tabs. *)
Definition uniqueSlug (ts : list DashboardTab.t) (slug : string) : option string :=
  let existing := map DashboardTab.id ts in
  uniqueSlugLoop (S (List.length existing)) existing slug 1 slug.

(** [addTab(name)]: the returned id and the state saved.  [None] only
    when the loop did not finish. *)
Definition addTab (nowMs : nat) (nowIso : string) (st : State) (name : string)
    : option (string * State) :=
  match uniqueSlug (tabs st) (slugify nowMs name) with
  | None => None
  | Some unique =>
      let tab := DashboardTab.mk unique name nowIso (Some false) None None None in
      Some (unique, save (tabs st ++ [tab]) (groups st))
  end.

(** [removeTab(id)] *)
Definition removeTab (st : State) (id : string) : State :=
  save (filter (fun t => negb (DashboardTab.id t =? id)) (tabs st)) (groups st).

Definition withName (t : DashboardTab.t) (name : string) : DashboardTab.t :=
  DashboardTab.mk (DashboardTab.id t) name (DashboardTab.createdAt t)
    (DashboardTab.isPublic t) (DashboardTab.groupId t) (DashboardTab.link t)
    (DashboardTab.icon t).

(** [renameTab(id, name)] *)
Definition renameTab (st : State) (id name : string) : State :=
  save (map (fun t => if DashboardTab.id t =? id then withName t name else t) (tabs st))
       (groups st).

(** A member of an object literal: absent, or present with a value,
    which may be [undefined] ([None]). *)
Inductive Member (A : Type) : Type :=
| Absent
| Present (a : option A).
Arguments Absent {A}.
Arguments Present {A} a.

(** [Partial<DashboardTab>] *)
Record TabUpdates : Type := mkTabUpdates {
  u_id : Member string;
  u_name : Member string;
  u_createdAt : Member string;
  u_isPublic : Member bool;
  u_groupId : Member string;
  u_link : Member string;
  u_icon : Member string
}.

(** One member of [{ ...oldTab, ...updates }]: a member present in
    [updates] replaces the one of [oldTab], also when its value is
    [undefined].  For a member the type [DashboardTab] requires, the
    value [undefined] leaves an object that is no [DashboardTab]:
    [None]. *)
Definition spreadRequired {A : Type} (m : Member A) (old : A) : option A :=
  match m with
  | Absent => Some old
  | Present (Some v) => Some v
  | Present None => None
  end.

Definition spreadOptional {A : Type} (m : Member A) (old : option A) : option A :=
  match m with
  | Absent => old
  | Present v => v
  end.

(** [{ ...oldTab, ...updates }] *)
Definition mergeTab (oldTab : DashboardTab.t) (updates : TabUpdates)
    : option DashboardTab.t :=
  match spreadRequired (u_id updates) (DashboardTab.id oldTab),
        spreadRequired (u_name updates) (DashboardTab.name oldTab),
        spreadRequired (u_createdAt updates) (DashboardTab.createdAt oldTab) with
  | Some i, Some n, Some c =>
      Some (DashboardTab.mk i n c
              (spreadOptional (u_isPublic updates) (DashboardTab.isPublic oldTab))
              (spreadOptional (u_groupId updates) (DashboardTab.groupId oldTab))
              (spreadOptional (u_link updates) (DashboardTab.link oldTab))
              (spreadOptional (u_icon updates) (DashboardTab.icon oldTab)))
  | _, _, _ => None
  end.

(** [updateTab(id, updates)]: every tab with the id is replaced by the
    merge of the first one with the updates.  [None] as for [mergeTab]. *)
Definition updateTab (st : State) (id : string) (updates : TabUpdates) : option State :=
  match find (fun t => DashboardTab.id t =? id) (tabs st) with
  | None => Some st
  | Some oldTab =>
      match mergeTab oldTab updates with
      | None => None
      | Some updatedTab =>
          Some (save (map (fun t => if DashboardTab.id t =? id then updatedTab else t)
                          (tabs st))
                     (groups st))
      end
  end.

(** [moveTabToGroup(tabId, targetGroupId)] *)
Definition moveTabToGroup (st : State) (tabId : string) (targetGroupId : option string)
    : State :=
  save (map (fun t => if DashboardTab.id t =? tabId
                      then withGroupId t (orUndefined targetGroupId) else t) (tabs st))
       (groups st).

(** [addGroup(name, parentId)]; [newId] is the generated identifier. *)
Definition addGroup (newId : string) (st : State) (name : string)
    (parentId : option string) : string * State :=
  let sameLevelGroups := filter (sameLevel parentId) (groups st) in
  let maxO := maxOrder sameLevelGroups in
  let newGroup := TabGroup.mk newId name (plusOne maxO) (orUndefined parentId) in
  (TabGroup.id newGroup, save (tabs st) (groups st ++ [newGroup])).

Definition withGroupName (g : TabGroup.t) (name : string) : TabGroup.t :=
  TabGroup.mk (TabGroup.id g) name (TabGroup.order g) (TabGroup.parentId g).

(** [renameGroup(groupId, name)] *)
Definition renameGroup (st : State) (groupId name : string) : State :=
  save (tabs st)
       (map (fun g => if TabGroup.id g =? groupId then withGroupName g name else g)
            (groups st)).

(** [duplicateTab(id, desiredName)], for the state of the hook: the
    returned id ([None] for [null]) and the state saved. *)
Definition duplicateTab (nowMs : nat) (nowIso : string) (st : State) (id : string)
    (desiredName : option string) : option (option string * State) :=
  match find (fun t => DashboardTab.id t =? id) (tabs st) with
  | None => Some (None, st)
  | Some sourceTab =>
      let baseName :=
        match desiredName with
        | Some d =>
            if truthy desiredName && truthy (Some (trim d)) then trim d
            else (DashboardTab.name sourceTab ++ " (Copy)")%string
        | None => (DashboardTab.name sourceTab ++ " (Copy)")%string
        end in
      match uniqueSlug (tabs st) (slugify nowMs baseName) with
      | None => None
      | Some unique =>
          let newTab :=
            DashboardTab.mk unique baseName nowIso (Some false)
              (DashboardTab.groupId sourceTab) None None in
          Some (Some unique, save (tabs st ++ [newTab]) (groups st))
      end
  end.

(** The characters of a slug: lowercase ASCII letters, digits, hyphen. *)
Definition slugAlphabet : string := "abcdefghijklmnopqrstuvwxyz0123456789-".

Definition isSlugChar (c : ascii) : bool :=
  existsb (Ascii.eqb c) (list_ascii_of_string slugAlphabet).

(** The candidate [unique] takes at the [j]-th turn of the loop. *)
Definition numbered (slug : string) (j : nat) : string :=
  (slug ++ "-" ++ TabInputs.decimal j)%string.

Definition sampleTab (i : string) (g : option string) : DashboardTab.t :=
  DashboardTab.mk i i "2024-01-01" None g None None.

Definition stateReports : State :=
  mkState [sampleTab "reports" None; sampleTab "sales" (Some "g")] [groupG1].

Definition linkUpdate (l : option string) : TabUpdates :=
  mkTabUpdates Absent Absent Absent Absent Absent (Present l) Absent.

Definition tabWithLink : DashboardTab.t :=
  DashboardTab.mk "sales" "Sales" "2024-01-01" None (Some "g") (Some "https://x") None.
Definition stateWithLink : State :=
  mkState [sampleTab "reports" None; tabWithLink] [groupG1].

(** The function [removeGroup] maps over the remaining groups. *)
Definition reparent (gs : list TabGroup.t) (groupId : string) (g : TabGroup.t) : TabGroup.t :=
  if opt_eqb (TabGroup.parentId g) (Some groupId)
  then withParentId g (orUndefined match findGroup gs groupId with
                                   | Some r => TabGroup.parentId r
                                   | None => None
                                   end)
  else g.

Definition groupX : TabGroup.t := TabGroup.mk "x" "X" 0 (Some "").
Definition groupE : TabGroup.t := TabGroup.mk "" "E" 1 (Some "x").

(** The link a group contributes to the [parentId] relation. *)
Definition link (g : TabGroup.t) : string * option string :=
  (TabGroup.id g, TabGroup.parentId g).

Definition twinRoot : TabGroup.t := TabGroup.mk "a" "A1" 0 None.
Definition twinChild : TabGroup.t := TabGroup.mk "a" "A2" 0 (Some "b").
Definition groupUnderA : TabGroup.t := TabGroup.mk "b" "B" 0 (Some "a").
Definition stateTwinIds : State := mkState [] [twinRoot; twinChild; groupUnderA].

End DashboardTabsOps.

(** ** useTabInputs: loading, values and the displayed order *)

Module TabInputsOps.
Import TabInputs.

(** What the [fetch] of [loadInputs] gives: it throws, answers with a
    status that is not ok, or answers with a body whose [inputs] member
    is an array or not. *)
Inductive FetchResult : Type :=
| FetchThrows
| NotOk
| Ok (inputs : option (list TabInput.t)).

(** [loadInputs()] in the browser: the list given to [setInputs]. *)
Definition loadInputs (tabId : option string) (response : FetchResult) : list TabInput.t :=
  if negb (truthy tabId) then []
  else
    match response with
    | Ok (Some inputs) =>
        mapi (fun input index =>
                withOrder input (orElse (TabInput.order input) (Some (Z.of_nat index))))
             inputs
    | Ok None => []
    | NotOk => []
    | FetchThrows => []
    end.

Definition withValue (i : TabInput.t) (v : option string) (u : option string) : TabInput.t :=
  TabInput.mk (TabInput.id i) (TabInput.tabId i) (TabInput.key i) (TabInput.label i)
    (TabInput.type i) v (TabInput.defaultValue i)
    (TabInput.placeholder i) (TabInput.description i) (TabInput.options i)
    (TabInput.order i) (TabInput.createdAt i) u.

(** [setInputValue(id, value)] *)
Definition setInputValue (now : string) (inputs : list TabInput.t) (id value : string)
    : list TabInput.t :=
  map (fun input => if TabInput.id input =? id
                    then withValue input (Some value) (Some now) else input) inputs.

(** [a.order ?? 0] *)
Definition orderOf (i : TabInput.t) : Z :=
  match TabInput.order i with
  | Some o => o
  | None => 0%Z
  end.

(** [[...inputs].sort((a, b) => (a.order ?? 0) - (b.order ?? 0))].
    [Array.prototype.sort] is stable and the comparator orders the
    inputs by [orderOf], so the result is the one arrangement of the
    inputs by non-decreasing [orderOf] that keeps the inputs of equal
    order in their sequence; insertion from the right computes it. *)
Fixpoint insertByOrder (x : TabInput.t) (l : list TabInput.t) : list TabInput.t :=
  match l with
  | [] => [x]
  | y :: r =>
      if (orderOf x <=? orderOf y)%Z then x :: y :: r else y :: insertByOrder x r
  end.

Fixpoint sortedInputs (inputs : list TabInput.t) : list TabInput.t :=
  match inputs with
  | [] => []
  | x :: r => insertByOrder x (sortedInputs r)
  end.

(** The orders of a list are the positions 0, 1, ..., n-1, from [k] on. *)
Fixpoint numberedFrom (k : nat) (l : list TabInput.t) : Prop :=
  match l with
  | [] => True
  | x :: r => TabInput.order x = Some (Z.of_nat k) /\ numberedFrom (S k) r
  end.

Definition sampleInput (i k : string) (o : option Z) : TabInput.t :=
  TabInput.mk i "tab" k k text None None None None None o None None.

(** The comparator of [sortedInputs]: non-decreasing [order ?? 0]. *)
Definition byOrder (a b : TabInput.t) : Prop := (orderOf a <= orderOf b)%Z.

End TabInputsOps.

(** * Properties *)

(** ** Generic facts on the helpers *)

Lemma truthy_orUndefined (o : option string) :
  truthy o = false -> orUndefined o = None.
Proof. unfold orUndefined. intros ->. reflexivity. Qed.

Lemma orUndefined_truthy (o : option string) :
  truthy o = true -> orUndefined o = o.
Proof. unfold orUndefined. intros ->. reflexivity. Qed.

Lemma opt_eqb_eq (a b : option string) : opt_eqb a b = true <-> a = b.
Proof.
  destruct a as [x|], b as [y|]; simpl; split; intros H;
    try discriminate; try reflexivity.
  - apply String.eqb_eq in H. now subst.
  - injection H as ->. apply String.eqb_refl.
Qed.

Lemma opt_eqb_neq (a b : option string) : opt_eqb a b = false <-> a <> b.
Proof.
  split.
  - intros H E. apply opt_eqb_eq in E. congruence.
  - intros H. destruct (opt_eqb a b) eqn:E; [|reflexivity].
    apply opt_eqb_eq in E. contradiction.
Qed.

(** ** Facts on the array helpers *)

Section Arrays.

Context {A : Type}.

Lemma length_removeAt (i : nat) (l : list A) :
  i < List.length l -> List.length (removeAt i l) = List.length l - 1.
Proof.
  intros H. unfold removeAt.
  rewrite length_app, length_firstn, length_skipn. lia.
Qed.

Lemma removeAt_insertAt (i : nat) (x : A) (l : list A) :
  i <= List.length l -> removeAt i (insertAt i x l) = l.
Proof.
  intros H. unfold removeAt, insertAt.
  assert (L : List.length (firstn i l) = i) by (rewrite length_firstn; lia).
  rewrite firstn_app, L, Nat.sub_diag, firstn_O, app_nil_r.
  rewrite firstn_all2 by lia.
  rewrite skipn_app, L.
  replace (S i - i) with 1 by lia.
  rewrite skipn_all2 by lia. simpl. apply firstn_skipn.
Qed.

Lemma nth_error_insertAt (i : nat) (x : A) (l : list A) :
  i <= List.length l -> nth_error (insertAt i x l) i = Some x.
Proof.
  intros H. unfold insertAt.
  assert (L : List.length (firstn i l) = i) by (rewrite length_firstn; lia).
  rewrite nth_error_app2 by lia. rewrite L, Nat.sub_diag. reflexivity.
Qed.

Lemma Permutation_insertAt (i : nat) (x : A) (l : list A) :
  Permutation (x :: l) (insertAt i x l).
Proof.
  unfold insertAt. rewrite <- (firstn_skipn i l) at 1. apply Permutation_middle.
Qed.

Lemma Permutation_removeAt (i : nat) (x : A) (l : list A) :
  nth_error l i = Some x -> Permutation l (x :: removeAt i l).
Proof.
  intros H. unfold removeAt.
  destruct (nth_error_split l i H) as (l1 & l2 & -> & <-).
  rewrite firstn_app, Nat.sub_diag, firstn_O, app_nil_r, firstn_all.
  rewrite skipn_app, skipn_all2 by lia.
  replace (S (List.length l1) - List.length l1) with 1 by lia. simpl.
  symmetry. apply Permutation_middle.
Qed.

(** What [spliceMove] does for valid indices: the element at [fromIndex]
    ends at [toIndex], and the other elements keep their sequence. *)
Lemma spliceMove_spec (l : list A) (fromIndex toIndex : nat) :
  fromIndex < List.length l -> toIndex < List.length l ->
  exists r,
    spliceMove l fromIndex toIndex = Some r /\
    nth_error r toIndex = nth_error l fromIndex /\
    removeAt toIndex r = removeAt fromIndex l /\
    Permutation l r.
Proof.
  intros Hf Ht. unfold spliceMove.
  destruct (nth_error l fromIndex) as [x|] eqn:E;
    [|apply nth_error_None in E; lia].
  pose proof (length_removeAt fromIndex l Hf) as L.
  eexists. split; [reflexivity|]. split; [|split].
  - apply nth_error_insertAt. lia.
  - apply removeAt_insertAt. lia.
  - rewrite (Permutation_removeAt _ _ _ E) at 1. apply Permutation_insertAt.
Qed.

Lemma length_mapi_from {B : Type} (f : A -> nat -> B) (k : nat) (l : list A) :
  List.length (mapi_from f k l) = List.length l.
Proof. revert k. induction l; intros k; simpl; auto. Qed.

Lemma nth_error_mapi_from {B : Type} (f : A -> nat -> B) (k i : nat) (l : list A) :
  nth_error (mapi_from f k l) i = option_map (fun x => f x (k + i)) (nth_error l i).
Proof.
  revert k i. induction l as [|x r IH]; intros k [|i]; simpl; try reflexivity.
  - now rewrite Nat.add_0_r.
  - rewrite IH. now rewrite Nat.add_succ_r.
Qed.

Lemma Forall2_mapi_from {B : Type} (R : A -> B -> Prop) (f : A -> nat -> B)
    (k : nat) (l : list A) :
  (forall x i, R x (f x i)) -> Forall2 R l (mapi_from f k l).
Proof. intros H. revert k. induction l; intros k; simpl; constructor; auto. Qed.

Lemma filter_mapi_from_all {B : Type} (p : B -> bool) (f : A -> nat -> B)
    (k : nat) (l : list A) :
  (forall x i, In x l -> p (f x i) = true) ->
  filter p (mapi_from f k l) = mapi_from f k l.
Proof.
  revert k. induction l as [|x r IH]; intros k H; [reflexivity|].
  simpl. rewrite (H x k (or_introl eq_refl)). f_equal. apply IH.
  intros y i Hy. apply H. now right.
Qed.

Lemma In_mapi_from {B : Type} (f : A -> nat -> B) (k : nat) (l : list A) (y : B) :
  In y (mapi_from f k l) -> exists x i, In x l /\ y = f x i.
Proof.
  revert k. induction l as [|x r IH]; intros k; simpl; [intros []|].
  intros [<-|H].
  - exists x, k. auto.
  - destruct (IH _ H) as (x' & i & Hx & E). exists x', i. auto.
Qed.

Lemma filter_none (p : A -> bool) (l : list A) :
  (forall x, In x l -> p x = false) -> filter p l = [].
Proof.
  induction l as [|x r IH]; intros H; [reflexivity|].
  simpl. rewrite (H x (or_introl eq_refl)). apply IH.
  intros y Hy. apply H. now right.
Qed.

Lemma filter_all (p : A -> bool) (l : list A) :
  (forall x, In x l -> p x = true) -> filter p l = l.
Proof.
  induction l as [|x r IH]; intros H; [reflexivity|].
  simpl. rewrite (H x (or_introl eq_refl)). f_equal. apply IH.
  intros y Hy. apply H. now right.
Qed.

Lemma Permutation_partition (p q : A -> bool) (l : list A) :
  (forall x, q x = negb (p x)) ->
  Permutation l (filter q l ++ filter p l).
Proof.
  intros H. induction l as [|x r IH]; [constructor|].
  simpl. rewrite H. destruct (p x); simpl.
  - apply Permutation_cons_app, IH.
  - now constructor.
Qed.

Lemma Forall2_map_r {B : Type} (R : A -> B -> Prop) (f : A -> B) (l : list A) :
  (forall x, R x (f x)) -> Forall2 R l (map f l).
Proof. intros H. induction l; simpl; constructor; auto. Qed.

Lemma Forall2_removeAt {B : Type} (R : A -> B -> Prop) (i : nat)
    (l : list A) (l' : list B) :
  Forall2 R l l' -> Forall2 R (removeAt i l) (removeAt i l').
Proof.
  intros H. revert i. induction H as [|x y l l' Hxy H IH]; intros i.
  - unfold removeAt. rewrite !firstn_nil. simpl. constructor.
  - destruct i as [|i]; [exact H|].
    change (Forall2 R (x :: removeAt i l) (y :: removeAt i l')).
    constructor; [assumption|apply IH].
Qed.

End Arrays.

(** ** Acyclicity and moveGroupToParent *)

Module DashboardTabsFacts.
Import DashboardTabs.

Lemma reachesRoot_unfold (n : nat) (gs : list TabGroup.t) (c : option string) :
  reachesRoot (S n) gs c =
  match c with
  | None => true
  | Some i =>
      if negb (truthy c) then true
      else match findGroup gs i with
           | None => true
           | Some g => reachesRoot n gs (TabGroup.parentId g)
           end
  end.
Proof. reflexivity. Qed.

Lemma reachesRoot_S (n : nat) (gs : list TabGroup.t) (c : option string) :
  reachesRoot n gs c = true -> reachesRoot (S n) gs c = true.
Proof.
  revert c. induction n as [|n IH]; intros c H; [discriminate|].
  simpl in H. cbn [reachesRoot].
  destruct c as [i|]; [|reflexivity].
  destruct (negb (truthy (Some i))); [reflexivity|].
  destruct (findGroup gs i) as [g|]; [|reflexivity].
  apply IH, H.
Qed.

Lemma reachesRoot_mono (n m : nat) (gs : list TabGroup.t) (c : option string) :
  n <= m -> reachesRoot n gs c = true -> reachesRoot m gs c = true.
Proof.
  induction 1 as [|m _ IH]; intros H; [assumption|].
  apply reachesRoot_S, IH, H.
Qed.

Lemma findGroup_In (gs : list TabGroup.t) (i : string) (g : TabGroup.t) :
  findGroup gs i = Some g -> In g gs /\ TabGroup.id g = i.
Proof.
  unfold findGroup. intros H. apply find_some in H. destruct H as [H1 H2].
  split; [assumption|]. now apply String.eqb_eq.
Qed.

(** In an acyclic list the walk stops from every identifier, not only
    from the parent of a listed group. *)
Lemma acyclic_from_any (gs : list TabGroup.t) (c : option string) :
  acyclic gs -> exists n, reachesRoot n gs c = true.
Proof.
  intros A. destruct c as [i|]; [|exists 1; reflexivity].
  destruct (findGroup gs i) as [g|] eqn:F.
  - destruct (findGroup_In _ _ _ F) as [Hin _].
    destruct (A g Hin) as [n Hn]. exists (S n). cbn [reachesRoot].
    destruct (negb (truthy (Some i))); [reflexivity|]. now rewrite F.
  - exists 1. cbn [reachesRoot]. rewrite F.
    now destruct (negb (truthy (Some i))).
Qed.

Lemma acyclic_of_all (gs : list TabGroup.t) :
  (forall c, exists n, reachesRoot n gs c = true) -> acyclic gs.
Proof. intros H g _. apply H. Qed.

Lemma acyclicb_sound (gs : list TabGroup.t) : acyclicb gs = true -> acyclic gs.
Proof.
  unfold acyclicb. rewrite forallb_forall. intros H g Hin.
  exists (S (List.length gs)). now apply H.
Qed.

Lemma isDescendant_S (n : nat) (gs : list TabGroup.t) (c a : string) (b : bool) :
  isDescendant n gs c a = Some b -> isDescendant (S n) gs c a = Some b.
Proof.
  revert c. induction n as [|n IH]; intros c H; [discriminate|].
  simpl in H. cbn [isDescendant].
  destruct (findGroup gs c) as [g|]; [|assumption].
  destruct (negb (truthy (TabGroup.parentId g))); [assumption|].
  destruct (TabGroup.parentId g) as [p|]; [|assumption].
  destruct (p =? a); [assumption|]. apply IH, H.
Qed.

Lemma isDescendant_mono (n m : nat) (gs : list TabGroup.t) (c a : string) (b : bool) :
  n <= m -> isDescendant n gs c a = Some b -> isDescendant m gs c a = Some b.
Proof.
  induction 1 as [|m _ IH]; intros H; [assumption|].
  apply isDescendant_S, IH, H.
Qed.

(** Where the walk from a non-empty identifier stops, [isDescendant]
    answers with the same fuel. *)
Lemma isDescendant_total (n : nat) (gs : list TabGroup.t) (c a : string) :
  truthy (Some c) = true -> reachesRoot n gs (Some c) = true ->
  exists b, isDescendant n gs c a = Some b.
Proof.
  revert c. induction n as [|n IH]; intros c T H; [discriminate|].
  cbn [reachesRoot] in H. rewrite T in H. simpl in H. cbn [isDescendant].
  destruct (findGroup gs c) as [g|]; [|now exists false].
  destruct (truthy (TabGroup.parentId g)) eqn:Tg; simpl; [|now exists false].
  destruct (TabGroup.parentId g) as [p|]; [|now exists false].
  destruct (p =? a); [now exists true|]. now apply IH.
Qed.

Section Move.

Variable gs : list TabGroup.t.
Variable groupId : string.
Variable f : TabGroup.t -> TabGroup.t.
Hypothesis f_id : forall g, TabGroup.id (f g) = TabGroup.id g.
Hypothesis f_other : forall g, TabGroup.id g <> groupId -> f g = g.

Lemma findGroup_map_other (i : string) :
  i <> groupId -> findGroup (map f gs) i = findGroup gs i.
Proof.
  intros N. unfold findGroup. induction gs as [|g r IH]; [reflexivity|].
  simpl. rewrite f_id. destruct (TabGroup.id g =? i) eqn:E.
  - apply String.eqb_eq in E. rewrite f_other; [reflexivity|congruence].
  - apply IH.
Qed.

Lemma findGroup_map_self :
  findGroup (map f gs) groupId = option_map f (findGroup gs groupId).
Proof.
  unfold findGroup. induction gs as [|g r IH]; [reflexivity|].
  simpl. rewrite f_id. destruct (TabGroup.id g =? groupId); [reflexivity|apply IH].
Qed.

End Move.

Lemma moveGroupToParent_cases (fuel : nat) (st st' : State) (groupId : string)
    (targetParentId : option string) :
  moveGroupToParent fuel st groupId targetParentId = Some st' ->
  st' = st \/
  (movePerformed fuel (groups st) groupId targetParentId /\
   st' = save (tabs st) (movedGroups (groups st) groupId targetParentId)).
Proof.
  unfold moveGroupToParent, movePerformed.
  destruct (findGroup (groups st) groupId) as [g|] eqn:F;
    [|intros [= <-]; now left].
  destruct (opt_eqb targetParentId (Some groupId)) eqn:E;
    [intros [= <-]; now left|].
  apply opt_eqb_neq in E.
  destruct targetParentId as [t|].
  - destruct (truthy (Some t)) eqn:T.
    + destruct (isDescendant fuel (groups st) t groupId) as [[|]|] eqn:D;
        [intros [= <-]; now left| |discriminate].
      intros [= <-]. right. repeat split; try congruence.
      right. now exists t.
    + intros [= <-]. right. repeat split; try congruence. now left.
  - intros [= <-]. right. repeat split; try congruence. now left.
Qed.

Lemma moveGroupToParent_performed (fuel : nat) (st : State) (groupId : string)
    (targetParentId : option string) :
  movePerformed fuel (groups st) groupId targetParentId ->
  moveGroupToParent fuel st groupId targetParentId =
  Some (save (tabs st) (movedGroups (groups st) groupId targetParentId)).
Proof.
  unfold moveGroupToParent, movePerformed. intros (F & E & D).
  destruct (findGroup (groups st) groupId) as [g|]; [|congruence].
  apply opt_eqb_neq in E. rewrite E.
  destruct D as [T|(t & -> & D)].
  - destruct targetParentId as [t|]; [rewrite T|]; reflexivity.
  - rewrite D. now destruct (truthy (Some t)).
Qed.

Lemma filter_others_map (gs : list TabGroup.t) (groupId : string)
    (h : TabGroup.t -> TabGroup.t) (p : TabGroup.t -> bool) :
  (forall g, TabGroup.id (h g) = TabGroup.id g) ->
  (forall g, TabGroup.id g <> groupId -> h g = g) ->
  filter (fun g => p g && negb (TabGroup.id g =? groupId)) (map h gs) =
  filter (fun g => p g && negb (TabGroup.id g =? groupId)) gs.
Proof.
  intros Hid Hother. induction gs as [|g r IH]; [reflexivity|].
  simpl. rewrite Hid. destruct (TabGroup.id g =? groupId) eqn:E.
  - rewrite !andb_false_r. apply IH.
  - apply String.eqb_neq in E. rewrite (Hother g E), IH. reflexivity.
Qed.

Lemma movedGroups_map (gs : list TabGroup.t) (groupId : string)
    (targetParentId : option string) :
  movedGroups gs groupId targetParentId = map (moveOne gs groupId targetParentId) gs.
Proof.
  unfold movedGroups. cbv zeta.
  rewrite (filter_others_map gs groupId _ (sameLevel targetParentId)).
  - rewrite map_map. apply map_ext. intros g. unfold moveOne.
    destruct (TabGroup.id g =? groupId) eqn:E; [|now rewrite E].
    simpl. rewrite E. reflexivity.
  - intros g. now destruct (TabGroup.id g =? groupId).
  - intros g N. apply String.eqb_neq in N. now rewrite N.
Qed.

Lemma moveOne_id gs groupId targetParentId g :
  TabGroup.id (moveOne gs groupId targetParentId g) = TabGroup.id g.
Proof. unfold moveOne. now destruct (TabGroup.id g =? groupId). Qed.

Lemma moveOne_other gs groupId targetParentId g :
  TabGroup.id g <> groupId -> moveOne gs groupId targetParentId g = g.
Proof. unfold moveOne. intros N. apply String.eqb_neq in N. now rewrite N. Qed.

Lemma moveOne_self gs groupId targetParentId g :
  TabGroup.id g = groupId ->
  TabGroup.parentId (moveOne gs groupId targetParentId g) = orUndefined targetParentId.
Proof. unfold moveOne. intros <-. now rewrite String.eqb_refl. Qed.

(** The walk from a target that is no descendant of [groupId] never
    meets [groupId], so the move leaves it as it was. *)
Lemma reachesRoot_target (n : nat) (gs : list TabGroup.t) (groupId : string)
    (targetParentId : option string) (t : string) :
  t <> groupId ->
  isDescendant n gs t groupId = Some false ->
  reachesRoot (S n) (map (moveOne gs groupId targetParentId) gs) (Some t) = true.
Proof.
  revert t. induction n as [|n IH]; intros t N D; [discriminate|].
  cbn [isDescendant] in D. rewrite reachesRoot_unfold.
  destruct (negb (truthy (Some t))); [reflexivity|].
  rewrite (findGroup_map_other gs groupId _ (moveOne_id gs groupId targetParentId)
             (moveOne_other gs groupId targetParentId) t N).
  destruct (findGroup gs t) as [g|]; [|reflexivity].
  destruct (truthy (TabGroup.parentId g)) eqn:T; simpl in D.
  - destruct (TabGroup.parentId g) as [p|]; [|discriminate].
    destruct (p =? groupId) eqn:E; [discriminate|].
    apply String.eqb_neq in E. apply IH; assumption.
  - rewrite reachesRoot_unfold.
    destruct (TabGroup.parentId g) as [p|]; [|reflexivity].
    now rewrite T.
Qed.

Lemma acyclic_movedGroups (fuel : nat) (gs : list TabGroup.t) (groupId : string)
    (targetParentId : option string) :
  acyclic gs ->
  movePerformed fuel gs groupId targetParentId ->
  acyclic (movedGroups gs groupId targetParentId).
Proof.
  intros A (F & E & D). rewrite movedGroups_map.
  set (gs' := map (moveOne gs groupId targetParentId) gs).
  assert (T : exists m, reachesRoot m gs' (orUndefined targetParentId) = true).
  { destruct D as [T|(t & -> & D)].
    - rewrite (truthy_orUndefined _ T). now exists 1.
    - exists (S fuel). destruct (truthy (Some t)) eqn:T.
      + rewrite (orUndefined_truthy _ T).
        apply reachesRoot_target; [congruence|assumption].
      + now rewrite (truthy_orUndefined _ T). }
  apply acyclic_of_all. intros c.
  destruct (acyclic_from_any gs c A) as [n Hn].
  revert c Hn. induction n as [|n IH]; intros c Hn; [discriminate|].
  cbn [reachesRoot] in Hn.
  destruct c as [i|]; [|now exists 1].
  destruct (truthy (Some i)) eqn:Ti; simpl in Hn;
    [|exists 1; cbn [reachesRoot]; now rewrite Ti].
  destruct (String.eqb_spec i groupId) as [->|N].
  - destruct T as [m Hm]. exists (S m). cbn [reachesRoot]. rewrite Ti. simpl.
    unfold gs'. rewrite (findGroup_map_self gs groupId _ (moveOne_id gs groupId targetParentId)).
    destruct (findGroup gs groupId) as [g|] eqn:Fg; [|reflexivity].
    simpl. destruct (findGroup_In _ _ _ Fg) as [_ Hid].
    now rewrite (moveOne_self _ _ _ _ Hid).
  - pose proof (findGroup_map_other gs groupId _ (moveOne_id gs groupId targetParentId)
                  (moveOne_other gs groupId targetParentId) i N) as Fi.
    fold gs' in Fi.
    destruct (findGroup gs i) as [g|] eqn:Fg.
    + destruct (IH _ Hn) as [m Hm]. exists (S m). cbn [reachesRoot].
      rewrite Ti, Fi. exact Hm.
    + exists 1. cbn [reachesRoot]. now rewrite Ti, Fi.
Qed.

(** *** Claim C2 *)

(** C2, counterexample.  With two groups that carry the same id,
    [removeGroup] of the id of the first also deletes the second: the
    filter [g.id !== groupId] drops every group with that id. *)
Lemma removeGroup_deletes_twin :
  In groupG1 (groups stateTwins) /\
  In groupG2 (groups stateTwins) /\
  groupG2 <> groupG1 /\
  ~ In groupG2 (groups (removeGroup stateTwins (TabGroup.id groupG1))).
Proof.
  split; [now left|]. split; [right; now left|].
  split; [discriminate|]. simpl. intros [].
Qed.

Lemma NoDup_ids_split (l1 l2 : list TabGroup.t) (g h : TabGroup.t) :
  NoDup (map TabGroup.id (l1 ++ g :: l2)) ->
  In h (l1 ++ l2) -> TabGroup.id h <> TabGroup.id g.
Proof.
  rewrite map_app. simpl. intros ND Hin E.
  apply NoDup_remove_2 in ND. apply ND. rewrite <- map_app, <- E.
  now apply in_map.
Qed.

Lemma findGroup_unique (l1 l2 : list TabGroup.t) (g : TabGroup.t) :
  NoDup (map TabGroup.id (l1 ++ g :: l2)) ->
  findGroup (l1 ++ g :: l2) (TabGroup.id g) = Some g.
Proof.
  intros ND. unfold findGroup.
  assert (H : forall h, In h l1 -> TabGroup.id h <> TabGroup.id g).
  { intros h Hin. apply (NoDup_ids_split l1 l2 g h ND).
    apply in_or_app. now left. }
  clear ND. induction l1 as [|x r IH]; simpl.
  - now rewrite String.eqb_refl.
  - destruct (String.eqb_spec (TabGroup.id x) (TabGroup.id g)) as [E|_].
    + exfalso. apply (H x); [now left|assumption].
    + apply IH. intros h Hh. apply H. now right.
Qed.

(** C2, amended.  In a state whose groups have pairwise-distinct ids, for
    a group [g] of the state, [removeGroup(g.id)] keeps every tab in
    place and only clears the [groupId] of the tabs whose [groupId] was
    [g.id]; the groups list loses [g] and nothing else, and each
    remaining group whose [parentId] was [g.id] gets [g]'s own [parentId]
    (none when [g] had none or an empty one), the others being unchanged. *)
Theorem removeGroup_cascade (st : State) (g : TabGroup.t) :
  NoDup (map TabGroup.id (groups st)) ->
  In g (groups st) ->
  let st' := removeGroup st (TabGroup.id g) in
  Forall2 (fun t t' =>
             if opt_eqb (DashboardTab.groupId t) (Some (TabGroup.id g))
             then t' = withGroupId t None
             else t' = t)
          (tabs st) (tabs st') /\
  exists l1 l2,
    groups st = l1 ++ g :: l2 /\
    ~ In g (groups st') /\
    Forall2 (fun h h' =>
               if opt_eqb (TabGroup.parentId h) (Some (TabGroup.id g))
               then h' = withParentId h (orUndefined (TabGroup.parentId g))
               else h' = h)
            (l1 ++ l2) (groups st').
Proof.
  intros ND Hin st'. split.
  - unfold st', removeGroup. simpl. apply Forall2_map_r. intros t.
    now destruct (opt_eqb (DashboardTab.groupId t) (Some (TabGroup.id g))).
  - destruct (in_split _ _ Hin) as (l1 & l2 & E).
    set (re := fun h => if opt_eqb (TabGroup.parentId h) (Some (TabGroup.id g))
                        then withParentId h (orUndefined (TabGroup.parentId g)) else h).
    assert (Hg : groups st' = map re (l1 ++ l2)).
    { unfold st', removeGroup. simpl. rewrite E in ND |- *.
      rewrite (findGroup_unique l1 l2 g ND).
      rewrite filter_app. simpl. rewrite String.eqb_refl. simpl.
      rewrite <- filter_app, filter_all; [reflexivity|].
      intros h Hh. apply negb_true_iff, String.eqb_neq.
      now apply (NoDup_ids_split l1 l2 g h ND). }
    exists l1, l2. split; [assumption|]. rewrite Hg. split.
    + intros Hg'. apply in_map_iff in Hg'.
      destruct Hg' as (h & Eh & Hh).
      rewrite E in ND. pose proof (NoDup_ids_split l1 l2 g h ND Hh) as N.
      apply N. rewrite <- Eh. unfold re.
      now destruct (opt_eqb (TabGroup.parentId h) (Some (TabGroup.id g))).
    + apply Forall2_map_r. intros h.
      unfold re. now destruct (opt_eqb (TabGroup.parentId h) (Some (TabGroup.id g))).
Qed.

Lemma removeGroup_cascade_witness :
  NoDup (map TabGroup.id (groups stateABCt)) /\
  In groupB (groups stateABCt) /\
  removeGroup stateABCt "b" =
    mkState [DashboardTab.mk "t1" "T1" "2024-01-01" None None None None]
            [groupA; TabGroup.mk "c" "C" 2 (Some "a")] /\
  Forall2 (fun t t' =>
             if opt_eqb (DashboardTab.groupId t) (Some (TabGroup.id groupB))
             then t' = withGroupId t None
             else t' = t)
          (tabs stateABCt) (tabs (removeGroup stateABCt (TabGroup.id groupB))).
Proof.
  assert (ND : NoDup (map TabGroup.id (groups stateABCt))).
  { simpl. repeat constructor; simpl; intuition discriminate. }
  assert (Hin : In groupB (groups stateABCt)) by (simpl; auto).
  split; [exact ND|]. split; [exact Hin|]. split; [reflexivity|].
  exact (proj1 (removeGroup_cascade stateABCt groupB ND Hin)).
Defined.

(** *** The greatest order of a level *)

Lemma Math_max_ge (xs : list Z) (x : Z) :
  (x <= Math_max x xs)%Z /\ forall y, In y xs -> (y <= Math_max x xs)%Z.
Proof.
  unfold Math_max. revert x. induction xs as [|z r IH]; intros x; simpl.
  - split; [lia|intros _ []].
  - destruct (IH (Z.max x z)) as [H1 H2]. split; [lia|].
    intros y [<-|Hy]; [lia|auto].
Qed.

Lemma Math_max_In (xs : list Z) (x : Z) : In (Math_max x xs) (x :: xs).
Proof.
  unfold Math_max. revert x. induction xs as [|z r IH]; intros x; simpl.
  - now left.
  - destruct (IH (Z.max x z)) as [H|H]; [|now right; right].
    destruct (Z.max_spec x z) as [[_ E]|[_ E]]; rewrite E in H |- *.
    + right. now left.
    + now left.
Qed.

Lemma maxOrder_spec (l : list TabGroup.t) : isMaxOrder l (maxOrder l).
Proof.
  unfold isMaxOrder, maxOrder. destruct l as [|g r]; simpl.
  - repeat split; [intros _ []|congruence].
  - destruct (Math_max_ge (map TabGroup.order r) (TabGroup.order g)) as [H1 H2].
    repeat split; [discriminate| |].
    + intros h [<-|Hh]; [assumption|]. apply H2. now apply in_map.
    + intros _. destruct (Math_max_In (map TabGroup.order r) (TabGroup.order g)) as [E|E].
      * exists g. auto.
      * apply in_map_iff in E. destruct E as (h & E & Hh). exists h. auto.
Qed.

(** *** The parent relation and the walk of the code *)

Lemma linksStop_walk (gs : list TabGroup.t) (c : option string) :
  linksStop gs c -> exists n, reachesRoot n gs c = true.
Proof.
  induction 1 as [|i H IH]; [now exists 1|].
  destruct (findGroup gs i) as [h|] eqn:F.
  - destruct (findGroup_In _ _ _ F) as [Hin Hid].
    destruct (IH h Hin Hid) as [n Hn]. exists (S n).
    rewrite reachesRoot_unfold. destruct (negb (truthy (Some i))); [reflexivity|].
    now rewrite F.
  - exists 1. rewrite reachesRoot_unfold. rewrite F.
    now destruct (negb (truthy (Some i))).
Qed.

Lemma acyclicLinks_walk (gs : list TabGroup.t) : acyclicLinks gs -> acyclic gs.
Proof. intros A g Hin. apply linksStop_walk. now apply A. Qed.

Lemma findGroup_NoDup (gs : list TabGroup.t) (h : TabGroup.t) :
  NoDup (map TabGroup.id gs) -> In h gs -> findGroup gs (TabGroup.id h) = Some h.
Proof.
  intros ND Hin. destruct (in_split _ _ Hin) as (l1 & l2 & ->).
  now apply findGroup_unique.
Qed.

Lemma walk_linksStop (gs : list TabGroup.t) :
  NoDup (map TabGroup.id gs) ->
  (forall g, In g gs -> TabGroup.id g <> "") ->
  forall n c, reachesRoot n gs c = true -> linksStop gs c.
Proof.
  intros ND NE. induction n as [|n IH]; intros c H; [discriminate|].
  rewrite reachesRoot_unfold in H. destruct c as [i|]; [|constructor].
  apply stop_step. intros h Hin Hid.
  destruct (truthy (Some i)) eqn:T; simpl in H.
  - subst i. rewrite (findGroup_NoDup gs h ND Hin) in H. now apply IH.
  - exfalso. apply (NE h Hin). rewrite Hid. simpl in T.
    apply negb_false_iff in T. now apply String.eqb_eq.
Qed.

Lemma walk_acyclicLinks (gs : list TabGroup.t) :
  NoDup (map TabGroup.id gs) ->
  (forall g, In g gs -> TabGroup.id g <> "") ->
  acyclic gs -> acyclicLinks gs.
Proof.
  intros ND NE A g Hin. destruct (A g Hin) as [n Hn].
  now apply (walk_linksStop gs ND NE n).
Qed.

Lemma movedGroups_ids (gs : list TabGroup.t) (groupId : string)
    (targetParentId : option string) :
  map TabGroup.id (movedGroups gs groupId targetParentId) = map TabGroup.id gs.
Proof.
  rewrite movedGroups_map, map_map. apply map_ext. intros g. apply moveOne_id.
Qed.

Lemma moveGroupToParent_mono (fuel fuel' : nat) (st s : State) (groupId : string)
    (targetParentId : option string) :
  fuel <= fuel' ->
  moveGroupToParent fuel st groupId targetParentId = Some s ->
  moveGroupToParent fuel' st groupId targetParentId = Some s.
Proof.
  intros Hle. unfold moveGroupToParent.
  destruct (findGroup (groups st) groupId) as [g|]; [|auto].
  destruct (opt_eqb targetParentId (Some groupId)); [auto|].
  destruct targetParentId as [t|]; [|auto].
  destruct (truthy (Some t)); [|auto].
  destruct (isDescendant fuel (groups st) t groupId) as [b|] eqn:D; [|discriminate].
  now rewrite (isDescendant_mono _ _ _ _ _ _ Hle D).
Qed.

Lemma moveGroupToParent_returns (st : State) (groupId : string)
    (targetParentId : option string) :
  acyclic (groups st) ->
  exists fuel0 st', moveGroupToParent fuel0 st groupId targetParentId = Some st'.
Proof.
  intros A. unfold moveGroupToParent.
  destruct (findGroup (groups st) groupId) as [g|]; [|exists 0; eauto].
  destruct (opt_eqb targetParentId (Some groupId)); [exists 0; eauto|].
  destruct targetParentId as [t|]; [|exists 0; eauto].
  destruct (truthy (Some t)) eqn:T; [|exists 0; eauto].
  destruct (acyclic_from_any (groups st) (Some t) A) as [n Hn].
  destruct (isDescendant_total n (groups st) t groupId T Hn) as [b Hb].
  exists n. rewrite Hb. destruct b; eauto.
Qed.

Lemma moveGroupToParent_self (fuel : nat) (st : State) (groupId : string) :
  moveGroupToParent fuel st groupId (Some groupId) = Some st.
Proof.
  unfold moveGroupToParent.
  destruct (findGroup (groups st) groupId) as [g|]; [|reflexivity].
  simpl. now rewrite String.eqb_refl.
Qed.

Lemma moveGroupToParent_descendant (fuel : nat) (st : State) (groupId t : string) :
  t <> "" -> isDescendant fuel (groups st) t groupId = Some true ->
  moveGroupToParent fuel st groupId (Some t) = Some st.
Proof.
  intros N D. unfold moveGroupToParent.
  destruct (findGroup (groups st) groupId) as [g|]; [|reflexivity].
  destruct (opt_eqb (Some t) (Some groupId)); [reflexivity|].
  apply String.eqb_neq in N. simpl. rewrite N. simpl. now rewrite D.
Qed.

(** When the code answers that [t] is a descendant of [a], it is one. *)
Lemma isDescendant_sound (n : nat) (gs : list TabGroup.t) (t a : string) :
  isDescendant n gs t a = Some true -> descendantOf gs a t.
Proof.
  revert t. induction n as [|n IH]; intros t H; [discriminate|].
  cbn [isDescendant] in H.
  destruct (findGroup gs t) as [cg|] eqn:F; [|discriminate].
  destruct (findGroup_In _ _ _ F) as [Hin <-].
  destruct (negb (truthy (TabGroup.parentId cg))); [discriminate|].
  destruct (TabGroup.parentId cg) as [p|] eqn:P; [|discriminate].
  destruct (String.eqb_spec p a) as [->|N].
  - now apply desc_child.
  - apply (desc_step gs a cg p Hin P). now apply IH.
Qed.

Lemma descendantOf_id (gs : list TabGroup.t) (a t : string) :
  descendantOf gs a t -> exists h, In h gs /\ TabGroup.id h = t.
Proof. intros [h Hin _|h p Hin _ _]; eauto. Qed.

(** With pairwise-distinct, non-empty ids the code finds every
    descendant, given enough fuel. *)
Lemma isDescendant_complete (gs : list TabGroup.t) (a t : string) :
  NoDup (map TabGroup.id gs) ->
  (forall g, In g gs -> TabGroup.id g <> "") ->
  a <> "" ->
  descendantOf gs a t -> exists n, isDescendant n gs t a = Some true.
Proof.
  intros ND NE Na D. induction D as [h Hin P|h p Hin P D [n IH]].
  - exists 1. cbn [isDescendant]. rewrite (findGroup_NoDup gs h ND Hin), P.
    apply String.eqb_neq in Na. simpl. rewrite Na. simpl.
    now rewrite String.eqb_refl.
  - exists (S n). cbn [isDescendant]. rewrite (findGroup_NoDup gs h ND Hin), P.
    destruct (descendantOf_id gs a p D) as (hp & Hp & Ep).
    assert (Np : p <> "") by (rewrite <- Ep; now apply NE).
    apply String.eqb_neq in Np. simpl. rewrite Np. simpl.
    destruct (p =? a); [reflexivity|exact IH].
Qed.

(** *** Claim C1 *)

Lemma stateTwinA_cycle :
  ~ acyclicLinks [groupA1; groupA2; TabGroup.mk "b" "B" 0 (Some "a")].
Proof.
  intros A.
  assert (H : forall c, linksStop [groupA1; groupA2; TabGroup.mk "b" "B" 0 (Some "a")] c ->
                        c <> Some "a" /\ c <> Some "b").
  { induction 1 as [|i H IH]; [split; discriminate|]. split; intros [= ->].
    - destruct (IH groupA2) as [_ N]; [right; now left|reflexivity|]. now apply N.
    - destruct (IH (TabGroup.mk "b" "B" 0 (Some "a"))) as [N _];
        [right; right; now left|reflexivity|]. now apply N. }
  destruct (H _ (A groupA2 (or_intror (or_introl eq_refl)))) as [_ N]. now apply N.
Qed.

Lemma stateEmptyRoot_cycle :
  ~ acyclicLinks [groupUnderEmpty; TabGroup.mk "" "E" 0 (Some "x")].
Proof.
  intros A.
  assert (H : forall c, linksStop [groupUnderEmpty; TabGroup.mk "" "E" 0 (Some "x")] c ->
                        c <> Some "" /\ c <> Some "x").
  { induction 1 as [|i H IH]; [split; discriminate|]. split; intros [= ->].
    - destruct (IH (TabGroup.mk "" "E" 0 (Some "x"))) as [_ N];
        [right; now left|reflexivity|]. now apply N.
    - destruct (IH groupUnderEmpty) as [N _]; [now left|reflexivity|]. now apply N. }
  destruct (H _ (A groupUnderEmpty (or_introl eq_refl))) as [N _]. now apply N.
Qed.

(** C1, counterexample: three inputs at which the claim as stated fails.
    - Two groups share the id "a", the first a root, the second under
      the root "b".  Every walk along [parentId] reaches a root.
      [moveGroupToParent("b", "a")] looks up "a", finds the first
      group, sees no descendant of "b" and moves "b" under "a": the
      second "a" and "b" now name each other as parent.
    - A group has the empty string as id and group "x" has it as
      [parentId].  [moveGroupToParent("", "x")] takes the falsy
      [parentId] of "x" for no parent and moves the group under "x":
      the two groups now name each other as parent.
    - A single root "a".  [moveGroupToParent("a", "zzz")] does not look
      for a group "zzz" and sets it as parent: following the link from
      "a" no longer reaches a root. *)
Lemma moveGroupToParent_breaks_acyclic :
  (allReachRoot (groups stateTwinA) /\
   moveGroupToParent 1 stateTwinA "b" (Some "a") =
     Some (mkState [] [groupA1; groupA2; TabGroup.mk "b" "B" 0 (Some "a")]) /\
   ~ acyclicLinks [groupA1; groupA2; TabGroup.mk "b" "B" 0 (Some "a")]) /\
  (allReachRoot (groups stateEmptyRoot) /\
   moveGroupToParent 1 stateEmptyRoot "" (Some "x") =
     Some (mkState [] [groupUnderEmpty; TabGroup.mk "" "E" 0 (Some "x")]) /\
   ~ acyclicLinks [groupUnderEmpty; TabGroup.mk "" "E" 0 (Some "x")]) /\
  (allReachRoot (groups stateSingle) /\
   moveGroupToParent 1 stateSingle "a" (Some "zzz") =
     Some (mkState [] [TabGroup.mk "a" "A" 0 (Some "zzz")]) /\
   ~ allReachRoot [TabGroup.mk "a" "A" 0 (Some "zzz")]).
Proof.
  split; [|split].
  - split; [|split; [reflexivity|exact stateTwinA_cycle]].
    intros g [<-|[<-|[<-|[]]]]; simpl; try constructor.
    + exists groupRootB. split; [right; right; now left|reflexivity].
    + intros h [<-|[<-|[<-|[]]]]; simpl; intros E; try discriminate E. constructor.
  - split; [|split; [reflexivity|exact stateEmptyRoot_cycle]].
    intros g [<-|[<-|[]]]; simpl; try constructor.
    + exists groupEmptyRoot. split; [right; now left|reflexivity].
    + intros h [<-|[<-|[]]]; simpl; intros E; try discriminate E. constructor.
  - split; [|split; [reflexivity|]].
    + intros g [<-|[]]. constructor.
    + intros A. specialize (A _ (or_introl eq_refl)). simpl in A.
      inversion A as [|i (h & [<-|[]] & E) _]. discriminate E.
Qed.

(** C1, amended.  On a state whose groups have pairwise-distinct,
    non-empty ids and an acyclic [parentId] relation (following the
    links from any group stops, at a root or at a [parentId] that no
    group carries), [moveGroupToParent(groupId, targetParentId)]
    returns, and the groups list it leaves is acyclic again, with the
    same ids; when [targetParentId] equals [groupId] or is a descendant
    of [groupId], the state of tabs and groups is unchanged. *)
Theorem moveGroupToParent_preserves_acyclic (st : State) (groupId : string)
    (targetParentId : option string) :
  NoDup (map TabGroup.id (groups st)) ->
  (forall g, In g (groups st) -> TabGroup.id g <> "") ->
  acyclicLinks (groups st) ->
  exists fuel0 st',
    (forall fuel, fuel0 <= fuel ->
       moveGroupToParent fuel st groupId targetParentId = Some st') /\
    acyclicLinks (groups st') /\
    map TabGroup.id (groups st') = map TabGroup.id (groups st) /\
    (targetParentId = Some groupId \/
     (exists t, targetParentId = Some t /\ descendantOf (groups st) groupId t) ->
     st' = st).
Proof.
  intros ND NE A. pose proof (acyclicLinks_walk _ A) as W.
  destruct (moveGroupToParent_returns st groupId targetParentId W) as (fuel0 & st' & E).
  assert (Hids : map TabGroup.id (groups st') = map TabGroup.id (groups st)).
  { destruct (moveGroupToParent_cases _ _ _ _ _ E) as [->|[_ ->]]; [reflexivity|].
    apply movedGroups_ids. }
  exists fuel0, st'. split; [|split; [|split]].
  - intros fuel Hle. now apply (moveGroupToParent_mono fuel0 fuel).
  - apply walk_acyclicLinks.
    + now rewrite Hids.
    + intros g Hin. apply (in_map TabGroup.id) in Hin. rewrite Hids in Hin.
      apply in_map_iff in Hin. destruct Hin as (g0 & <- & Hin). now apply NE.
    + destruct (moveGroupToParent_cases _ _ _ _ _ E) as [->|[P ->]]; [assumption|].
      simpl. eapply acyclic_movedGroups; eassumption.
  - exact Hids.
  - intros [->|(t & -> & D)].
    + rewrite moveGroupToParent_self in E. now injection E as <-.
    + destruct (findGroup (groups st) groupId) as [g0|] eqn:F.
      * destruct (findGroup_In _ _ _ F) as [Hin Hid].
        assert (Ng : groupId <> "") by (rewrite <- Hid; now apply NE).
        destruct (isDescendant_complete _ _ _ ND NE Ng D) as [n Hn].
        destruct (descendantOf_id _ _ _ D) as (ht & Ht & Et).
        assert (Nt : t <> "") by (rewrite <- Et; now apply NE).
        pose proof (moveGroupToParent_mono fuel0 (Nat.max fuel0 n) _ _ _ _
                      (Nat.le_max_l _ _) E) as E1.
        pose proof (isDescendant_mono n (Nat.max fuel0 n) _ _ _ _
                      (Nat.le_max_r _ _) Hn) as D1.
        rewrite (moveGroupToParent_descendant _ st groupId t Nt D1) in E1.
        now injection E1 as <-.
      * unfold moveGroupToParent in E. rewrite F in E. now injection E as <-.
Qed.

Lemma moveGroupToParent_preserves_acyclic_witness :
  NoDup (map TabGroup.id (groups stateABC)) /\
  (forall g, In g (groups stateABC) -> TabGroup.id g <> "") /\
  acyclicLinks (groups stateABC) /\
  exists fuel0 st',
    (forall fuel, fuel0 <= fuel ->
       moveGroupToParent fuel stateABC "c" (Some "a") = Some st') /\
    acyclicLinks (groups st').
Proof.
  assert (ND : NoDup (map TabGroup.id (groups stateABC))).
  { repeat constructor; simpl; intuition discriminate. }
  assert (NE : forall g, In g (groups stateABC) -> TabGroup.id g <> "").
  { intros g [<-|[<-|[<-|[]]]]; discriminate. }
  assert (A : acyclicLinks (groups stateABC)).
  { apply (walk_acyclicLinks _ ND NE). apply acyclicb_sound. reflexivity. }
  split; [exact ND|]. split; [exact NE|]. split; [exact A|].
  destruct (moveGroupToParent_preserves_acyclic stateABC "c" (Some "a") ND NE A)
    as (fuel0 & st' & H1 & H2 & _).
  exists fuel0, st'. split; [exact H1|exact H2].
Defined.

(** *** Claim C6 *)

Lemma plusOne_exact (x : Z) :
  (- 2 ^ 53 <= x < 2 ^ 53)%Z -> plusOne x = (x + 1)%Z.
Proof.
  intros [H1 H2]. unfold plusOne.
  apply Z.leb_le in H1. apply Z.ltb_lt in H2. now rewrite H1, H2.
Qed.


(** Under the conditions of the claim a call that returns has gone
    through the guard. *)
Lemma movePerformed_intro (fuel : nat) (st st' : State) (g : TabGroup.t)
    (targetParentId : option string) :
  In g (groups st) ->
  targetParentId <> Some (TabGroup.id g) ->
  (forall t, targetParentId = Some t -> ~ descendantOf (groups st) (TabGroup.id g) t) ->
  moveGroupToParent fuel st (TabGroup.id g) targetParentId = Some st' ->
  movePerformed fuel (groups st) (TabGroup.id g) targetParentId.
Proof.
  intros Hin N D E. unfold movePerformed.
  split; [|split; [assumption|]].
  - unfold findGroup. intros F. apply (find_none _ _ F) in Hin. simpl in Hin.
    now rewrite String.eqb_refl in Hin.
  - unfold moveGroupToParent in E.
    destruct (findGroup (groups st) (TabGroup.id g)) as [g0|] eqn:F.
    + apply opt_eqb_neq in N. rewrite N in E.
      destruct targetParentId as [t|]; [|now left].
      destruct (truthy (Some t)) eqn:T; [|now left].
      destruct (isDescendant fuel (groups st) t (TabGroup.id g)) as [[|]|] eqn:Ed;
        [|right; now exists t|discriminate].
      exfalso. apply (D t eq_refl). now apply (isDescendant_sound fuel).
    + exfalso. unfold findGroup in F.
      apply (find_none _ _ F) in Hin. simpl in Hin. now rewrite String.eqb_refl in Hin.
Qed.

(** C6, counterexample: two inputs at which the claim as stated fails.
    - Moving group "b" to the target "" (a string, not [null]) leaves
      it with no [parentId], not with [parentId] "":
      [targetParentId || undefined] turns the empty string into
      [undefined].
    - Moving group "g" to the root level, where group "h" has the order
      2^53, gives it the order 2^53, not one more: a number is a double,
      and 2^53 + 1 is rounded to 2^53. *)
Lemma moveGroupToParent_parent_and_order :
  (In groupB (groups stateAB) /\
   moveGroupToParent 0 stateAB (TabGroup.id groupB) (Some "") =
     Some (mkState [] [groupA; TabGroup.mk "b" "B" 6 None]) /\
   TabGroup.parentId (TabGroup.mk "b" "B" 6 None) <> Some "") /\
  (In groupSmall (groups stateBig) /\
   moveGroupToParent 0 stateBig (TabGroup.id groupSmall) None =
     Some (mkState [] [TabGroup.mk "g" "G" (2 ^ 53) None; groupBig]) /\
   TabGroup.order groupBig = (2 ^ 53)%Z /\
   TabGroup.order (TabGroup.mk "g" "G" (2 ^ 53) None) <> (2 ^ 53 + 1)%Z).
Proof.
  split.
  - split; [right; now left|]. split; [reflexivity|discriminate].
  - split; [now left|]. split; [reflexivity|]. split; [reflexivity|discriminate].
Qed.

(** C6, amended.  For a group [g] of the state and a target that is not
    [g.id] and not a descendant of [g.id], a call
    [moveGroupToParent(g.id, targetParentId)] that returns has performed
    the move: no tab changes, every group whose id differs from [g.id]
    keeps all its fields and its position, and every group with id
    [g.id] keeps id and name, gets [targetParentId] as [parentId] (none
    when the target is [null] or the empty string) and gets as order
    [m + 1] in the arithmetic of numbers, [m] being the greatest order
    among the groups of another id at the target level (-1 when there
    is none, which gives the order 0): one more than [m] when [m] lies
    from -2^53 up to 2^53 - 1.  The call returns when the [parentId]
    relation is acyclic. *)
Theorem moveGroupToParent_frame (st : State) (g : TabGroup.t)
    (targetParentId : option string) :
  In g (groups st) ->
  targetParentId <> Some (TabGroup.id g) ->
  (forall t, targetParentId = Some t -> ~ descendantOf (groups st) (TabGroup.id g) t) ->
  (forall fuel st',
     moveGroupToParent fuel st (TabGroup.id g) targetParentId = Some st' ->
     exists m,
       tabs st' = tabs st /\
       isMaxOrder (filter (fun h => sameLevel targetParentId h
                                    && negb (TabGroup.id h =? TabGroup.id g))
                          (groups st)) m /\
       Forall2 (fun h h' =>
                  if TabGroup.id h =? TabGroup.id g
                  then h' = TabGroup.mk (TabGroup.id h) (TabGroup.name h) (plusOne m)
                              (orUndefined targetParentId)
                  else h' = h)
               (groups st) (groups st') /\
       ((- 2 ^ 53 <= m < 2 ^ 53)%Z -> plusOne m = (m + 1)%Z)) /\
  (acyclicLinks (groups st) ->
   exists fuel0, forall fuel, fuel0 <= fuel ->
     exists st', moveGroupToParent fuel st (TabGroup.id g) targetParentId = Some st').
Proof.
  intros Hin N D. split.
  - intros fuel st' E.
    pose proof (movePerformed_intro fuel st st' g targetParentId Hin N D E) as P.
    rewrite (moveGroupToParent_performed _ _ _ _ P) in E. injection E as <-.
    eexists. split; [reflexivity|]. split; [apply maxOrder_spec|]. split.
    + simpl. rewrite movedGroups_map. apply Forall2_map_r. intros h.
      unfold moveOne. now destruct (TabGroup.id h =? TabGroup.id g).
    + apply plusOne_exact.
  - intros A.
    destruct (moveGroupToParent_returns st (TabGroup.id g) targetParentId
                (acyclicLinks_walk _ A)) as (fuel0 & st' & E).
    exists fuel0. intros fuel Hle. exists st'.
    now apply (moveGroupToParent_mono fuel0 fuel).
Qed.

Lemma stateABC_a_not_under_c :
  forall t, Some "a" = Some t -> ~ descendantOf (groups stateABC) "c" t.
Proof.
  intros t [= <-] D.
  assert (H : forall h, In h (groups stateABC) -> TabGroup.id h = "a" ->
                        TabGroup.parentId h = None).
  { intros h [<-|[<-|[<-|[]]]]; simpl; intros E; try discriminate E. reflexivity. }
  inversion D as [h Hin P E|h p Hin P _ E];
    first [rewrite (H h Hin E) in P|rewrite (H h Hin eq_refl) in P]; discriminate P.
Qed.

Lemma moveGroupToParent_frame_witness :
  In groupC (groups stateABC) /\
  exists m,
    tabs (mkState [] [groupA; groupB; TabGroup.mk "c" "C" 2 (Some "a")]) = tabs stateABC /\
    isMaxOrder (filter (fun h => sameLevel (Some "a") h
                                 && negb (TabGroup.id h =? "c"))
                       (groups stateABC)) m /\
    Forall2 (fun h h' =>
               if TabGroup.id h =? "c"
               then h' = TabGroup.mk (TabGroup.id h) (TabGroup.name h) (plusOne m)
                           (orUndefined (Some "a"))
               else h' = h)
            (groups stateABC) [groupA; groupB; TabGroup.mk "c" "C" 2 (Some "a")].
Proof.
  assert (Hin : In groupC (groups stateABC)) by (simpl; auto).
  assert (N : Some "a" <> Some (TabGroup.id groupC)) by discriminate.
  split; [exact Hin|].
  destruct (proj1 (moveGroupToParent_frame stateABC groupC (Some "a") Hin N
                     stateABC_a_not_under_c)
              3 (mkState [] [groupA; groupB; TabGroup.mk "c" "C" 2 (Some "a")]) eq_refl)
    as (m & H1 & H2 & H3 & _).
  exists m. auto.
Defined.

(** *** reorderGroups (claim C5) and reorderTabs (claim C8) *)

Lemma withOrder_sameLevel (parentId : option string) (g : TabGroup.t) (o : Z) :
  sameLevel parentId (withOrder g o) = sameLevel parentId g.
Proof. reflexivity. Qed.

Lemma reorderGroups_spec (st : State) (fromIndex toIndex : nat)
    (parentId : option string) :
  let siblings := filter (sameLevel parentId) (groups st) in
  fromIndex < List.length siblings -> toIndex < List.length siblings ->
  exists st',
    reorderGroups st fromIndex toIndex parentId = Some st' /\
    tabs st' = tabs st /\
    filter (fun g => negb (sameLevel parentId g)) (groups st') =
      filter (fun g => negb (sameLevel parentId g)) (groups st) /\
    let siblings' := filter (sameLevel parentId) (groups st') in
    (forall i h', nth_error siblings' i = Some h' -> TabGroup.order h' = Z.of_nat i) /\
    List.length siblings' = List.length siblings /\
    (exists h h', nth_error siblings fromIndex = Some h /\
                  nth_error siblings' toIndex = Some h' /\
                  h' = withOrder h (TabGroup.order h')) /\
    Forall2 (fun h h' => h' = withOrder h (TabGroup.order h'))
            (removeAt fromIndex siblings) (removeAt toIndex siblings').
Proof.
  intros siblings Hf Ht.
  destruct (spliceMove_spec siblings fromIndex toIndex Hf Ht) as (r & E & Hn & Hr & P).
  unfold reorderGroups. fold siblings. rewrite E.
  set (f := fun (g : TabGroup.t) (idx : nat) => withOrder g (Z.of_nat idx)).
  assert (Hsame : forall x, In x r -> sameLevel parentId x = true).
  { intros x Hx. apply (Permutation_in _ (Permutation_sym P)) in Hx.
    unfold siblings in Hx. now apply filter_In in Hx. }
  assert (S' : filter (sameLevel parentId)
                 (filter (fun g => negb (sameLevel parentId g)) (groups st) ++ mapi f r)
               = mapi f r).
  { unfold mapi. rewrite filter_app, filter_none, filter_mapi_from_all; [reflexivity| |].
    - intros x i Hx. unfold f. rewrite withOrder_sameLevel. now apply Hsame.
    - intros x Hx. apply filter_In in Hx. now apply negb_true_iff. }
  eexists. split; [reflexivity|]. simpl. split; [reflexivity|]. split.
  - rewrite filter_app.
    rewrite (filter_none _ (mapi f r)).
    + rewrite app_nil_r. apply filter_all.
      intros x Hx. now apply filter_In in Hx.
    + intros y Hy. apply In_mapi_from in Hy. destruct Hy as (x & i & Hx & ->).
      unfold f. rewrite withOrder_sameLevel. apply negb_false_iff. now apply Hsame.
  - rewrite S'. unfold mapi. repeat split.
    + intros i h' Hi. rewrite nth_error_mapi_from in Hi.
      destruct (nth_error r i); [|discriminate]. injection Hi as <-. reflexivity.
    + rewrite length_mapi_from. apply Permutation_length. now symmetry.
    + destruct (nth_error siblings fromIndex) as [h|] eqn:Eh;
        [|apply nth_error_None in Eh; lia].
      exists h, (f h toIndex). split; [reflexivity|].
      rewrite nth_error_mapi_from, Hn. split; reflexivity.
    + rewrite <- Hr. apply Forall2_removeAt, Forall2_mapi_from.
      intros x i. reflexivity.
Qed.

Lemma notInGroup_negb (groupId : option string) (t : DashboardTab.t) :
  notInGroup groupId t = negb (inGroup groupId t).
Proof.
  unfold notInGroup, inGroup. destruct (truthy groupId); [reflexivity|].
  now rewrite negb_involutive.
Qed.

(** C8.  For indices valid in the list of the tabs of the targeted group
    (the tabs without group when [groupId] is omitted), [reorderTabs]
    returns a state with the same groups whose tabs list is a permutation
    of the original one, the tabs outside the group first and the tabs of
    the group after them, the tab that was at [fromIndex] among the tabs
    of the group now at [toIndex] among them.  Tabs other than the moved
    one can change their global position: in [stateTabs], reordering
    inside group "g" moves the ungrouped tab "u" from position 1 to
    position 0. *)
Theorem reorderTabs_permutation (st : State) (fromIndex toIndex : nat)
    (groupId : option string) :
  let groupTabs := filter (inGroup groupId) (tabs st) in
  fromIndex < List.length groupTabs -> toIndex < List.length groupTabs ->
  (exists st',
     reorderTabs st fromIndex toIndex groupId = Some st' /\
     groups st' = groups st /\
     Permutation (tabs st) (tabs st') /\
     exists outside inside,
       tabs st' = outside ++ inside /\
       Forall (fun t => inGroup groupId t = false) outside /\
       Forall (fun t => inGroup groupId t = true) inside /\
       nth_error inside toIndex = nth_error groupTabs fromIndex /\
       removeAt toIndex inside = removeAt fromIndex groupTabs) /\
  (exists st1,
     reorderTabs stateTabs 0 1 (Some "g") = Some st1 /\
     nth_error (filter (inGroup (Some "g")) (tabs stateTabs)) 0 = Some tabG1 /\
     tabU <> tabG1 /\
     nth_error (tabs stateTabs) 1 = Some tabU /\
     nth_error (tabs st1) 0 = Some tabU).
Proof.
  intros groupTabs Hf Ht. split.
  - destruct (spliceMove_spec groupTabs fromIndex toIndex Hf Ht) as (r & E & Hn & Hr & P).
    unfold reorderTabs. fold groupTabs. rewrite E.
    eexists. split; [reflexivity|]. simpl. split; [reflexivity|]. split.
    + rewrite (Permutation_partition (inGroup groupId) (notInGroup groupId) (tabs st)
                 (notInGroup_negb groupId)) at 1.
      apply Permutation_app_head. exact P.
    + exists (filter (notInGroup groupId) (tabs st)), r.
      split; [reflexivity|]. repeat split; try assumption.
      * apply Forall_forall. intros t Hin. apply filter_In in Hin.
        destruct Hin as [_ Hin]. rewrite notInGroup_negb in Hin.
        now apply negb_true_iff.
      * apply Forall_forall. intros t Hin.
        apply (Permutation_in _ (Permutation_sym P)) in Hin.
        unfold groupTabs in Hin. now apply filter_In in Hin.
  - eexists. split; [reflexivity|]. repeat split. discriminate.
Qed.

Lemma reorderTabs_permutation_witness :
  exists st',
    reorderTabs stateTabs 1 0 (Some "g") = Some st' /\
    groups st' = groups stateTabs /\
    Permutation (tabs stateTabs) (tabs st').
Proof.
  destruct (reorderTabs_permutation stateTabs 1 0 (Some "g")) as [H _].
  - simpl. lia.
  - simpl. lia.
  - destruct H as (st' & H1 & H2 & H3 & _). exists st'. auto.
Defined.

End DashboardTabsFacts.

(** ** Keys of tab inputs *)

Module TabInputsFacts.
Import TabInputs.



Lemma allChars_append (p : ascii -> bool) (s1 s2 : string) :
  allChars p (s1 ++ s2)%string = allChars p s1 && allChars p s2.
Proof.
  induction s1 as [|c r IH]; simpl; [reflexivity|].
  now rewrite IH, andb_assoc.
Qed.

Lemma allChars_removeNonKeyChars (s : string) :
  allChars isKeyChar (removeNonKeyChars s) = true.
Proof.
  induction s as [|c r IH]; simpl; [reflexivity|].
  destruct (isKeyChar c) eqn:E; simpl; [now rewrite E|assumption].
Qed.

Lemma allChars_slice0 (p : ascii -> bool) (n : nat) (s : string) :
  allChars p s = true -> allChars p (slice0 n s) = true.
Proof.
  revert s. induction n as [|n IH]; intros [|c r] H; simpl; try reflexivity.
  simpl in H. apply andb_true_iff in H. destruct H as [-> H]. now apply IH.
Qed.

Lemma length_slice0 (n : nat) (s : string) : String.length (slice0 n s) <= n.
Proof.
  revert s. induction n as [|n IH]; intros [|c r]; simpl; try lia.
  specialize (IH r). lia.
Qed.

Lemma sanitizeKey_chars (key : string) : allChars isKeyChar (sanitizeKey key) = true.
Proof. unfold sanitizeKey. apply allChars_slice0, allChars_removeNonKeyChars. Qed.

Lemma sanitizeKey_length (key : string) : String.length (sanitizeKey key) <= 50.
Proof. unfold sanitizeKey. apply length_slice0. Qed.




Lemma decimal_inj (i j : nat) : decimal i = decimal j -> i = j.
Proof.
  unfold decimal. intros H.
  assert (E : Nat.to_uint i = Nat.to_uint j).
  { apply (f_equal NilEmpty.uint_of_string) in H.
    rewrite !NilEmpty.usu in H. now injection H. }
  apply (f_equal Nat.of_uint) in E. now rewrite !DecimalNat.Unsigned.of_to in E.
Qed.

Lemma append_inj_l (s a b : string) : (s ++ a)%string = (s ++ b)%string -> a = b.
Proof. induction s as [|c r IH]; simpl; intros H; [assumption|]. injection H as H. auto. Qed.

Lemma suffixed_inj (c : string) (i j : nat) : suffixed c i = suffixed c j -> i = j.
Proof.
  unfold suffixed. intros H. apply append_inj_l in H.
  simpl in H. injection H as H. now apply decimal_inj.
Qed.

Lemma length_append (s1 s2 : string) :
  String.length (s1 ++ s2)%string = String.length s1 + String.length s2.
Proof. induction s1 as [|c r IH]; simpl; [reflexivity|]. now rewrite IH. Qed.

Lemma suffixed_neq (c : string) (j : nat) : c <> suffixed c j.
Proof.
  unfold suffixed. intros H. apply (f_equal String.length) in H.
  rewrite length_append in H. simpl in H. lia.
Qed.


Lemma existsb_eqb_In (u : string) (keys : list string) :
  existsb (String.eqb u) keys = true <-> In u keys.
Proof.
  rewrite existsb_exists. split.
  - intros (x & Hx & E). apply String.eqb_eq in E. now subst.
  - intros H. exists u. split; [assumption|apply String.eqb_refl].
Qed.

(** The loop ends before its fuel when the fuel exceeds the number of
    existing keys the coming candidates can still meet ([rem]); the key
    it returns is no existing key, and is the current candidate or a
    later one. *)
Lemma uniqueKeyLoop_total (fuel : nat) (keys : list string) (c : string) :
  forall (s : nat) (u : string) (rem : list string),
    (forall j, s <= j -> u <> suffixed c j) ->
    (In u keys -> In u rem) ->
    (forall j, s <= j -> In (suffixed c j) keys -> In (suffixed c j) rem) ->
    List.length rem < fuel ->
    exists k, uniqueKeyLoop fuel keys c s u = Some k /\
              ~ In k keys /\
              (k = u \/ exists j, s <= j /\ k = suffixed c j).
Proof.
  induction fuel as [|fuel IH]; intros s u rem Hu Hin Hrem Hlen; [lia|].
  simpl. destruct (existsb (String.eqb u) keys) eqn:E.
  - apply existsb_eqb_In in E. pose proof (Hin E) as Hr.
    destruct (IH (S s) (suffixed c s) (remove string_dec u rem)) as (k & Hk & Hnk & Hor).
    + intros j Hj H. apply suffixed_inj in H. lia.
    + intros H. apply in_in_remove; [|now apply Hrem].
      intros H'. apply (Hu s); [lia|now symmetry].
    + intros j Hj H. apply in_in_remove; [|apply Hrem; [lia|assumption]].
      intros H'. apply (Hu j); [lia|now symmetry].
    + pose proof (remove_length_lt string_dec rem u Hr). lia.
    + exists k. split; [exact Hk|]. split; [exact Hnk|]. right.
      destruct Hor as [->|(j & Hj & ->)]; [exists s|exists j]; split; auto; lia.
  - exists u. split; [reflexivity|]. split; [|now left].
    intros H. apply existsb_eqb_In in H. congruence.
Qed.

(** [ensureUniqueKey] always returns: a key that no input outside
    [excludeId] carries, made of the candidate alone or of the candidate
    with a numeric suffix. *)
Lemma ensureUniqueKey_spec (inputs : list TabInput.t) (desiredKey : string)
    (excludeId : option string) :
  exists k,
    ensureUniqueKey inputs desiredKey excludeId = Some k /\
    ~ In k (existingKeys inputs excludeId) /\
    (k = candidateOf desiredKey \/
     exists j, 1 <= j /\ k = suffixed (candidateOf desiredKey) j).
Proof.
  unfold ensureUniqueKey. fold (candidateOf desiredKey).
  apply (uniqueKeyLoop_total _ _ _ 1 _ (existingKeys inputs excludeId)); auto.
  intros j _. apply suffixed_neq.
Qed.


Lemma ensureUniqueKey_free (inputs : list TabInput.t) (desiredKey : string)
    (excludeId : option string) :
  ~ In (candidateOf desiredKey) (existingKeys inputs excludeId) ->
  ensureUniqueKey inputs desiredKey excludeId = Some (candidateOf desiredKey).
Proof.
  intros H. unfold ensureUniqueKey. fold (candidateOf desiredKey). simpl.
  destruct (existsb (String.eqb (candidateOf desiredKey)) (existingKeys inputs excludeId)) eqn:E;
    [|reflexivity].
  apply existsb_eqb_In in E. contradiction.
Qed.

Lemma existingKeys_In (inputs : list TabInput.t) (excludeId : option string)
    (x : TabInput.t) :
  In x inputs -> Some (TabInput.id x) <> excludeId ->
  In (TabInput.key x) (existingKeys inputs excludeId).
Proof.
  intros Hin N. unfold existingKeys. apply in_map, filter_In. split; [assumption|].
  unfold notExcluded. apply negb_true_iff. now apply opt_eqb_neq.
Qed.

Lemma existingKeys_all (inputs : list TabInput.t) :
  existingKeys inputs None = map TabInput.key inputs.
Proof. unfold existingKeys. now rewrite filter_all. Qed.

Lemma mapOpt_app {A B : Type} (f : A -> option B) (l1 l2 : list A) :
  mapOpt f (l1 ++ l2) =
  match mapOpt f l1, mapOpt f l2 with
  | Some a, Some b => Some (a ++ b)
  | _, _ => None
  end.
Proof.
  induction l1 as [|x r IH]; simpl.
  - now destruct (mapOpt f l2).
  - rewrite IH. destruct (f x), (mapOpt f r), (mapOpt f l2); reflexivity.
Qed.

Lemma mapOpt_id {A : Type} (f : A -> option A) (l : list A) :
  (forall x, In x l -> f x = Some x) -> mapOpt f l = Some l.
Proof.
  induction l as [|x r IH]; intros H; [reflexivity|].
  simpl. rewrite (H x (or_introl eq_refl)), IH; [reflexivity|].
  intros y Hy. apply H. now right.
Qed.

Lemma mapOpt_Forall2 {A B : Type} (R : A -> B -> Prop) (f : A -> option B)
    (l : list A) (l' : list B) :
  (forall x y, f x = Some y -> R x y) -> mapOpt f l = Some l' -> Forall2 R l l'.
Proof.
  intros H. revert l'. induction l as [|x r IH]; intros l' E; simpl in E.
  - injection E as <-. constructor.
  - destruct (f x) as [y|] eqn:Ex; [|discriminate].
    destruct (mapOpt f r) as [r'|]; [|discriminate].
    injection E as <-. constructor; auto.
Qed.

Lemma mapOpt_total {A B : Type} (f : A -> option B) (l : list A) :
  (forall x, exists y, f x = Some y) -> exists l', mapOpt f l = Some l'.
Proof.
  intros H. induction l as [|x r [r' IH]]; simpl; [eauto|].
  destruct (H x) as [y ->]. rewrite IH. eauto.
Qed.

Lemma updateOne_other (now : string) (inputs : list TabInput.t) (id : string)
    (updates : Payload) (x : TabInput.t) :
  TabInput.id x <> id -> updateOne now inputs id updates x = Some x.
Proof. unfold updateOne. intros N. apply String.eqb_neq in N. now rewrite N. Qed.

(** The key [updateOne] gives to an input with the updated id: its own
    key, or the result of [ensureUniqueKey] with that id excluded. *)
Lemma updateOne_key (now : string) (inputs : list TabInput.t) (id : string)
    (updates : Payload) (x : TabInput.t) :
  exists x',
    updateOne now inputs id updates x = Some x' /\
    (TabInput.key x' = TabInput.key x \/
     exists k, p_key updates = Some k /\
               ensureUniqueKey inputs k (Some id) = Some (TabInput.key x')).
Proof.
  unfold updateOne. destruct (negb (TabInput.id x =? id)); [eauto|].
  destruct (p_key updates) as [k|]; [|eauto].
  destruct (truthy (Some k) && negb (k =? TabInput.key x)); [|eauto].
  destruct (ensureUniqueKey_spec inputs k (Some id)) as (k' & E & _).
  rewrite E. eexists. split; [reflexivity|]. right. exists k. auto.
Qed.

Lemma NoDup_insert {A : Type} (a : A) (l1 l2 : list A) :
  NoDup (l1 ++ l2) -> ~ In a (l1 ++ l2) -> NoDup (l1 ++ a :: l2).
Proof.
  intros ND N. apply (Permutation_NoDup (Permutation_middle l1 l2 a)).
  now constructor.
Qed.

Lemma NoDup_map_split {A B : Type} (f : A -> B) (l1 l2 : list A) (a x : A) :
  NoDup (map f (l1 ++ a :: l2)) -> In x (l1 ++ l2) -> f x <> f a.
Proof.
  rewrite map_app. simpl. intros ND Hin E.
  apply NoDup_remove_2 in ND. apply ND. rewrite <- map_app, <- E.
  now apply in_map.
Qed.

Lemma addInput_keys (tabId : option string) (DEFAULT_LABEL now newId : string)
    (inputs : list TabInput.t) (payload : option Payload) :
  exists r inputs',
    addInput tabId DEFAULT_LABEL now newId inputs payload = Some (r, inputs') /\
    (inputs' = inputs \/
     exists x desired, inputs' = inputs ++ [x] /\
       ensureUniqueKey inputs desired None = Some (TabInput.key x)).
Proof.
  unfold addInput. destruct tabId as [tid|]; [|eauto].
  destruct (negb (truthy (Some tid))); [eauto|].
  match goal with
  | |- context [ensureUniqueKey inputs ?d None] =>
      destruct (ensureUniqueKey_spec inputs d None) as (k & E & _); rewrite E
  end.
  eexists. eexists. split; [reflexivity|]. right.
  eexists. eexists. split; [reflexivity|]. exact E.
Qed.

Lemma addInput_NoDup (tabId : option string) (DEFAULT_LABEL now newId : string)
    (inputs : list TabInput.t) (payload : option Payload) :
  NoDup (map TabInput.key inputs) ->
  exists r inputs',
    addInput tabId DEFAULT_LABEL now newId inputs payload = Some (r, inputs') /\
    NoDup (map TabInput.key inputs').
Proof.
  intros ND.
  destruct (addInput_keys tabId DEFAULT_LABEL now newId inputs payload)
    as (r & inputs' & E & H).
  exists r, inputs'. split; [exact E|].
  destruct H as [->|(x & d & -> & K)]; [assumption|].
  destruct (ensureUniqueKey_spec inputs d None) as (k & E' & Hk & _).
  rewrite K in E'. injection E' as <-. rewrite existingKeys_all in Hk.
  rewrite map_app. simpl. apply NoDup_insert; now rewrite app_nil_r.
Qed.

Lemma updateInput_NoDup (now : string) (inputs : list TabInput.t) (id : string)
    (updates : Payload) :
  NoDup (map TabInput.key inputs) ->
  NoDup (map TabInput.id inputs) ->
  exists inputs',
    updateInput now inputs id updates = Some inputs' /\
    NoDup (map TabInput.key inputs').
Proof.
  intros NDk NDi. unfold updateInput.
  destruct (find (fun x => TabInput.id x =? id) inputs) as [x|] eqn:F.
  - apply find_some in F. destruct F as [Hin Hid]. apply String.eqb_eq in Hid.
    destruct (in_split _ _ Hin) as (l1 & l2 & E).
    assert (Hother : forall y, In y (l1 ++ l2) -> TabInput.id y <> id).
    { intros y Hy. rewrite <- Hid. rewrite E in NDi.
      now apply (NoDup_map_split TabInput.id l1 l2 x y). }
    destruct (updateOne_key now inputs id updates x) as (x' & Ex & Hk).
    exists (l1 ++ x' :: l2). split.
    + rewrite E at 2. rewrite mapOpt_app. simpl. rewrite Ex.
      rewrite !mapOpt_id; [reflexivity| |];
        intros y Hy; apply updateOne_other, Hother, in_or_app; auto.
    + rewrite map_app. simpl. destruct Hk as [->|(k & _ & K)].
      * rewrite E, map_app in NDk. exact NDk.
      * apply NoDup_insert.
        -- rewrite E, map_app in NDk. simpl in NDk. now apply NoDup_remove_1 in NDk.
        -- destruct (ensureUniqueKey_spec inputs k (Some id)) as (k' & E' & Hk' & _).
           rewrite K in E'. injection E' as <-.
           rewrite <- map_app. intros H. apply in_map_iff in H.
           destruct H as (y & Ey & Hy). apply Hk'. rewrite <- Ey.
           apply existingKeys_In.
           ++ rewrite E. apply in_app_or in Hy. apply in_or_app.
              destruct Hy; [now left|right; now right].
           ++ intros [= H]. now apply (Hother y).
  - exists inputs. split; [|assumption]. apply mapOpt_id.
    intros y Hy. apply updateOne_other. apply (find_none _ _ F) in Hy.
    now apply String.eqb_neq.
Qed.

(** *** Claim C3 *)

(** C3, counterexample.  Two inputs with distinct keys "a" and "b" carry
    the same id "i"; [updateInput("i", { key: "c" })] excludes both from
    the existing keys and gives the key "c" to both. *)
Lemma updateInput_duplicates_key :
  NoDup (map TabInput.key [inputA; inputB]) /\
  exists inputs',
    updateInput "now" [inputA; inputB] "i" (keyUpdate "c") = Some inputs' /\
    map TabInput.key inputs' = ["c"; "c"] /\
    ~ NoDup (map TabInput.key inputs').
Proof.
  split.
  - repeat constructor; simpl; intuition discriminate.
  - eexists. split; [reflexivity|]. split; [reflexivity|].
    simpl. intros H. inversion H as [|? ? N _]. apply N. now left.
Qed.

(** C3, amended.  [ensureUniqueKey(desiredKey, excludeId)] always returns
    a key different from the key of every input whose id differs from
    [excludeId].  Hence, from inputs with pairwise-distinct keys,
    [addInput] leaves inputs with pairwise-distinct keys, and so does
    [updateInput], with any key change, when the ids of the inputs are
    pairwise distinct too. *)
Theorem keys_stay_distinct (inputs : list TabInput.t) :
  (forall desiredKey excludeId,
     exists k, ensureUniqueKey inputs desiredKey excludeId = Some k /\
               forall x, In x inputs -> Some (TabInput.id x) <> excludeId ->
                         TabInput.key x <> k) /\
  (NoDup (map TabInput.key inputs) ->
   forall tabId DEFAULT_LABEL now newId payload,
     exists r inputs',
       addInput tabId DEFAULT_LABEL now newId inputs payload = Some (r, inputs') /\
       NoDup (map TabInput.key inputs')) /\
  (NoDup (map TabInput.key inputs) -> NoDup (map TabInput.id inputs) ->
   forall now id updates,
     exists inputs',
       updateInput now inputs id updates = Some inputs' /\
       NoDup (map TabInput.key inputs')).
Proof.
  split; [|split].
  - intros desiredKey excludeId.
    destruct (ensureUniqueKey_spec inputs desiredKey excludeId) as (k & E & Hk & _).
    exists k. split; [exact E|]. intros x Hin N <-. apply Hk.
    now apply existingKeys_In.
  - intros ND tabId DEFAULT_LABEL now newId payload. now apply addInput_NoDup.
  - intros NDk NDi now id updates. now apply updateInput_NoDup.
Qed.

Lemma keys_stay_distinct_witness :
  NoDup (map TabInput.key [inputA; inputC]) /\
  NoDup (map TabInput.id [inputA; inputC]) /\
  exists inputs',
    updateInput "now" [inputA; inputC] "j" (keyUpdate "a") = Some inputs' /\
    NoDup (map TabInput.key inputs').
Proof.
  assert (NDk : NoDup (map TabInput.key [inputA; inputC])).
  { repeat constructor; simpl; intuition discriminate. }
  assert (NDi : NoDup (map TabInput.id [inputA; inputC])).
  { repeat constructor; simpl; intuition discriminate. }
  split; [exact NDk|]. split; [exact NDi|].
  exact (proj2 (proj2 (keys_stay_distinct [inputA; inputC])) NDk NDi
           "now" "j" (keyUpdate "a")).
Defined.

(** *** Claim C4 *)

Example sanitizeKey_example :
  sanitizeKey "Hello   World! Foo-Bar_9" = "hello_world_foobar_9".
Proof. reflexivity. Qed.

Example ensureUniqueKey_fallback : ensureUniqueKey [] "!?" None = Some "input".
Proof. reflexivity. Qed.




(** *** Claim C9 *)

(** C9.  [removeInput(id)] keeps the inputs whose id differs from [id],
    in their sequence and with all fields but [order] unchanged, and
    gives them the orders 0, 1, ..., n-1 of their positions; no input
    with that id remains; nothing is removed when no input has that id;
    and when ids are pairwise distinct, the input with that id is the
    only one removed. *)
Theorem removeInput_renumbers (inputs : list TabInput.t) (id : string) :
  let r := removeInput inputs id in
  Forall2 reordered (filter (fun x => negb (TabInput.id x =? id)) inputs) r /\
  (forall i x', nth_error r i = Some x' -> TabInput.order x' = Some (Z.of_nat i)) /\
  (forall x', In x' r -> TabInput.id x' <> id) /\
  ((forall x, In x inputs -> TabInput.id x <> id) -> Forall2 reordered inputs r) /\
  (forall x, In x inputs -> TabInput.id x = id -> NoDup (map TabInput.id inputs) ->
     exists l1 l2, inputs = l1 ++ x :: l2 /\ Forall2 reordered (l1 ++ l2) r).
Proof.
  intros r. unfold r, removeInput, mapi.
  set (keep := fun x => negb (TabInput.id x =? id)).
  set (f := fun (input : TabInput.t) (index : nat) =>
              withOrder input (Some (Z.of_nat index))).
  assert (F : forall l, Forall2 reordered l (mapi_from f 0 l)).
  { intros l. apply Forall2_mapi_from. intros x i. reflexivity. }
  split; [apply F|]. split; [|split; [|split]].
  - intros i x' H. rewrite nth_error_mapi_from in H.
    destruct (nth_error (filter keep inputs) i); [|discriminate].
    injection H as <-. reflexivity.
  - intros x' H. apply In_mapi_from in H. destruct H as (x & i & Hx & ->).
    apply filter_In in Hx. destruct Hx as [_ Hx]. unfold keep in Hx.
    apply negb_true_iff, String.eqb_neq in Hx. exact Hx.
  - intros H. rewrite (filter_all keep inputs); [apply F|].
    intros x Hx. unfold keep. apply negb_true_iff, String.eqb_neq. now apply H.
  - intros x Hin Hid ND. destruct (in_split _ _ Hin) as (l1 & l2 & E).
    exists l1, l2. split; [exact E|].
    replace (filter keep inputs) with (l1 ++ l2); [apply F|].
    rewrite E, filter_app. simpl. unfold keep at 2. rewrite Hid, String.eqb_refl. simpl.
    rewrite <- filter_app. symmetry. apply filter_all.
    intros y Hy. unfold keep. apply negb_true_iff, String.eqb_neq.
    rewrite <- Hid. rewrite E in ND. now apply (NoDup_map_split TabInput.id l1 l2 x y).
Qed.

Lemma removeInput_renumbers_witness :
  In inputC [inputA; inputC] /\
  NoDup (map TabInput.id [inputA; inputC]) /\
  exists l1 l2,
    [inputA; inputC] = l1 ++ inputC :: l2 /\
    Forall2 reordered (l1 ++ l2) (removeInput [inputA; inputC] "j").
Proof.
  assert (Hin : In inputC [inputA; inputC]) by (right; now left).
  assert (ND : NoDup (map TabInput.id [inputA; inputC])).
  { repeat constructor; simpl; intuition discriminate. }
  split; [exact Hin|]. split; [exact ND|].
  destruct (removeInput_renumbers [inputA; inputC] "j") as (_ & _ & _ & _ & H).
  exact (H inputC Hin eq_refl ND).
Defined.

(** *** reorderInputs (claim C5) *)

Lemma reorderInputs_spec (inputs : list TabInput.t) (fromIndex toIndex : nat) :
  fromIndex < List.length inputs -> toIndex < List.length inputs ->
  fromIndex <> toIndex ->
  exists r,
    reorderInputs inputs fromIndex toIndex = Some r /\
    (forall i x', nth_error r i = Some x' -> TabInput.order x' = Some (Z.of_nat i)) /\
    List.length r = List.length inputs /\
    (exists x x', nth_error inputs fromIndex = Some x /\
                  nth_error r toIndex = Some x' /\ reordered x x') /\
    Forall2 reordered (removeAt fromIndex inputs) (removeAt toIndex r).
Proof.
  intros Hf Ht N.
  destruct (spliceMove_spec inputs fromIndex toIndex Hf Ht) as (r & E & Hn & Hr & P).
  unfold reorderInputs. apply Nat.eqb_neq in N. rewrite N, E.
  eexists. split; [reflexivity|]. unfold mapi. repeat split.
  - intros i x' H. rewrite nth_error_mapi_from in H.
    destruct (nth_error r i); [|discriminate]. injection H as <-. reflexivity.
  - rewrite length_mapi_from. apply Permutation_length. now symmetry.
  - destruct (nth_error inputs fromIndex) as [x|] eqn:Ex;
      [|apply nth_error_None in Ex; lia].
    eexists. eexists. split; [reflexivity|].
    rewrite nth_error_mapi_from, Hn. split; reflexivity.
  - rewrite <- Hr. apply Forall2_removeAt, Forall2_mapi_from.
    intros x i. reflexivity.
Qed.

End TabInputsFacts.

(** ** Reordering of groups and inputs *)

Module ReorderFacts.

(** *** Claim C5 *)

(** C5, counterexample.  With equal valid indices [reorderInputs] returns
    at its guard [if (fromIndex === toIndex) return] and renumbers
    nothing: the only input keeps its order 5 at position 0. *)
Lemma reorderInputs_same_index_keeps_orders :
  0 < List.length [TabInputs.inputOrder5] /\
  TabInputs.reorderInputs [TabInputs.inputOrder5] 0 0 = Some [TabInputs.inputOrder5] /\
  nth_error [TabInputs.inputOrder5] 0 = Some TabInputs.inputOrder5 /\
  TabInput.order TabInputs.inputOrder5 <> Some (Z.of_nat 0).
Proof.
  split; [simpl; lia|]. split; [reflexivity|]. split; [reflexivity|discriminate].
Qed.

(** C5, amended.  For indices valid in the list of the groups at the
    level of [parentId], [reorderGroups] puts the group that was at
    [fromIndex] at [toIndex] among those siblings, keeps the sequence of
    the other siblings, gives the siblings the orders 0, 1, ..., n-1 of
    their new positions and no other change, and leaves the groups of
    the other levels, and the tabs, as they were.  For valid and
    different indices, [reorderInputs] does the same on the inputs list;
    for equal indices it changes nothing. *)
Theorem reorder_renumbers :
  (forall (st : DashboardTabs.State) (fromIndex toIndex : nat) (parentId : option string),
     let siblings := filter (DashboardTabs.sameLevel parentId) (DashboardTabs.groups st) in
     fromIndex < List.length siblings -> toIndex < List.length siblings ->
     exists st',
       DashboardTabs.reorderGroups st fromIndex toIndex parentId = Some st' /\
       DashboardTabs.tabs st' = DashboardTabs.tabs st /\
       filter (fun g => negb (DashboardTabs.sameLevel parentId g)) (DashboardTabs.groups st') =
         filter (fun g => negb (DashboardTabs.sameLevel parentId g)) (DashboardTabs.groups st) /\
       let siblings' := filter (DashboardTabs.sameLevel parentId) (DashboardTabs.groups st') in
       (forall i h', nth_error siblings' i = Some h' -> TabGroup.order h' = Z.of_nat i) /\
       List.length siblings' = List.length siblings /\
       (exists h h', nth_error siblings fromIndex = Some h /\
                     nth_error siblings' toIndex = Some h' /\
                     h' = DashboardTabs.withOrder h (TabGroup.order h')) /\
       Forall2 (fun h h' => h' = DashboardTabs.withOrder h (TabGroup.order h'))
               (removeAt fromIndex siblings) (removeAt toIndex siblings')) /\
  (forall (inputs : list TabInput.t) (fromIndex toIndex : nat),
     fromIndex < List.length inputs -> toIndex < List.length inputs ->
     fromIndex <> toIndex ->
     exists r,
       TabInputs.reorderInputs inputs fromIndex toIndex = Some r /\
       (forall i x', nth_error r i = Some x' -> TabInput.order x' = Some (Z.of_nat i)) /\
       List.length r = List.length inputs /\
       (exists x x', nth_error inputs fromIndex = Some x /\
                     nth_error r toIndex = Some x' /\
                     TabInputs.reordered x x') /\
       Forall2 TabInputs.reordered (removeAt fromIndex inputs) (removeAt toIndex r)) /\
  (forall (inputs : list TabInput.t) (index : nat),
     TabInputs.reorderInputs inputs index index = Some inputs).
Proof.
  split; [|split].
  - exact DashboardTabsFacts.reorderGroups_spec.
  - exact TabInputsFacts.reorderInputs_spec.
  - intros inputs index. unfold TabInputs.reorderInputs.
    now rewrite Nat.eqb_refl.
Qed.

Lemma reorder_renumbers_witness :
  0 < List.length [TabInputs.inputA; TabInputs.inputC] /\
  1 < List.length [TabInputs.inputA; TabInputs.inputC] /\
  0 <> 1 /\
  exists r,
    TabInputs.reorderInputs [TabInputs.inputA; TabInputs.inputC] 0 1 = Some r /\
    (forall i x', nth_error r i = Some x' -> TabInput.order x' = Some (Z.of_nat i)).
Proof.
  assert (H0 : 0 < List.length [TabInputs.inputA; TabInputs.inputC])
    by (simpl; lia).
  assert (H1 : 1 < List.length [TabInputs.inputA; TabInputs.inputC])
    by (simpl; lia).
  assert (N : 0 <> 1) by lia.
  split; [exact H0|]. split; [exact H1|]. split; [exact N|].
  destruct (proj1 (proj2 reorder_renumbers) _ 0 1 H0 H1 N) as (r & E & Ho & _).
  exists r. split; [exact E|exact Ho].
Defined.

End ReorderFacts.

(** ** Route handlers of /api/user-configs/tab-inputs *)

Module RouteFacts.
Import Route.

Lemma truthy_Some (s : string) : truthy (Some s) = true <-> s <> "".
Proof.
  simpl. split.
  - intros H ->. discriminate.
  - intros H. apply negb_true_iff. now apply String.eqb_neq.
Qed.

(** *** Claim C7 *)

(** C7, counterexample.  A request whose query carries [tabId] with an
    empty value ([?tabId=]) has the parameter present, and is answered
    with status 400: the guard is [!tabId], which the empty string
    satisfies. *)
Lemma GET_empty_tabId_400 :
  Some "" <> (None : option string) /\
  GET (Resolved tt) (fun _ => Resolved None) (Some "") =
    jsonStatus (ErrorBody "tabId is required") 400 /\
  status (GET (Resolved tt) (fun _ => Resolved None) (Some "")) = 400.
Proof. split; [discriminate|]. split; reflexivity. Qed.

(** C7, amended.  [GET] answers with status 400 exactly when the
    [tabId] query parameter is absent or empty.  With a non-empty
    [tabId]: a storage call that throws gives status 500; no stored
    document gives [{ tabId, inputs: [] }]; a stored document gives its
    [inputs] array, or [[]] when it has none. *)
Theorem GET_responses (getDb : Outcome unit) (findOne : string -> Outcome (option Doc))
    (tabId : option string) :
  (status (GET getDb findOne tabId) = 400 <-> (tabId = None \/ tabId = Some "")) /\
  (forall t, tabId = Some t -> t <> "" ->
     (getDb = Thrown \/ findOne t = Thrown ->
      status (GET getDb findOne tabId) = 500) /\
     (forall u, getDb = Resolved u -> findOne t = Resolved None ->
      GET getDb findOne tabId = json (InputsBody t [])) /\
     (forall u doc, getDb = Resolved u -> findOne t = Resolved (Some doc) ->
      GET getDb findOne tabId =
        json (InputsBody t (match doc_inputs doc with Some l => l | None => [] end)))).
Proof.
  split.
  - unfold GET. destruct tabId as [t|]; [|simpl; intuition].
    destruct (truthy (Some t)) eqn:T; simpl.
    + apply truthy_Some in T.
      destruct getDb; [destruct (findOne t) as [[d|]|]|]; simpl;
        split; try discriminate; intros [H|H]; congruence.
    + split; [|reflexivity]. intros _. right. f_equal.
      simpl in T. apply negb_false_iff in T. now apply String.eqb_eq.
  - intros t -> N. apply truthy_Some in N. unfold GET. rewrite N. simpl.
    split; [|split].
    + intros [->| ->]; [reflexivity|]. now destruct getDb.
    + intros u -> ->. reflexivity.
    + intros u doc -> ->. reflexivity.
Qed.

Lemma GET_responses_witness :
  GET (Resolved tt) (fun _ => Resolved (Some storedDoc)) (Some "tab") =
    json (InputsBody "tab" [TabInputs.inputA]).
Proof.
  assert (N : "tab" <> "") by discriminate.
  exact (proj2 (proj2 (proj2 (GET_responses (Resolved tt)
           (fun _ => Resolved (Some storedDoc)) (Some "tab")) "tab" eq_refl N))
           tt storedDoc eq_refl eq_refl).
Defined.

(** *** Claim C10 *)

(** C10, counterexample.  A body whose [tabId] is the empty string and
    whose [inputs] is an array has neither a missing [tabId] nor
    non-array [inputs], and is answered with status 400 without any
    update of the store: the guard is [!tabId]. *)
Lemma POST_empty_tabId_400 :
  b_tabId (mkBody (Some "") (IsArray [inputFromClient])) <> None /\
  b_inputs (mkBody (Some "") (IsArray [inputFromClient])) <> NotArray /\
  POST (Resolved (mkBody (Some "") (IsArray [inputFromClient]))) (Resolved tt)
       (fun _ => Resolved tt) "now" "date" =
    (jsonStatus (ErrorBody "tabId is required") 400, []).
Proof. split; [discriminate|]. split; [discriminate|reflexivity]. Qed.

Lemma sanitizeInput_storedAs (tabId now : string) (x : TabInput.t) (i : nat) :
  storedAs tabId now i x (sanitizeInput tabId now x i).
Proof.
  unfold storedAs, sanitizeInput. simpl.
  destruct (truthy (TabInput.createdAt x)); repeat split; congruence.
Qed.

(** C10, amended.  [POST] answers with status 400, and updates nothing,
    when [tabId] is missing or empty or [inputs] is not an array.
    Otherwise, once the database is reached, it asks for one upsert under
    the request's [tabId] whose inputs are the submitted ones, in their
    sequence, each with its [tabId] replaced by the request's, its
    [order] replaced by its index, its [createdAt] kept when it is a
    non-empty string (else set to the current time), [updatedAt] set to
    the current time and the other fields unchanged, whatever [tabId]
    and [order] the client sent; the answer is the success body when the
    upsert resolves and status 500 when it throws. *)
Theorem POST_sanitizes (b : Body) (getDb : Outcome unit)
    (updateOne : Upsert -> Outcome unit) (now nowDate : string) :
  (b_tabId b = None \/ b_tabId b = Some "" \/ b_inputs b = NotArray ->
   status (fst (POST (Resolved b) getDb updateOne now nowDate)) = 400 /\
   snd (POST (Resolved b) getDb updateOne now nowDate) = []) /\
  (forall t l u,
     b_tabId b = Some t -> t <> "" -> b_inputs b = IsArray l -> getDb = Resolved u ->
     exists stored,
       snd (POST (Resolved b) getDb updateOne now nowDate) = [mkUpsert t t stored nowDate] /\
       List.length stored = List.length l /\
       (forall i x, nth_error l i = Some x ->
          exists x', nth_error stored i = Some x' /\ storedAs t now i x x') /\
       (updateOne (mkUpsert t t stored nowDate) = Resolved tt ->
        fst (POST (Resolved b) getDb updateOne now nowDate) = json SuccessBody) /\
       (updateOne (mkUpsert t t stored nowDate) = Thrown ->
        status (fst (POST (Resolved b) getDb updateOne now nowDate)) = 500)).
Proof.
  split.
  - unfold POST. intros [H|[H|H]].
    + rewrite H. now split.
    + rewrite H. now split.
    + destruct (b_tabId b) as [t|]; [|now split].
      destruct (negb (truthy (Some t))); [now split|]. rewrite H. now split.
  - intros t l u Ht N Hl ->. apply truthy_Some in N. unfold POST.
    rewrite Ht, N, Hl. simpl.
    exists (mapi (sanitizeInput t now) l).
    split; [now destruct (updateOne _)|].
    split; [apply length_mapi_from|]. split; [|split].
    + intros i x Hx. unfold mapi. rewrite nth_error_mapi_from, Hx. simpl.
      eexists. split; [reflexivity|]. apply sanitizeInput_storedAs.
    + intros ->. reflexivity.
    + intros ->. reflexivity.
Qed.

Lemma POST_sanitizes_witness :
  exists stored,
    snd (POST (Resolved (mkBody (Some "tab") (IsArray [inputFromClient])))
              (Resolved tt) (fun _ => Resolved tt) "now" "date") =
      [mkUpsert "tab" "tab" stored "date"] /\
    forall i x, nth_error [inputFromClient] i = Some x ->
      exists x', nth_error stored i = Some x' /\ storedAs "tab" "now" i x x'.
Proof.
  assert (N : "tab" <> "") by discriminate.
  destruct (proj2 (POST_sanitizes (mkBody (Some "tab") (IsArray [inputFromClient]))
              (Resolved tt) (fun _ => Resolved tt) "now" "date")
              "tab" [inputFromClient] tt eq_refl N eq_refl eq_refl)
    as (stored & E & _ & H & _).
  exists stored. split; [exact E|exact H].
Defined.

End RouteFacts.

(** ** Tabs: slugs, creation, removal and updates *)

Module DashboardTabsOpsFacts.
Import DashboardTabs DashboardTabsOps.

Lemma isSlugChar_source (c : ascii) :
  isSlugSource c && negb (TabInputs.isWhitespace c) = isSlugChar c.
Proof. destruct c as [[] [] [] [] [] [] [] []]; reflexivity. Qed.

Lemma isSlugChar_hyphen : isSlugChar "-" = true.
Proof. reflexivity. Qed.

Lemma isSlugChar_facts (c : ascii) :
  isSlugChar c = true ->
  TabInputs.lowerChar c = c /\ TabInputs.isWhitespace c = false /\ isSlugSource c = true.
Proof. destruct c as [[] [] [] [] [] [] [] []]; intros H; try discriminate H; repeat split. Qed.

Lemma allChars_removeNonSlugChars (s : string) :
  TabInputs.allChars isSlugSource (removeNonSlugChars s) = true.
Proof.
  induction s as [|c r IH]; simpl; [reflexivity|].
  destruct (isSlugSource c) eqn:E; simpl; [now rewrite E|assumption].
Qed.

Lemma allChars_hyphenate (s : string) :
  TabInputs.allChars isSlugSource s = true ->
  TabInputs.allChars isSlugChar (hyphenateWhitespaceRuns s) = true.
Proof.
  induction s as [|c r IH]; [reflexivity|].
  intros H. cbn [TabInputs.allChars] in H. apply andb_true_iff in H.
  destruct H as [Hc Hr]. specialize (IH Hr). cbn [hyphenateWhitespaceRuns].
  destruct (TabInputs.isWhitespace c) eqn:W.
  - destruct r as [|c' r']; [reflexivity|].
    destruct (TabInputs.isWhitespace c'); [exact IH|].
    cbn [TabInputs.allChars]. now rewrite isSlugChar_hyphen, IH.
  - cbn [TabInputs.allChars]. now rewrite <- isSlugChar_source, Hc, W, IH.
Qed.

Lemma decimal_slug_chars (n : nat) :
  TabInputs.allChars isSlugChar (TabInputs.decimal n) = true.
Proof.
  unfold TabInputs.decimal. induction (Nat.to_uint n); simpl; auto.
Qed.

Lemma slugify_wellformed (nowMs : nat) (name : string) :
  slugify nowMs name <> "" /\
  TabInputs.allChars isSlugChar (slugify nowMs name) = true.
Proof.
  unfold slugify.
  destruct (String.eqb_spec
              (hyphenateWhitespaceRuns
                 (removeNonSlugChars (trim (TabInputs.toLowerCase name)))) "") as [E|N].
  - split; [discriminate|]. simpl. apply decimal_slug_chars.
  - split; [assumption|]. apply allChars_hyphenate, allChars_removeNonSlugChars.
Qed.

(** A slug is never empty and holds only lowercase ASCII letters,
    digits and hyphens, whatever the name. *)
Theorem slugify_chars (nowMs : nat) (name : string) :
  slugify nowMs name <> "" /\
  TabInputs.allChars isSlugChar (slugify nowMs name) = true.
Proof. exact (slugify_wellformed nowMs name). Qed.

Lemma toLowerCase_slug (s : string) :
  TabInputs.allChars isSlugChar s = true -> TabInputs.toLowerCase s = s.
Proof.
  induction s as [|c r IH]; [reflexivity|]. simpl. intros H.
  apply andb_true_iff in H. destruct H as [Hc Hr].
  destruct (isSlugChar_facts c Hc) as (-> & _). now rewrite IH.
Qed.

Lemma trimStart_slug (s : string) :
  TabInputs.allChars isSlugChar s = true -> trimStart s = s.
Proof.
  destruct s as [|c r]; [reflexivity|]. simpl. intros H.
  apply andb_true_iff in H. destruct H as [Hc _].
  destruct (isSlugChar_facts c Hc) as (_ & -> & _). reflexivity.
Qed.

Lemma trimEnd_slug (s : string) :
  TabInputs.allChars isSlugChar s = true -> trimEnd s = s.
Proof.
  induction s as [|c r IH]; [reflexivity|]. simpl. intros H.
  apply andb_true_iff in H. destruct H as [Hc Hr].
  destruct (isSlugChar_facts c Hc) as (_ & -> & _). simpl. now rewrite IH.
Qed.

Lemma removeNonSlugChars_slug (s : string) :
  TabInputs.allChars isSlugChar s = true -> removeNonSlugChars s = s.
Proof.
  induction s as [|c r IH]; [reflexivity|]. simpl. intros H.
  apply andb_true_iff in H. destruct H as [Hc Hr].
  destruct (isSlugChar_facts c Hc) as (_ & _ & ->). now rewrite IH.
Qed.

Lemma hyphenate_slug (s : string) :
  TabInputs.allChars isSlugChar s = true -> hyphenateWhitespaceRuns s = s.
Proof.
  induction s as [|c r IH]; [reflexivity|]. cbn [TabInputs.allChars hyphenateWhitespaceRuns].
  intros H. apply andb_true_iff in H. destruct H as [Hc Hr].
  destruct (isSlugChar_facts c Hc) as (_ & -> & _). now rewrite IH.
Qed.

(** A name that already is a slug is its own slug. *)
Lemma slugify_slug (nowMs : nat) (s : string) :
  s <> "" -> TabInputs.allChars isSlugChar s = true -> slugify nowMs s = s.
Proof.
  intros N H. unfold slugify, trim.
  rewrite (toLowerCase_slug s H), (trimStart_slug s H), (trimEnd_slug s H),
    (removeNonSlugChars_slug s H), (hyphenate_slug s H).
  apply String.eqb_neq in N. now rewrite N.
Qed.

(** [slugify] is idempotent: the slug of a slug is that slug, whatever
    the clock reads at either call. *)
Theorem slugify_idempotent (nowMs nowMs' : nat) (name : string) :
  slugify nowMs' (slugify nowMs name) = slugify nowMs name.
Proof.
  destruct (slugify_wellformed nowMs name) as [N H]. now apply slugify_slug.
Qed.

Lemma numbered_inj (slug : string) (i j : nat) : numbered slug i = numbered slug j -> i = j.
Proof.
  unfold numbered. intros H. apply TabInputsFacts.append_inj_l in H.
  simpl in H. injection H as H. now apply TabInputsFacts.decimal_inj.
Qed.

Lemma numbered_neq (slug : string) (j : nat) : slug <> numbered slug j.
Proof.
  unfold numbered. intros H. apply (f_equal String.length) in H.
  rewrite TabInputsFacts.length_append in H. simpl in H. lia.
Qed.

(** The loop ends within its fuel when the fuel exceeds the number of
    existing ids the coming candidates can still meet. *)
Lemma uniqueSlugLoop_total (fuel : nat) (existing : list string) (slug : string) :
  forall (i : nat) (u : string) (rem : list string),
    (forall j, i <= j -> u <> numbered slug j) ->
    (In u existing -> In u rem) ->
    (forall j, i <= j -> In (numbered slug j) existing -> In (numbered slug j) rem) ->
    List.length rem < fuel ->
    exists k, uniqueSlugLoop fuel existing slug i u = Some k /\
              ~ In k existing /\
              (k = u \/ exists j, i <= j /\ k = numbered slug j).
Proof.
  induction fuel as [|fuel IH]; intros i u rem Hu Hin Hrem Hlen; [lia|].
  simpl. destruct (existsb (String.eqb u) existing) eqn:E.
  - apply TabInputsFacts.existsb_eqb_In in E. pose proof (Hin E) as Hr.
    destruct (IH (S i) (numbered slug i) (remove string_dec u rem)) as (k & Hk & Hnk & Hor).
    + intros j Hj H. apply numbered_inj in H. lia.
    + intros H. apply in_in_remove; [|now apply Hrem].
      intros H'. apply (Hu i); [lia|now symmetry].
    + intros j Hj H. apply in_in_remove; [|apply Hrem; [lia|assumption]].
      intros H'. apply (Hu j); [lia|now symmetry].
    + pose proof (remove_length_lt string_dec rem u Hr). lia.
    + exists k. split; [exact Hk|]. split; [exact Hnk|]. right.
      destruct Hor as [->|(j & Hj & ->)]; [exists i|exists j]; split; auto; lia.
  - exists u. split; [reflexivity|]. split; [|now left].
    intros H. apply TabInputsFacts.existsb_eqb_In in H. congruence.
Qed.

Lemma uniqueSlug_spec (ts : list DashboardTab.t) (slug : string) :
  exists k,
    uniqueSlug ts slug = Some k /\
    ~ In k (map DashboardTab.id ts) /\
    (k = slug \/ exists j, 1 <= j /\ k = numbered slug j) /\
    (~ In slug (map DashboardTab.id ts) -> k = slug).
Proof.
  unfold uniqueSlug.
  destruct (uniqueSlugLoop_total (S (List.length (map DashboardTab.id ts)))
              (map DashboardTab.id ts) slug 1 slug (map DashboardTab.id ts))
    as (k & E & Hk & Hor); auto.
  - intros j _. apply numbered_neq.
  - exists k. split; [exact E|]. split; [exact Hk|]. split; [exact Hor|].
    intros Hfree. simpl in E.
    destruct (existsb (String.eqb slug) (map DashboardTab.id ts)) eqn:B.
    + apply TabInputsFacts.existsb_eqb_In in B. contradiction.
    + now injection E as <-.
Qed.

Lemma numbered_chars (slug : string) (j : nat) :
  TabInputs.allChars isSlugChar slug = true ->
  TabInputs.allChars isSlugChar (numbered slug j) = true.
Proof.
  intros H. unfold numbered.
  rewrite !TabInputsFacts.allChars_append, H, decimal_slug_chars. reflexivity.
Qed.

Lemma state_eta (st : State) : mkState (tabs st) (groups st) = st.
Proof. now destruct st. Qed.

Lemma NoDup_snoc {A : Type} (l : list A) (a : A) :
  NoDup l -> ~ In a l -> NoDup (l ++ [a]).
Proof.
  intros ND N. apply TabInputsFacts.NoDup_insert; now rewrite app_nil_r.
Qed.

Lemma addTab_result (nowMs : nat) (nowIso : string) (st : State) (name : string) :
  exists unique st',
    addTab nowMs nowIso st name = Some (unique, st') /\
    ~ In unique (map DashboardTab.id (tabs st)) /\
    (~ In (slugify nowMs name) (map DashboardTab.id (tabs st)) ->
     unique = slugify nowMs name) /\
    unique <> "" /\ TabInputs.allChars isSlugChar unique = true /\
    tabs st' = tabs st ++ [DashboardTab.mk unique name nowIso (Some false) None None None] /\
    groups st' = groups st /\
    (NoDup (map DashboardTab.id (tabs st)) -> NoDup (map DashboardTab.id (tabs st'))).
Proof.
  unfold addTab.
  destruct (uniqueSlug_spec (tabs st) (slugify nowMs name)) as (k & E & Hk & Hor & Hfree).
  destruct (slugify_wellformed nowMs name) as [Hne Hch].
  rewrite E. exists k. eexists. split; [reflexivity|]. simpl.
  split; [exact Hk|]. split; [exact Hfree|]. split; [|split; [|split; [|split]]].
  - destruct Hor as [->|(j & _ & ->)]; [assumption|].
    unfold numbered. destruct (slugify nowMs name); [contradiction|discriminate].
  - destruct Hor as [->|(j & _ & ->)]; [assumption|now apply numbered_chars].
  - reflexivity.
  - reflexivity.
  - intros ND. rewrite map_app. simpl. now apply NoDup_snoc.
Qed.

(** [addTab] always returns.  The id it returns is the id of no
    existing tab, is the slug of the name when no tab has that slug, and
    holds only lowercase letters, digits and hyphens; the new tab is
    appended after the existing tabs, private and in no group; the
    groups are untouched; and tab ids that were pairwise distinct stay
    so. *)
Theorem addTab_fresh (nowMs : nat) (nowIso : string) (st : State) (name : string) :
  exists unique st',
    addTab nowMs nowIso st name = Some (unique, st') /\
    ~ In unique (map DashboardTab.id (tabs st)) /\
    (~ In (slugify nowMs name) (map DashboardTab.id (tabs st)) ->
     unique = slugify nowMs name) /\
    unique <> "" /\ TabInputs.allChars isSlugChar unique = true /\
    tabs st' = tabs st ++ [DashboardTab.mk unique name nowIso (Some false) None None None] /\
    groups st' = groups st /\
    (NoDup (map DashboardTab.id (tabs st)) -> NoDup (map DashboardTab.id (tabs st'))).
Proof. exact (addTab_result nowMs nowIso st name). Qed.

Lemma addTab_fresh_witness :
  ~ In (slugify 17 "Costs") (map DashboardTab.id (tabs stateReports)) /\
  NoDup (map DashboardTab.id (tabs stateReports)) /\
  exists st',
    addTab 17 "iso" stateReports "Costs" = Some ("costs", st') /\
    NoDup (map DashboardTab.id (tabs st')).
Proof.
  assert (Hfree : ~ In (slugify 17 "Costs") (map DashboardTab.id (tabs stateReports))).
  { simpl. intuition discriminate. }
  assert (ND : NoDup (map DashboardTab.id (tabs stateReports))).
  { repeat constructor; simpl; intuition discriminate. }
  split; [exact Hfree|]. split; [exact ND|].
  destruct (addTab_fresh 17 "iso" stateReports "Costs")
    as (unique & st' & E & _ & Hu & _ & _ & _ & _ & Hnd).
  exists st'. rewrite (Hu Hfree) in E. split; [exact E|exact (Hnd ND)].
Defined.

(** Removing the tab [addTab] has just created gives back the state
    from before the creation. *)
Theorem removeTab_addTab (nowMs : nat) (nowIso : string) (st : State) (name : string) :
  exists unique st',
    addTab nowMs nowIso st name = Some (unique, st') /\
    removeTab st' unique = st.
Proof.
  destruct (addTab_result nowMs nowIso st name)
    as (unique & st' & E & Hk & _ & _ & _ & Ht & Hg & _).
  exists unique, st'. split; [exact E|].
  unfold removeTab, save. rewrite Ht, Hg, filter_app. simpl.
  rewrite String.eqb_refl. simpl. rewrite app_nil_r, filter_all; [apply state_eta|].
  intros t Hin. apply negb_true_iff, String.eqb_neq. intros H. apply Hk.
  rewrite <- H. now apply in_map.
Qed.

(** [removeTab(id)] leaves no tab with that id and keeps the groups; it
    changes nothing when no tab has the id, so removing twice is
    removing once; and with pairwise-distinct ids it removes the one tab
    with the id and keeps the others in their sequence. *)
Theorem removeTab_removes (st : State) (id : string) :
  (forall t, In t (tabs (removeTab st id)) -> DashboardTab.id t <> id) /\
  groups (removeTab st id) = groups st /\
  ((forall t, In t (tabs st) -> DashboardTab.id t <> id) -> removeTab st id = st) /\
  removeTab (removeTab st id) id = removeTab st id /\
  (forall t, In t (tabs st) -> DashboardTab.id t = id ->
     NoDup (map DashboardTab.id (tabs st)) ->
     exists l1 l2, tabs st = l1 ++ t :: l2 /\ tabs (removeTab st id) = l1 ++ l2).
Proof.
  assert (A : forall st', (forall t, In t (tabs st') -> DashboardTab.id t <> id) ->
                          removeTab st' id = st').
  { intros st' H. unfold removeTab, save. rewrite filter_all; [apply state_eta|].
    intros t Hin. apply negb_true_iff, String.eqb_neq. now apply H. }
  assert (B : forall t, In t (tabs (removeTab st id)) -> DashboardTab.id t <> id).
  { intros t Hin. simpl in Hin. apply filter_In in Hin. destruct Hin as [_ Hin].
    now apply negb_true_iff, String.eqb_neq in Hin. }
  split; [exact B|]. split; [reflexivity|]. split; [apply A|]. split; [now apply A|].
  intros t Hin Hid ND. destruct (in_split _ _ Hin) as (l1 & l2 & E).
  exists l1, l2. split; [exact E|]. simpl. rewrite E, filter_app. simpl.
  rewrite Hid, String.eqb_refl. simpl. rewrite <- filter_app. apply filter_all.
  intros y Hy. apply negb_true_iff, String.eqb_neq. rewrite <- Hid.
  rewrite E in ND. now apply (TabInputsFacts.NoDup_map_split DashboardTab.id l1 l2 t y).
Qed.

Lemma removeTab_removes_witness :
  In (sampleTab "sales" (Some "g")) (tabs stateReports) /\
  NoDup (map DashboardTab.id (tabs stateReports)) /\
  exists l1 l2,
    tabs stateReports = l1 ++ sampleTab "sales" (Some "g") :: l2 /\
    tabs (removeTab stateReports "sales") = l1 ++ l2.
Proof.
  assert (Hin : In (sampleTab "sales" (Some "g")) (tabs stateReports))
    by (right; now left).
  assert (ND : NoDup (map DashboardTab.id (tabs stateReports))).
  { repeat constructor; simpl; intuition discriminate. }
  split; [exact Hin|]. split; [exact ND|].
  exact (proj2 (proj2 (proj2 (proj2 (removeTab_removes stateReports "sales"))))
           _ Hin eq_refl ND).
Defined.

Lemma Forall2_map_in {A B : Type} (R : A -> B -> Prop) (f : A -> B) (l : list A) :
  (forall x, In x l -> R x (f x)) -> Forall2 R l (map f l).
Proof.
  induction l as [|x r IH]; intros H; simpl; constructor.
  - apply H. now left.
  - apply IH. intros y Hy. apply H. now right.
Qed.

Lemma map_id_frame (f : DashboardTab.t -> DashboardTab.t) (l : list DashboardTab.t) :
  (forall t, DashboardTab.id (f t) = DashboardTab.id t) ->
  map DashboardTab.id (map f l) = map DashboardTab.id l.
Proof. intros H. rewrite map_map. apply map_ext. exact H. Qed.

(** [renameTab] changes the name of the tabs with the given id and
    nothing else: ids, groups, membership and positions are kept, and a
    tab of another id is left as it was. *)
Theorem renameTab_frame (st : State) (id name : string) :
  groups (renameTab st id name) = groups st /\
  map DashboardTab.id (tabs (renameTab st id name)) = map DashboardTab.id (tabs st) /\
  Forall2 (fun t t' => if DashboardTab.id t =? id
                       then t' = withName t name else t' = t)
          (tabs st) (tabs (renameTab st id name)) /\
  ((forall t, In t (tabs st) -> DashboardTab.id t <> id) -> renameTab st id name = st).
Proof.
  split; [reflexivity|]. split; [|split].
  - simpl. apply map_id_frame. intros t. now destruct (DashboardTab.id t =? id).
  - simpl. apply Forall2_map_r. intros t. now destruct (DashboardTab.id t =? id).
  - intros H. unfold renameTab, save. rewrite <- (state_eta st) at 3. f_equal.
    rewrite <- (map_id (tabs st)) at 2. apply map_ext_in. intros t Hin.
    apply H in Hin. apply String.eqb_neq in Hin. now rewrite Hin.
Qed.

Lemma renameTab_frame_witness :
  (forall t, In t (tabs stateReports) -> DashboardTab.id t <> "costs") /\
  renameTab stateReports "costs" "Costs" = stateReports.
Proof.
  assert (H : forall t, In t (tabs stateReports) -> DashboardTab.id t <> "costs").
  { intros t [<-|[<-|[]]]; discriminate. }
  split; [exact H|].
  exact (proj2 (proj2 (proj2 (renameTab_frame stateReports "costs" "Costs"))) H).
Defined.

Lemma mergeTab_id (t t' : DashboardTab.t) (updates : TabUpdates) :
  u_id updates = Absent -> mergeTab t updates = Some t' ->
  DashboardTab.id t' = DashboardTab.id t.
Proof.
  unfold mergeTab. intros ->. simpl.
  destruct (spreadRequired (u_name updates) (DashboardTab.name t)); [|discriminate].
  destruct (spreadRequired (u_createdAt updates) (DashboardTab.createdAt t));
    [|discriminate].
  now intros [= <-].
Qed.

(** [updateTab] returns at once, leaving the state as it was, when no
    tab has the id.  It returns whenever the updates give none of the
    required members [id], [name] and [createdAt] as [undefined], and it
    never touches the groups.  With updates that carry no [id], the ids
    of the tabs are kept in place; and with pairwise-distinct ids the
    tab with the id becomes the spread of the tab and the updates, in
    which every member present in the updates, also one whose value is
    [undefined], replaces the member of the tab, while every other tab
    is unchanged. *)
Theorem updateTab_merges (st : State) (id : string) (updates : TabUpdates) :
  ((forall t, In t (tabs st) -> DashboardTab.id t <> id) ->
   updateTab st id updates = Some st) /\
  (u_id updates <> Present None -> u_name updates <> Present None ->
   u_createdAt updates <> Present None ->
   exists st', updateTab st id updates = Some st') /\
  (forall st', updateTab st id updates = Some st' ->
     groups st' = groups st /\
     (u_id updates = Absent ->
      map DashboardTab.id (tabs st') = map DashboardTab.id (tabs st)) /\
     (NoDup (map DashboardTab.id (tabs st)) ->
      Forall2 (fun t t' => if DashboardTab.id t =? id
                           then mergeTab t updates = Some t' /\
                                DashboardTab.link t' =
                                  spreadOptional (u_link updates) (DashboardTab.link t)
                           else t' = t)
              (tabs st) (tabs st'))).
Proof.
  unfold updateTab.
  destruct (find (fun t => DashboardTab.id t =? id) (tabs st)) as [old|] eqn:F.
  - pose proof (find_some _ _ F) as [Hin Hid]. apply String.eqb_eq in Hid.
    split; [|split].
    + intros H. exfalso. now apply (H old).
    + intros H1 H2 H3. unfold mergeTab.
      destruct (u_id updates) as [|[i|]]; [| |congruence];
        destruct (u_name updates) as [|[n|]]; try congruence;
        destruct (u_createdAt updates) as [|[c|]]; try congruence; simpl; eauto.
    + intros st' E. destruct (mergeTab old updates) as [updated|] eqn:M; [|discriminate].
      injection E as <-. simpl. split; [reflexivity|]. split.
      * intros Hu. rewrite map_map. apply map_ext_in. intros t Ht.
        destruct (String.eqb_spec (DashboardTab.id t) id) as [E|_]; [|reflexivity].
        rewrite (mergeTab_id old updated updates Hu M). congruence.
      * intros ND. destruct (in_split _ _ Hin) as (l1 & l2 & E). rewrite E in ND |- *.
        assert (U : forall t, In t (l1 ++ old :: l2) -> DashboardTab.id t = id -> t = old).
        { intros t Ht Ht'. apply in_app_or in Ht.
          destruct Ht as [Ht|[Ht|Ht]]; [|now symmetry|]; exfalso;
            apply (TabInputsFacts.NoDup_map_split DashboardTab.id l1 l2 old t ND);
            try congruence; apply in_or_app; auto. }
        apply Forall2_map_in. intros t Ht.
        destruct (String.eqb_spec (DashboardTab.id t) id) as [Et|_]; [|reflexivity].
        rewrite (U t Ht Et). split; [exact M|].
        unfold mergeTab in M.
        destruct (spreadRequired (u_id updates) (DashboardTab.id old)); [|discriminate].
        destruct (spreadRequired (u_name updates) (DashboardTab.name old));
          [|discriminate].
        destruct (spreadRequired (u_createdAt updates) (DashboardTab.createdAt old));
          [|discriminate].
        now injection M as <-.
  - split; [reflexivity|]. split; [eauto|].
    intros st' [= <-]. split; [reflexivity|]. split; [reflexivity|].
    intros _. pose proof (find_none _ _ F) as H.
    rewrite <- (map_id (tabs st)) at 2. apply Forall2_map_in. intros t Ht.
    now rewrite (H t Ht).
Qed.

Lemma updateTab_merges_witness :
  NoDup (map DashboardTab.id (tabs stateWithLink)) /\
  updateTab stateWithLink "sales" (linkUpdate None) =
    Some (mkState [sampleTab "reports" None;
                   DashboardTab.mk "sales" "Sales" "2024-01-01" None (Some "g") None None]
                  [groupG1]) /\
  Forall2 (fun t t' => if DashboardTab.id t =? "sales"
                       then mergeTab t (linkUpdate None) = Some t' /\
                            DashboardTab.link t' =
                              spreadOptional (u_link (linkUpdate None)) (DashboardTab.link t)
                       else t' = t)
          (tabs stateWithLink)
          [sampleTab "reports" None;
           DashboardTab.mk "sales" "Sales" "2024-01-01" None (Some "g") None None].
Proof.
  assert (ND : NoDup (map DashboardTab.id (tabs stateWithLink))).
  { repeat constructor; simpl; intuition discriminate. }
  split; [exact ND|]. split; [reflexivity|].
  exact (proj2 (proj2 (proj2 (proj2 (updateTab_merges stateWithLink "sales"
                                       (linkUpdate None))) _ eq_refl)) ND).
Defined.

(** After [moveTabToGroup(tabId, targetGroupId)] every tab with that id
    belongs to the target group, in the sense [reorderTabs] uses for the
    same argument (no group for [null] or the empty string); tabs of
    another id, the ids and the groups are unchanged. *)
Theorem moveTabToGroup_inGroup (st : State) (tabId : string)
    (targetGroupId : option string) :
  let st' := moveTabToGroup st tabId targetGroupId in
  groups st' = groups st /\
  map DashboardTab.id (tabs st') = map DashboardTab.id (tabs st) /\
  (forall t', In t' (tabs st') -> DashboardTab.id t' = tabId ->
     inGroup targetGroupId t' = true) /\
  Forall2 (fun t t' => if DashboardTab.id t =? tabId
                       then t' = withGroupId t (orUndefined targetGroupId) else t' = t)
          (tabs st) (tabs st').
Proof.
  intros st'. split; [reflexivity|]. split; [|split].
  - simpl. apply map_id_frame. intros t. now destruct (DashboardTab.id t =? tabId).
  - intros t' Hin Hid. simpl in Hin. apply in_map_iff in Hin.
    destruct Hin as (t & E & _).
    destruct (String.eqb_spec (DashboardTab.id t) tabId) as [Et|Nt].
    + rewrite <- E. unfold inGroup, withGroupId, orUndefined. simpl.
      destruct (truthy targetGroupId) eqn:T; [|reflexivity].
      now apply opt_eqb_eq.
    + congruence.
  - simpl. apply Forall2_map_r. intros t. now destruct (DashboardTab.id t =? tabId).
Qed.

Lemma moveTabToGroup_inGroup_witness :
  In (withGroupId (sampleTab "reports" None) (Some "g"))
     (tabs (moveTabToGroup stateReports "reports" (Some "g"))) /\
  inGroup (Some "g") (withGroupId (sampleTab "reports" None) (Some "g")) = true.
Proof.
  assert (Hin : In (withGroupId (sampleTab "reports" None) (Some "g"))
                   (tabs (moveTabToGroup stateReports "reports" (Some "g"))))
    by (now left).
  split; [exact Hin|].
  exact (proj1 (proj2 (proj2 (moveTabToGroup_inGroup stateReports "reports" (Some "g"))))
           _ Hin eq_refl).
Defined.

(** [duplicateTab] returns [null] and leaves the state as it was when no
    tab has the id.  Otherwise it appends one tab: its id is the id of
    no existing tab and holds only lowercase letters, digits and
    hyphens, it is private and in the group of the source tab; the
    existing tabs and the groups are unchanged. *)
Theorem duplicateTab_appends (nowMs : nat) (nowIso : string) (st : State) (id : string)
    (desiredName : option string) :
  ((forall t, In t (tabs st) -> DashboardTab.id t <> id) ->
   duplicateTab nowMs nowIso st id desiredName = Some (None, st)) /\
  (forall source, find (fun t => DashboardTab.id t =? id) (tabs st) = Some source ->
     exists unique newTab st',
       duplicateTab nowMs nowIso st id desiredName = Some (Some unique, st') /\
       tabs st' = tabs st ++ [newTab] /\ groups st' = groups st /\
       DashboardTab.id newTab = unique /\
       ~ In unique (map DashboardTab.id (tabs st)) /\
       unique <> "" /\ TabInputs.allChars isSlugChar unique = true /\
       DashboardTab.groupId newTab = DashboardTab.groupId source /\
       DashboardTab.isPublic newTab = Some false).
Proof.
  unfold duplicateTab. split.
  - intros H. destruct (find (fun t => DashboardTab.id t =? id) (tabs st)) as [old|] eqn:F;
      [|reflexivity].
    apply find_some in F. destruct F as [Hin Hid]. apply String.eqb_eq in Hid.
    exfalso. now apply (H old).
  - intros source ->.
    match goal with
    | |- context [uniqueSlug (tabs st) (slugify nowMs ?b)] => set (baseName := b)
    end.
    destruct (uniqueSlug_spec (tabs st) (slugify nowMs baseName)) as (k & E & Hk & Hor & _).
    destruct (slugify_wellformed nowMs baseName) as [Hne Hch].
    rewrite E. eexists. eexists. eexists. split; [reflexivity|]. simpl.
    repeat split; try assumption.
    + destruct Hor as [->|(j & _ & ->)]; [assumption|].
      unfold numbered. destruct (slugify nowMs baseName); [contradiction|discriminate].
    + destruct Hor as [->|(j & _ & ->)]; [assumption|now apply numbered_chars].
Qed.

Lemma duplicateTab_appends_witness :
  exists unique newTab st',
    duplicateTab 17 "iso" stateReports "sales" None = Some (Some unique, st') /\
    tabs st' = tabs stateReports ++ [newTab] /\
    DashboardTab.groupId newTab = Some "g".
Proof.
  destruct (proj2 (duplicateTab_appends 17 "iso" stateReports "sales" None)
              (sampleTab "sales" (Some "g")) eq_refl)
    as (unique & newTab & st' & E & Ht & _ & _ & _ & _ & _ & Hg & _).
  exists unique, newTab, st'. auto.
Defined.

End DashboardTabsOpsFacts.

(** ** Groups: creation, removal and renaming *)

Module GroupOpsFacts.
Import DashboardTabs DashboardTabsOps DashboardTabsFacts.


Lemma reachesRoot_orUndefined (n : nat) (gs : list TabGroup.t) (c : option string) :
  reachesRoot n gs (orUndefined c) = reachesRoot n gs c.
Proof.
  destruct n as [|n]; [reflexivity|]. unfold orUndefined.
  destruct (truthy c) eqn:T; [reflexivity|].
  rewrite !reachesRoot_unfold. destruct c as [i|]; [|reflexivity]. now rewrite T.
Qed.

Lemma findGroup_map_id (f : TabGroup.t -> TabGroup.t) (gs : list TabGroup.t) (i : string) :
  (forall g, TabGroup.id (f g) = TabGroup.id g) ->
  findGroup (map f gs) i = option_map f (findGroup gs i).
Proof.
  intros H. unfold findGroup. induction gs as [|g r IH]; [reflexivity|].
  simpl. rewrite H. now destruct (TabGroup.id g =? i).
Qed.

Lemma findGroup_filter_other (gs : list TabGroup.t) (groupId i : string) :
  i <> groupId ->
  findGroup (filter (fun g => negb (TabGroup.id g =? groupId)) gs) i = findGroup gs i.
Proof.
  intros N. unfold findGroup. induction gs as [|g r IH]; [reflexivity|]. simpl.
  destruct (String.eqb_spec (TabGroup.id g) groupId) as [E|E]; simpl.
  - rewrite IH. destruct (String.eqb_spec (TabGroup.id g) i); [congruence|reflexivity].
  - now rewrite IH.
Qed.

Lemma findGroup_filter_self (gs : list TabGroup.t) (groupId : string) :
  findGroup (filter (fun g => negb (TabGroup.id g =? groupId)) gs) groupId = None.
Proof.
  unfold findGroup. induction gs as [|g r IH]; [reflexivity|]. simpl.
  destruct (TabGroup.id g =? groupId) eqn:E; simpl; [exact IH|]. now rewrite E.
Qed.

Lemma removeGroup_groups (st : State) (groupId : string) :
  groups (removeGroup st groupId) =
  map (reparent (groups st) groupId)
      (filter (fun g => negb (TabGroup.id g =? groupId)) (groups st)).
Proof. reflexivity. Qed.

Lemma reparent_id gs groupId g : TabGroup.id (reparent gs groupId g) = TabGroup.id g.
Proof. unfold reparent. now destruct (opt_eqb (TabGroup.parentId g) (Some groupId)). Qed.

(** Every walk that stops in the groups list stops, within the same
    number of steps, in the list [removeGroup] leaves: the walk skips the
    removed group. *)
Lemma reachesRoot_removeGroup (st : State) (groupId : string) (n : nat) :
  groupId <> "" ->
  forall c, reachesRoot n (groups st) c = true ->
            reachesRoot n (groups (removeGroup st groupId)) c = true.
Proof.
  intros Ne. rewrite removeGroup_groups.
  set (gs := groups st).
  set (gs' := map (reparent gs groupId) (filter (fun g => negb (TabGroup.id g =? groupId)) gs)).
  induction n as [|n IH]; intros c H; [discriminate|].
  rewrite reachesRoot_unfold in H |- *.
  destruct c as [i|]; [|reflexivity].
  destruct (negb (truthy (Some i))); [reflexivity|].
  unfold gs' at 1. rewrite (findGroup_map_id _ _ _ (reparent_id gs groupId)).
  destruct (String.eqb_spec i groupId) as [->|N].
  - now rewrite findGroup_filter_self.
  - rewrite (findGroup_filter_other gs groupId i N).
    destruct (findGroup gs i) as [h|]; [|reflexivity]. simpl.
    unfold reparent.
    destruct (opt_eqb (TabGroup.parentId h) (Some groupId)) eqn:E; [|now apply IH].
    apply opt_eqb_eq in E. rewrite E in H. simpl.
    rewrite reachesRoot_orUndefined.
    destruct n as [|m]; [discriminate|].
    rewrite reachesRoot_unfold in H.
    assert (T : truthy (Some groupId) = true).
    { simpl. apply negb_true_iff. now apply String.eqb_neq. }
    rewrite T in H. simpl in H.
    destruct (findGroup gs groupId) as [r|]; [|reflexivity].
    apply IH. now apply reachesRoot_S.
Qed.

(** [removeGroup] keeps the [parentId] relation acyclic, for every
    non-empty group id. *)
Theorem removeGroup_acyclic (st : State) (groupId : string) :
  groupId <> "" -> acyclic (groups st) -> acyclic (groups (removeGroup st groupId)).
Proof.
  intros Ne A. apply acyclic_of_all. intros c.
  destruct (acyclic_from_any (groups st) c A) as [n Hn].
  exists n. now apply reachesRoot_removeGroup.
Qed.

Lemma removeGroup_acyclic_witness :
  "b" <> "" /\ acyclic (groups stateABC) /\
  acyclic (groups (removeGroup stateABC "b")).
Proof.
  assert (Ne : "b" <> "") by discriminate.
  assert (A : acyclic (groups stateABC)) by (apply acyclicb_sound; reflexivity).
  split; [exact Ne|]. split; [exact A|].
  exact (removeGroup_acyclic stateABC "b" Ne A).
Defined.

(** With the empty string as group id the invariant can break: the
    groups with [parentId] "" are roots, and [removeGroup("")] gives them
    the parent of the group whose id is "". *)
Lemma removeGroup_empty_id_cycle :
  acyclic [groupX; groupE] /\
  groups (removeGroup (mkState [] [groupX; groupE]) "") = [TabGroup.mk "x" "X" 0 (Some "x")] /\
  ~ acyclic (groups (removeGroup (mkState [] [groupX; groupE]) "")).
Proof.
  split; [apply acyclicb_sound; reflexivity|]. split; [reflexivity|].
  intros A. destruct (A (TabGroup.mk "x" "X" 0 (Some "x"))) as [n Hn]; [now left|].
  simpl in Hn. induction n as [|n IH]; [discriminate|]. apply IH. exact Hn.
Qed.

(** After [removeGroup(groupId)] no tab has [groupId] as its group and no
    group has [groupId] as id; and unless the removed group names itself
    as parent, no group has [groupId] as parent: nothing refers to the
    removed group any more. *)
Theorem removeGroup_no_reference (st : State) (groupId : string) :
  let st' := removeGroup st groupId in
  (forall t, In t (tabs st') -> DashboardTab.groupId t <> Some groupId) /\
  (forall g, In g (groups st') -> TabGroup.id g <> groupId) /\
  ((forall r, findGroup (groups st) groupId = Some r ->
              TabGroup.parentId r <> Some groupId) ->
   forall g, In g (groups st') -> TabGroup.parentId g <> Some groupId).
Proof.
  intros st'. split; [|split].
  - intros t Hin. simpl in Hin. apply in_map_iff in Hin. destruct Hin as (t0 & <- & _).
    destruct (opt_eqb (DashboardTab.groupId t0) (Some groupId)) eqn:E.
    + discriminate.
    + now apply opt_eqb_neq.
  - intros g Hin. unfold st' in Hin. rewrite removeGroup_groups in Hin.
    apply in_map_iff in Hin. destruct Hin as (g0 & <- & Hin).
    rewrite reparent_id. apply filter_In in Hin. destruct Hin as [_ Hin].
    now apply negb_true_iff, String.eqb_neq in Hin.
  - intros Hself g Hin. unfold st' in Hin. rewrite removeGroup_groups in Hin.
    apply in_map_iff in Hin. destruct Hin as (g0 & <- & _). unfold reparent.
    destruct (opt_eqb (TabGroup.parentId g0) (Some groupId)) eqn:E;
      [|now apply opt_eqb_neq].
    simpl. destruct (findGroup (groups st) groupId) as [r|]; [|discriminate].
    specialize (Hself r eq_refl). unfold orUndefined.
    destruct (truthy (TabGroup.parentId r)); [assumption|discriminate].
Qed.

Lemma removeGroup_no_reference_witness :
  (forall r, findGroup (groups stateABCt) "b" = Some r ->
             TabGroup.parentId r <> Some "b") /\
  forall g, In g (groups (removeGroup stateABCt "b")) -> TabGroup.parentId g <> Some "b".
Proof.
  assert (H : forall r, findGroup (groups stateABCt) "b" = Some r ->
                        TabGroup.parentId r <> Some "b").
  { intros r E. simpl in E. injection E as <-. discriminate. }
  split; [exact H|].
  exact (proj2 (proj2 (removeGroup_no_reference stateABCt "b")) H).
Defined.




Lemma findGroup_app (gs1 gs2 : list TabGroup.t) (i : string) :
  findGroup (gs1 ++ gs2) i =
  match findGroup gs1 i with
  | Some g => Some g
  | None => findGroup gs2 i
  end.
Proof.
  unfold findGroup. induction gs1 as [|g r IH]; [reflexivity|]. simpl.
  now destruct (TabGroup.id g =? i).
Qed.

Lemma reachesRoot_snoc (gs : list TabGroup.t) (g : TabGroup.t) (n : nat) :
  (forall h, In h gs -> TabGroup.parentId h <> Some (TabGroup.id g)) ->
  forall c, c <> Some (TabGroup.id g) ->
            reachesRoot n gs c = true -> reachesRoot n (gs ++ [g]) c = true.
Proof.
  intros Href. induction n as [|n IH]; intros c Nc H; [discriminate|].
  rewrite reachesRoot_unfold in H |- *.
  destruct c as [i|]; [|reflexivity].
  destruct (negb (truthy (Some i))); [reflexivity|].
  rewrite findGroup_app. destruct (findGroup gs i) as [h|] eqn:F.
  - apply IH; [|exact H]. apply Href. now apply (findGroup_In _ _ _ F).
  - unfold findGroup. simpl.
    destruct (String.eqb_spec (TabGroup.id g) i) as [E|_]; [congruence|reflexivity].
Qed.

(** [addGroup] keeps the [parentId] relation acyclic when the generated
    id is not yet referred to as a parent, by an existing group or by
    the [parentId] argument. *)
Theorem addGroup_acyclic (newId : string) (st : State) (name : string)
    (parentId : option string) :
  (forall h, In h (groups st) -> TabGroup.parentId h <> Some newId) ->
  parentId <> Some newId ->
  acyclic (groups st) ->
  acyclic (groups (snd (addGroup newId st name parentId))).
Proof.
  intros Href Np A. simpl.
  set (g := TabGroup.mk newId name
              (plusOne (maxOrder (filter (sameLevel parentId) (groups st))))
              (orUndefined parentId)).
  assert (Ng : orUndefined parentId <> Some newId).
  { unfold orUndefined. destruct (truthy parentId); [assumption|discriminate]. }
  intros h Hin. apply in_app_or in Hin. destruct Hin as [Hin|[<-|[]]].
  - destruct (A h Hin) as [n Hn]. exists n.
    apply (reachesRoot_snoc (groups st) g n Href); [now apply Href|exact Hn].
  - destruct (acyclic_from_any (groups st) (orUndefined parentId) A) as [n Hn].
    exists n. now apply (reachesRoot_snoc (groups st) g n Href).
Qed.

Lemma addGroup_acyclic_witness :
  acyclic (groups stateABC) /\
  acyclic (groups (snd (addGroup "d" stateABC "D" (Some "c")))).
Proof.
  assert (A : acyclic (groups stateABC)) by (apply acyclicb_sound; reflexivity).
  split; [exact A|].
  apply (addGroup_acyclic "d" stateABC "D" (Some "c")).
  - intros h [<-|[<-|[<-|[]]]]; discriminate.
  - discriminate.
  - exact A.
Defined.

(** Removing the group [addGroup] has just created gives back the state
    from before the creation, when the generated id is fresh: the id of
    no group, the parent of no group and the group of no tab. *)
Theorem removeGroup_addGroup (newId : string) (st : State) (name : string)
    (parentId : option string) :
  (forall h, In h (groups st) ->
     TabGroup.id h <> newId /\ TabGroup.parentId h <> Some newId) ->
  (forall t, In t (tabs st) -> DashboardTab.groupId t <> Some newId) ->
  removeGroup (snd (addGroup newId st name parentId)) newId = st.
Proof.
  intros Hg Ht. destruct st as [ts gs]. simpl in Hg, Ht.
  unfold removeGroup, addGroup, save. simpl. f_equal.
  - transitivity (map (fun t => t) ts); [|apply map_id].
    apply map_ext_in. intros t Hin.
    apply Ht in Hin. apply opt_eqb_neq in Hin. now rewrite Hin.
  - rewrite filter_app. simpl. rewrite String.eqb_refl. simpl. rewrite app_nil_r.
    rewrite (filter_all (fun g => negb (TabGroup.id g =? newId)) gs).
    + transitivity (map (fun h => h) gs); [|apply map_id].
      apply map_ext_in. intros h Hin.
      apply Hg in Hin. destruct Hin as [_ Hin]. apply opt_eqb_neq in Hin.
      now rewrite Hin.
    + intros h Hin. apply Hg in Hin. destruct Hin as [Hin _].
      apply negb_true_iff. now apply String.eqb_neq.
Qed.

Lemma removeGroup_addGroup_witness :
  removeGroup (snd (addGroup "d" stateABCt "D" (Some "c"))) "d" = stateABCt.
Proof.
  apply (removeGroup_addGroup "d" stateABCt "D" (Some "c")).
  - intros h [<-|[<-|[<-|[]]]]; split; discriminate.
  - intros t [<-|[]]. discriminate.
Defined.

(** [renameGroup] changes the name of the groups with the given id and
    nothing else: tabs, ids, orders, parents and positions are kept, and
    the [parentId] relation stays acyclic. *)
Theorem renameGroup_frame (st : State) (groupId name : string) :
  let st' := renameGroup st groupId name in
  tabs st' = tabs st /\
  Forall2 (fun g g' => if TabGroup.id g =? groupId
                       then g' = withGroupName g name else g' = g)
          (groups st) (groups st') /\
  (acyclic (groups st) -> acyclic (groups st')).
Proof.
  intros st'. split; [reflexivity|]. split.
  - simpl. apply Forall2_map_r. intros g. now destruct (TabGroup.id g =? groupId).
  - intros A. simpl.
    set (f := fun g => if TabGroup.id g =? groupId then withGroupName g name else g).
    assert (Fid : forall g, TabGroup.id (f g) = TabGroup.id g).
    { intros g. unfold f. now destruct (TabGroup.id g =? groupId). }
    assert (Fp : forall g, TabGroup.parentId (f g) = TabGroup.parentId g).
    { intros g. unfold f. now destruct (TabGroup.id g =? groupId). }
    assert (R : forall n c, reachesRoot n (groups st) c = true ->
                            reachesRoot n (map f (groups st)) c = true).
    { induction n as [|n IH]; intros c H; [discriminate|].
      rewrite reachesRoot_unfold in H |- *.
      destruct c as [i|]; [|reflexivity].
      destruct (negb (truthy (Some i))); [reflexivity|].
      rewrite (findGroup_map_id f _ _ Fid).
      destruct (findGroup (groups st) i) as [h|]; [|reflexivity].
      simpl. rewrite Fp. now apply IH. }
    apply acyclic_of_all. intros c.
    destruct (acyclic_from_any (groups st) c A) as [n Hn]. exists n. now apply R.
Qed.

Lemma renameGroup_frame_witness :
  acyclic (groups stateABC) /\ acyclic (groups (renameGroup stateABC "b" "Beta")).
Proof.
  assert (A : acyclic (groups stateABC)) by (apply acyclicb_sound; reflexivity).
  split; [exact A|].
  exact (proj2 (proj2 (renameGroup_frame stateABC "b" "Beta")) A).
Defined.

End GroupOpsFacts.

(** ** Undoing a reorder *)

Section Undo.

Context {A : Type}.

Lemma removeAt_middle (l1 l2 : list A) (x : A) :
  removeAt (List.length l1) (l1 ++ x :: l2) = l1 ++ l2.
Proof.
  induction l1 as [|a r IH]; [reflexivity|].
  change (a :: removeAt (List.length r) (r ++ x :: l2) = a :: r ++ l2). now rewrite IH.
Qed.

Lemma insertAt_middle (l1 l2 : list A) (x : A) :
  insertAt (List.length l1) x (l1 ++ l2) = l1 ++ x :: l2.
Proof.
  induction l1 as [|a r IH]; [reflexivity|].
  change (a :: insertAt (List.length r) x (r ++ l2) = a :: r ++ x :: l2). now rewrite IH.
Qed.

Lemma insertAt_removeAt (i : nat) (x : A) (l : list A) :
  nth_error l i = Some x -> insertAt i x (removeAt i l) = l.
Proof.
  intros H. destruct (nth_error_split l i H) as (l1 & l2 & -> & <-).
  rewrite removeAt_middle. apply insertAt_middle.
Qed.

(** Moving an element from [fromIndex] to [toIndex] and then from
    [toIndex] to [fromIndex] gives the list back. *)
Lemma spliceMove_undo (l : list A) (fromIndex toIndex : nat) :
  fromIndex < List.length l -> toIndex < List.length l ->
  exists r, spliceMove l fromIndex toIndex = Some r /\
            spliceMove r toIndex fromIndex = Some l.
Proof.
  intros Hf Ht.
  destruct (spliceMove_spec l fromIndex toIndex Hf Ht) as (r & E & Hn & Hr & _).
  exists r. split; [exact E|]. unfold spliceMove. rewrite Hn.
  destruct (nth_error l fromIndex) as [x|] eqn:Ex; [|apply nth_error_None in Ex; lia].
  rewrite Hr. f_equal. now apply insertAt_removeAt.
Qed.

Lemma Forall2_nth_error {B : Type} (R : A -> B -> Prop) (l : list A) (l' : list B) :
  Forall2 R l l' ->
  forall i, match nth_error l i, nth_error l' i with
            | Some x, Some y => R x y
            | None, None => True
            | _, _ => False
            end.
Proof.
  induction 1 as [|x y l l' Hxy H IH]; intros [|i]; simpl; auto. apply IH.
Qed.

Lemma Forall2_insertAt {B : Type} (R : A -> B -> Prop) (i : nat) (x : A) (y : B)
    (l : list A) (l' : list B) :
  R x y -> Forall2 R l l' -> Forall2 R (insertAt i x l) (insertAt i y l').
Proof.
  intros Hxy H. revert i. induction H as [|a b l l' Hab H IH]; intros i.
  - unfold insertAt. rewrite !firstn_nil, !skipn_nil. simpl. now repeat constructor.
  - destruct i as [|i].
    + unfold insertAt. simpl. now repeat constructor.
    + change (Forall2 R (a :: insertAt i x l) (b :: insertAt i y l')).
      constructor; [assumption|apply IH].
Qed.

(** [spliceMove] acts alike on two lists related element by element. *)
Lemma Forall2_spliceMove {B : Type} (R : A -> B -> Prop) (i j : nat)
    (l r : list A) (l' : list B) :
  Forall2 R l l' -> spliceMove l i j = Some r ->
  exists r', spliceMove l' i j = Some r' /\ Forall2 R r r'.
Proof.
  intros H E. unfold spliceMove in *. pose proof (Forall2_nth_error R l l' H i) as Hi.
  destruct (nth_error l i) as [x|]; [|discriminate].
  destruct (nth_error l' i) as [y|]; [|contradiction].
  injection E as <-. eexists. split; [reflexivity|].
  apply Forall2_insertAt; [assumption|]. now apply Forall2_removeAt.
Qed.

End Undo.

Module UndoFacts.

Lemma filter_app_parts {A : Type} (p q : A -> bool) (l1 l2 : list A) :
  (forall x, In x l1 -> p x = false) -> (forall x, In x l2 -> p x = true) ->
  filter p (l1 ++ l2) = l2.
Proof.
  intros H1 H2. rewrite filter_app, (filter_none p l1 H1), (filter_all p l2 H2).
  reflexivity.
Qed.

(** Reordering the tabs of a group from [fromIndex] to [toIndex] and
    then from [toIndex] to [fromIndex] restores the sequence of the
    tabs of the group; the tabs list is then the tabs outside the group
    followed by the tabs of the group, each part in its original
    sequence. *)
Theorem reorderTabs_undo (st : DashboardTabs.State) (fromIndex toIndex : nat)
    (groupId : option string) :
  let groupTabs := filter (DashboardTabs.inGroup groupId) (DashboardTabs.tabs st) in
  let otherTabs := filter (DashboardTabs.notInGroup groupId) (DashboardTabs.tabs st) in
  fromIndex < List.length groupTabs -> toIndex < List.length groupTabs ->
  exists st1 st2,
    DashboardTabs.reorderTabs st fromIndex toIndex groupId = Some st1 /\
    DashboardTabs.reorderTabs st1 toIndex fromIndex groupId = Some st2 /\
    DashboardTabs.tabs st2 = otherTabs ++ groupTabs /\
    DashboardTabs.groups st2 = DashboardTabs.groups st /\
    filter (DashboardTabs.inGroup groupId) (DashboardTabs.tabs st2) = groupTabs.
Proof.
  intros groupTabs otherTabs Hf Ht.
  destruct (spliceMove_undo groupTabs fromIndex toIndex Hf Ht) as (r & E1 & E2).
  destruct (spliceMove_spec groupTabs fromIndex toIndex Hf Ht) as (r0 & E0 & _ & _ & P).
  rewrite E1 in E0. injection E0 as <-.
  assert (Hin : forall x, In x groupTabs -> DashboardTabs.inGroup groupId x = true).
  { intros x Hx. unfold groupTabs in Hx. now apply filter_In in Hx. }
  assert (Hout : forall x, In x otherTabs -> DashboardTabs.inGroup groupId x = false).
  { intros x Hx. unfold otherTabs in Hx. apply filter_In in Hx. destruct Hx as [_ Hx].
    rewrite DashboardTabsFacts.notInGroup_negb in Hx. now apply negb_true_iff. }
  assert (Hr : forall x, In x r -> DashboardTabs.inGroup groupId x = true).
  { intros x Hx. apply Hin. now apply (Permutation_in _ (Permutation_sym P)). }
  assert (F1 : filter (DashboardTabs.inGroup groupId) (otherTabs ++ r) = r)
    by now apply (filter_app_parts _ (DashboardTabs.inGroup groupId)).
  assert (F2 : filter (DashboardTabs.notInGroup groupId) (otherTabs ++ r) = otherTabs).
  { rewrite filter_app, (filter_none _ r), app_nil_r.
    - apply filter_all. intros x Hx. rewrite DashboardTabsFacts.notInGroup_negb.
      apply negb_true_iff. now apply Hout.
    - intros x Hx. rewrite DashboardTabsFacts.notInGroup_negb.
      apply negb_false_iff. now apply Hr. }
  eexists. eexists. split.
  - unfold DashboardTabs.reorderTabs. fold groupTabs. fold otherTabs. rewrite E1. reflexivity.
  - unfold DashboardTabs.reorderTabs. simpl. rewrite F1, F2, E2. simpl.
    repeat split. now apply (filter_app_parts _ (DashboardTabs.inGroup groupId)).
Qed.

Lemma reorderTabs_undo_witness :
  exists st1 st2,
    DashboardTabs.reorderTabs DashboardTabs.stateTabs 0 1 (Some "g") = Some st1 /\
    DashboardTabs.reorderTabs st1 1 0 (Some "g") = Some st2 /\
    filter (DashboardTabs.inGroup (Some "g")) (DashboardTabs.tabs st2) =
      filter (DashboardTabs.inGroup (Some "g")) (DashboardTabs.tabs DashboardTabs.stateTabs).
Proof.
  destruct (reorderTabs_undo DashboardTabs.stateTabs 0 1 (Some "g"))
    as (st1 & st2 & E1 & E2 & _ & _ & F).
  - simpl. lia.
  - simpl. lia.
  - exists st1, st2. auto.
Defined.

End UndoFacts.

(** ** Inputs: keys that are kept, the displayed order, loading *)

Module TabInputsOpsFacts.
Import TabInputs TabInputsOps TabInputsFacts.

Lemma isKeyChar_facts (c : ascii) :
  isKeyChar c = true -> lowerChar c = c /\ isWhitespace c = false.
Proof. destruct c as [[] [] [] [] [] [] [] []]; intros H; try discriminate H; split; reflexivity. Qed.

Lemma toLowerCase_key (s : string) :
  allChars isKeyChar s = true -> toLowerCase s = s.
Proof.
  induction s as [|c r IH]; [reflexivity|]. simpl. intros H.
  apply andb_true_iff in H. destruct H as [Hc Hr].
  destruct (isKeyChar_facts c Hc) as [-> _]. now rewrite IH.
Qed.

Lemma replaceWhitespaceRuns_key (s : string) :
  allChars isKeyChar s = true -> replaceWhitespaceRuns s = s.
Proof.
  induction s as [|c r IH]; [reflexivity|]. cbn [allChars replaceWhitespaceRuns].
  intros H. apply andb_true_iff in H. destruct H as [Hc Hr].
  destruct (isKeyChar_facts c Hc) as [_ ->]. now rewrite IH.
Qed.

Lemma removeNonKeyChars_key (s : string) :
  allChars isKeyChar s = true -> removeNonKeyChars s = s.
Proof.
  induction s as [|c r IH]; [reflexivity|]. simpl. intros H.
  apply andb_true_iff in H. destruct H as [Hc Hr]. now rewrite Hc, IH.
Qed.

Lemma slice0_short (n : nat) (s : string) : String.length s <= n -> slice0 n s = s.
Proof.
  revert s. induction n as [|n IH]; intros [|c r] H; simpl in *; try reflexivity; try lia.
  rewrite IH; [reflexivity|lia].
Qed.

Lemma sanitizeKey_fixed (k : string) :
  allChars isKeyChar k = true -> String.length k <= 50 -> sanitizeKey k = k.
Proof.
  intros H L. unfold sanitizeKey.
  rewrite (toLowerCase_key k H), (replaceWhitespaceRuns_key k H),
    (removeNonKeyChars_key k H). now apply slice0_short.
Qed.

(** [sanitizeKey] is idempotent, and [ensureUniqueKey] gives back, as it
    is, a desired key that is already well formed (non-empty, lowercase
    letters, digits and underscores, at most 50 characters) and that no
    other input has. *)
Theorem ensureUniqueKey_keeps (inputs : list TabInput.t) (k : string)
    (excludeId : option string) :
  (forall s, sanitizeKey (sanitizeKey s) = sanitizeKey s) /\
  (k <> "" -> allChars isKeyChar k = true -> String.length k <= 50 ->
   ~ In k (existingKeys inputs excludeId) ->
   ensureUniqueKey inputs k excludeId = Some k).
Proof.
  split.
  - intros s. apply sanitizeKey_fixed; [apply sanitizeKey_chars|apply sanitizeKey_length].
  - intros Ne H L Hfree.
    assert (C : candidateOf k = k).
    { unfold candidateOf. rewrite (sanitizeKey_fixed k H L).
      apply String.eqb_neq in Ne. now rewrite Ne. }
    rewrite <- C at 2. apply ensureUniqueKey_free. now rewrite C.
Qed.

Lemma ensureUniqueKey_keeps_witness :
  ensureUniqueKey [inputA] "start_date" None = Some "start_date".
Proof.
  apply (proj2 (ensureUniqueKey_keeps [inputA] "start_date" None)).
  - discriminate.
  - reflexivity.
  - simpl. lia.
  - simpl. intuition discriminate.
Defined.

Lemma insertByOrder_perm (x : TabInput.t) (l : list TabInput.t) :
  Permutation (x :: l) (insertByOrder x l).
Proof.
  induction l as [|y r IH]; simpl; [reflexivity|].
  destruct (orderOf x <=? orderOf y)%Z; [reflexivity|].
  rewrite perm_swap. now constructor.
Qed.

Lemma insertByOrder_sorted (x : TabInput.t) (l : list TabInput.t) :
  Sorted byOrder l -> Sorted byOrder (insertByOrder x l).
Proof.
  induction l as [|y r IH]; intros S; simpl; [repeat constructor|].
  destruct (Z.leb_spec (orderOf x) (orderOf y)) as [Hle|Hgt].
  - constructor; [assumption|]. now constructor.
  - inversion S as [|? ? Sr Hd]; subst. constructor; [now apply IH|].
    destruct r as [|z r']; simpl.
    + constructor. unfold byOrder. lia.
    + destruct (orderOf x <=? orderOf z)%Z; constructor.
      * unfold byOrder. lia.
      * now inversion Hd.
Qed.

Lemma insertByOrder_stable (o : Z) (x : TabInput.t) (l : list TabInput.t) :
  filter (fun i => (orderOf i =? o)%Z) (insertByOrder x l) =
  filter (fun i => (orderOf i =? o)%Z) (x :: l).
Proof.
  induction l as [|y r IH]; [reflexivity|]. cbn [insertByOrder].
  destruct (Z.leb_spec (orderOf x) (orderOf y)) as [Hle|Hgt]; [reflexivity|].
  cbn [filter] in *. rewrite IH.
  destruct (Z.eqb_spec (orderOf x) o), (Z.eqb_spec (orderOf y) o); try reflexivity. lia.
Qed.

(** [sortedInputs], the list the hook shows, is a permutation of the
    inputs in non-decreasing order (an input without order counts as 0),
    and the sort is stable: the inputs of any one order are in the
    sequence they had. *)
Theorem sortedInputs_sorts (inputs : list TabInput.t) :
  Permutation inputs (sortedInputs inputs) /\
  Sorted byOrder (sortedInputs inputs) /\
  forall o, filter (fun i => (orderOf i =? o)%Z) (sortedInputs inputs) =
            filter (fun i => (orderOf i =? o)%Z) inputs.
Proof.
  induction inputs as [|x r (P & S & F)]; simpl.
  - repeat split; constructor.
  - split; [|split].
    + rewrite <- insertByOrder_perm. now constructor.
    + now apply insertByOrder_sorted.
    + intros o. rewrite insertByOrder_stable. cbn [filter]. now rewrite F.
Qed.

Lemma numbered_sorted (l : list TabInput.t) (k : nat) :
  numberedFrom k l -> sortedInputs l = l.
Proof.
  revert k. induction l as [|x r IH]; intros k H; [reflexivity|].
  destruct H as [Hx Hr]. simpl. rewrite (IH _ Hr).
  destruct r as [|y r']; [reflexivity|]. simpl.
  destruct Hr as [Hy _]. unfold orderOf. rewrite Hx, Hy.
  destruct (Z.leb_spec (Z.of_nat k) (Z.of_nat (S k))); [reflexivity|lia].
Qed.

Lemma numbered_mapi (f : TabInput.t -> nat -> TabInput.t) (k : nat) (l : list TabInput.t) :
  (forall x i, TabInput.order (f x i) = Some (Z.of_nat i)) ->
  numberedFrom k (mapi_from f k l).
Proof.
  intros H. revert k. induction l as [|x r IH]; intros k; simpl; [exact I|].
  split; [apply H|apply IH].
Qed.

Lemma numbered_app (k : nat) (l : list TabInput.t) (x : TabInput.t) :
  numberedFrom k l -> TabInput.order x = Some (Z.of_nat (k + List.length l)) ->
  numberedFrom k (l ++ [x]).
Proof.
  revert k. induction l as [|y r IH]; intros k H Hx; simpl in *.
  - rewrite Nat.add_0_r in Hx. auto.
  - destruct H as [Hy Hr]. split; [assumption|]. apply IH; [assumption|].
    now rewrite Nat.add_succ_r in Hx.
Qed.

Lemma withOrder_same (x : TabInput.t) : withOrder x (TabInput.order x) = x.
Proof. now destruct x. Qed.

Lemma numbered_renumber (k : nat) (l : list TabInput.t) :
  numberedFrom k l ->
  mapi_from (fun x i => withOrder x (Some (Z.of_nat i))) k l = l.
Proof.
  revert k. induction l as [|x r IH]; intros k H; [reflexivity|].
  destruct H as [Hx Hr]. simpl. rewrite (IH _ Hr), <- Hx. now rewrite withOrder_same.
Qed.

Lemma numbered_loaded (k : nat) (l : list TabInput.t) :
  numberedFrom k l ->
  mapi_from (fun x i => withOrder x (orElse (TabInput.order x) (Some (Z.of_nat i)))) k l = l.
Proof.
  revert k. induction l as [|x r IH]; intros k H; [reflexivity|].
  destruct H as [Hx Hr]. simpl. rewrite (IH _ Hr), Hx. simpl.
  rewrite <- Hx. now rewrite withOrder_same.
Qed.

Lemma map_mapi_from {A B C : Type} (g : B -> C) (h : A -> C) (f : A -> nat -> B)
    (k : nat) (l : list A) :
  (forall x i, g (f x i) = h x) -> map g (mapi_from f k l) = map h l.
Proof.
  intros H. revert k. induction l as [|x r IH]; intros k; [reflexivity|].
  simpl. now rewrite H, IH.
Qed.

Lemma renumber_reordered (k : nat) (a b : list TabInput.t) :
  Forall2 reordered a b ->
  mapi_from (fun x i => withOrder x (Some (Z.of_nat i))) k a =
  mapi_from (fun x i => withOrder x (Some (Z.of_nat i))) k b.
Proof.
  intros H. revert k. induction H as [|x y a b Hxy H IH]; intros k; [reflexivity|].
  simpl. rewrite IH. f_equal. unfold reordered in Hxy. rewrite Hxy. reflexivity.
Qed.

(** The list the hook shows after an edit is the list the edit saved:
    [removeInput] and [reorderInputs] (with different indices) save
    inputs whose orders are their positions, and so does [addInput] on
    inputs whose orders are their positions; sorting them by order
    changes nothing. *)
Theorem edits_keep_display_order (inputs : list TabInput.t) :
  (forall id, sortedInputs (removeInput inputs id) = removeInput inputs id) /\
  (forall fromIndex toIndex r,
     fromIndex <> toIndex -> reorderInputs inputs fromIndex toIndex = Some r ->
     sortedInputs r = r) /\
  (forall tabId DEFAULT_LABEL now newId payload r inputs',
     numberedFrom 0 inputs ->
     addInput tabId DEFAULT_LABEL now newId inputs payload = Some (r, inputs') ->
     numberedFrom 0 inputs' /\ sortedInputs inputs' = inputs').
Proof.
  split; [|split].
  - intros id. apply (numbered_sorted _ 0). unfold removeInput, mapi.
    apply numbered_mapi. reflexivity.
  - intros fromIndex toIndex r N E. unfold reorderInputs in E.
    apply Nat.eqb_neq in N. rewrite N in E.
    destruct (spliceMove inputs fromIndex toIndex) as [m|]; [|discriminate].
    injection E as <-. apply (numbered_sorted _ 0). unfold mapi.
    apply numbered_mapi. reflexivity.
  - intros tabId DEFAULT_LABEL now newId payload r inputs' Hn E.
    assert (H : numberedFrom 0 inputs'); [|split; [exact H|exact (numbered_sorted _ 0 H)]].
    unfold addInput in E. destruct tabId as [tid|]; [|now injection E as <- <-].
    destruct (negb (truthy (Some tid))); [now injection E as <- <-|].
    match type of E with
    | context [ensureUniqueKey inputs ?d None] =>
        destruct (ensureUniqueKey inputs d None) as [k|]; [|discriminate]
    end.
    injection E as <- <-. now apply numbered_app.
Qed.

Lemma edits_keep_display_order_witness :
  numberedFrom 0 [inputA; inputC] /\
  exists r inputs',
    addInput (Some "tab") "label" "now" "new" [inputA; inputC] None = Some (r, inputs') /\
    sortedInputs inputs' = inputs'.
Proof.
  assert (Hn : numberedFrom 0 [inputA; inputC]) by (simpl; auto).
  split; [exact Hn|]. eexists. eexists. split; [reflexivity|].
  exact (proj2 (proj2 (proj2 (edits_keep_display_order [inputA; inputC]))
                  (Some "tab") "label" "now" "new" None _ _ Hn eq_refl)).
Defined.

(** [reorderInputs(toIndex, fromIndex)] undoes
    [reorderInputs(fromIndex, toIndex)]: the second call gives the
    original inputs in their sequence, with their orders set to their
    positions, hence the original list itself when its orders were its
    positions. *)
Theorem reorderInputs_undo (inputs : list TabInput.t) (fromIndex toIndex : nat) :
  fromIndex < List.length inputs -> toIndex < List.length inputs ->
  fromIndex <> toIndex ->
  exists r,
    reorderInputs inputs fromIndex toIndex = Some r /\
    reorderInputs r toIndex fromIndex =
      Some (mapi (fun x i => withOrder x (Some (Z.of_nat i))) inputs) /\
    (numberedFrom 0 inputs -> reorderInputs r toIndex fromIndex = Some inputs).
Proof.
  intros Hf Ht N.
  destruct (spliceMove_undo inputs fromIndex toIndex Hf Ht) as (m & E1 & E2).
  set (f := fun (x : TabInput.t) (i : nat) => withOrder x (Some (Z.of_nat i))).
  assert (F : Forall2 reordered m (mapi f m)).
  { apply Forall2_mapi_from. intros x i. reflexivity. }
  destruct (Forall2_spliceMove reordered toIndex fromIndex m inputs (mapi f m) F E2)
    as (r' & E3 & F').
  assert (R : reorderInputs (mapi f m) toIndex fromIndex = Some (mapi f inputs)).
  { unfold reorderInputs. assert (N' : toIndex <> fromIndex) by congruence.
    apply Nat.eqb_neq in N'. rewrite N', E3. f_equal. symmetry.
    apply renumber_reordered, F'. }
  exists (mapi f m). split; [|split].
  - unfold reorderInputs. apply Nat.eqb_neq in N. now rewrite N, E1.
  - exact R.
  - intros Hn. rewrite R. f_equal. now apply numbered_renumber.
Qed.

Lemma reorderInputs_undo_witness :
  exists r,
    reorderInputs [inputA; inputC] 0 1 = Some r /\
    reorderInputs r 1 0 = Some [inputA; inputC].
Proof.
  destruct (reorderInputs_undo [inputA; inputC] 0 1) as (r & E1 & _ & E2).
  - simpl. lia.
  - simpl. lia.
  - lia.
  - exists r. split; [exact E1|]. apply E2. simpl. auto.
Defined.

(** [setInputValue] sets the value (and the update time) of the inputs
    with the given id and changes nothing else: ids, keys and orders
    stay in place, so distinct keys stay distinct; with no input of that
    id the list is unchanged. *)
Theorem setInputValue_frame (now : string) (inputs : list TabInput.t) (id value : string) :
  let r := setInputValue now inputs id value in
  map TabInput.id r = map TabInput.id inputs /\
  map TabInput.key r = map TabInput.key inputs /\
  map TabInput.order r = map TabInput.order inputs /\
  Forall2 (fun x x' => if TabInput.id x =? id
                       then x' = withValue x (Some value) (Some now) else x' = x)
          inputs r /\
  ((forall x, In x inputs -> TabInput.id x <> id) -> r = inputs).
Proof.
  intros r. unfold r, setInputValue.
  repeat split.
  - rewrite map_map. apply map_ext. intros x. now destruct (TabInput.id x =? id).
  - rewrite map_map. apply map_ext. intros x. now destruct (TabInput.id x =? id).
  - rewrite map_map. apply map_ext. intros x. now destruct (TabInput.id x =? id).
  - apply Forall2_map_r. intros x. now destruct (TabInput.id x =? id).
  - intros H. transitivity (map (fun x => x) inputs); [|apply map_id].
    apply map_ext_in. intros x Hx. apply H in Hx. apply String.eqb_neq in Hx.
    now rewrite Hx.
Qed.

Lemma setInputValue_frame_witness :
  (forall x, In x [inputA; inputC] -> TabInput.id x <> "z") /\
  setInputValue "now" [inputA; inputC] "z" "v" = [inputA; inputC].
Proof.
  assert (H : forall x, In x [inputA; inputC] -> TabInput.id x <> "z").
  { intros x [<-|[<-|[]]]; discriminate. }
  split; [exact H|].
  exact (proj2 (proj2 (proj2 (proj2 (setInputValue_frame "now" [inputA; inputC] "z" "v")))) H).
Defined.

(** [loadInputs] gives the empty list without a tab id, on a failed or
    rejected request and on a body without an array.  Otherwise it gives
    the inputs received, in their sequence: an input that has an order
    is unchanged, and an input without order gets its position as
    order, so every loaded input has an order. *)
Theorem loadInputs_orders (tabId : option string) (response : FetchResult) :
  (truthy tabId = false -> loadInputs tabId response = []) /\
  (response = FetchThrows \/ response = NotOk \/ response = Ok None ->
   loadInputs tabId response = []) /\
  (truthy tabId = true ->
   forall l,
     List.length (loadInputs tabId (Ok (Some l))) = List.length l /\
     forall i x, nth_error l i = Some x ->
       exists x', nth_error (loadInputs tabId (Ok (Some l))) i = Some x' /\
                  reordered x x' /\
                  (TabInput.order x <> None -> x' = x) /\
                  (TabInput.order x = None -> TabInput.order x' = Some (Z.of_nat i))).
Proof.
  unfold loadInputs. split; [|split].
  - now intros ->.
  - destruct (negb (truthy tabId)); [reflexivity|]. now intros [->|[->| ->]].
  - intros -> l. simpl. unfold mapi. split; [apply length_mapi_from|].
    intros i x Hx. rewrite nth_error_mapi_from, Hx. simpl.
    eexists. split; [reflexivity|]. split; [reflexivity|].
    destruct (TabInput.order x) as [o|] eqn:O; simpl.
    + split; [|discriminate]. intros _. rewrite <- O. apply withOrder_same.
    + split; [congruence|reflexivity].
Qed.

Lemma loadInputs_orders_witness :
  List.length (loadInputs (Some "tab") (Ok (Some [sampleInput "a" "a" None]))) = 1.
Proof.
  exact (proj1 (proj2 (proj2 (loadInputs_orders (Some "tab") NotOk)) eq_refl
                  [sampleInput "a" "a" None])).
Defined.

(** What [POST] stores comes back unchanged: when [GET] finds the
    document that [POST] asked to store, [loadInputs] gives exactly the
    stored inputs, and the hook shows them in the sequence in which they
    were submitted. *)
Theorem stored_inputs_round_trip (t now nowDate : string) (l : list TabInput.t)
    (updateOne : Route.Upsert -> Route.Outcome unit) :
  t <> "" ->
  exists stored,
    snd (Route.POST (Route.Resolved (Route.mkBody (Some t) (Route.IsArray l)))
           (Route.Resolved tt) updateOne now nowDate)
      = [Route.mkUpsert t t stored nowDate] /\
    Route.GET (Route.Resolved tt)
      (fun _ => Route.Resolved (Some (Route.mkDoc (Some stored)))) (Some t)
      = Route.json (Route.InputsBody t stored) /\
    loadInputs (Some t) (Ok (Some stored)) = stored /\
    sortedInputs (loadInputs (Some t) (Ok (Some stored))) = stored /\
    map TabInput.id stored = map TabInput.id l /\
    map TabInput.key stored = map TabInput.key l.
Proof.
  intros N. apply RouteFacts.truthy_Some in N.
  set (stored := mapi (Route.sanitizeInput t now) l).
  assert (Hn : numberedFrom 0 stored).
  { unfold stored, mapi. apply numbered_mapi. reflexivity. }
  assert (L : loadInputs (Some t) (Ok (Some stored)) = stored).
  { unfold loadInputs. rewrite N. simpl. unfold mapi. now apply numbered_loaded. }
  exists stored. split; [|split; [|split; [|split; [|split]]]].
  - unfold Route.POST. cbn [Route.b_tabId Route.b_inputs]. rewrite N.
    cbn [negb]. fold stored.
    destruct (updateOne (Route.mkUpsert t t stored nowDate)); reflexivity.
  - unfold Route.GET. rewrite N. reflexivity.
  - exact L.
  - rewrite L. exact (numbered_sorted _ 0 Hn).
  - unfold stored, mapi. apply map_mapi_from. reflexivity.
  - unfold stored, mapi. apply map_mapi_from. reflexivity.
Qed.

Lemma stored_inputs_round_trip_witness :
  exists stored,
    snd (Route.POST (Route.Resolved (Route.mkBody (Some "tab")
                                       (Route.IsArray [Route.inputFromClient])))
           (Route.Resolved tt) (fun _ => Route.Resolved tt) "now" "date")
      = [Route.mkUpsert "tab" "tab" stored "date"] /\
    sortedInputs (loadInputs (Some "tab") (Ok (Some stored))) = stored.
Proof.
  assert (N : "tab" <> "") by discriminate.
  destruct (stored_inputs_round_trip "tab" "now" "date" [Route.inputFromClient]
              (fun _ => Route.Resolved tt) N) as (stored & E & _ & _ & S & _).
  exists stored. split; [exact E|exact S].
Defined.

(** [updateInput] always returns, and never changes the id, the tab or
    the position of an input; an input of another id is unchanged, and
    the key of an updated input is kept when the updates carry no key,
    an empty key or the key the input already has. *)
Theorem updateInput_frame (now : string) (inputs : list TabInput.t) (id : string)
    (updates : Payload) :
  exists r,
    updateInput now inputs id updates = Some r /\
    Forall2 (fun x x' =>
               TabInput.id x' = TabInput.id x /\
               TabInput.tabId x' = TabInput.tabId x /\
               (TabInput.id x <> id -> x' = x) /\
               (p_key updates = None \/ p_key updates = Some "" \/
                p_key updates = Some (TabInput.key x) ->
                TabInput.key x' = TabInput.key x))
            inputs r.
Proof.
  unfold updateInput.
  destruct (mapOpt_total (updateOne now inputs id updates) inputs) as [r E].
  { intros x. destruct (updateOne_key now inputs id updates x) as (x' & Ex & _). eauto. }
  exists r. split; [exact E|].
  refine (mapOpt_Forall2 _ _ _ _ _ E). intros x x'. unfold updateOne.
  destruct (String.eqb_spec (TabInput.id x) id) as [Ei|Ni]; cbn [negb];
    [|intros [= <-]; repeat split; auto].
  destruct (p_key updates) as [k|] eqn:Pk.
  - destruct (truthy (Some k) && negb (k =? TabInput.key x)) eqn:B.
    + destruct (ensureUniqueKey inputs k (Some id)) as [k'|]; [|discriminate].
      intros [= <-]. simpl. repeat split; try congruence.
      intros [H|[H|H]]; [discriminate| |]; injection H as ->.
      * discriminate B.
      * rewrite String.eqb_refl, andb_false_r in B. discriminate B.
    + intros [= <-]. simpl. repeat split; congruence.
  - intros [= <-]. simpl. repeat split; congruence.
Qed.

Lemma updateInput_frame_witness :
  exists r,
    updateInput "now" [inputA; inputC] "j" (keyUpdate "b") = Some r /\
    map TabInput.key r = ["a"; "b"].
Proof.
  destruct (updateInput_frame "now" [inputA; inputC] "j" (keyUpdate "b")) as (r & E & F).
  exists r. split; [exact E|].
  inversion F as [|x x' l l' (_ & _ & H1 & _) F' E1 E2]; subst.
  inversion F' as [|y y' m m' (_ & _ & _ & H2) F'' E3 E4]; subst.
  inversion F''; subst. simpl.
  rewrite (H1 ltac:(discriminate)).
  rewrite (H2 (or_intror (or_intror eq_refl))). reflexivity.
Defined.

End TabInputsOpsFacts.

(** ** reorderGroups and the acyclicity of the groups *)

Module ReorderGroupsFacts.
Import DashboardTabs DashboardTabsOps DashboardTabsFacts.

(** The walk along [parentId] links only reads, for an id, the parent of
    the group found for it. *)
Lemma reachesRoot_ext (gs gs' : list TabGroup.t) :
  (forall i, option_map TabGroup.parentId (findGroup gs' i) =
             option_map TabGroup.parentId (findGroup gs i)) ->
  forall n c, reachesRoot n gs c = true -> reachesRoot n gs' c = true.
Proof.
  intros H. induction n as [|n IH]; intros c Hc; [discriminate|].
  rewrite reachesRoot_unfold in Hc |- *.
  destruct c as [i|]; [|reflexivity].
  destruct (negb (truthy (Some i))); [reflexivity|].
  specialize (H i).
  destruct (findGroup gs i) as [g|], (findGroup gs' i) as [g'|];
    simpl in H; try discriminate; try reflexivity.
  injection H as H. rewrite H. now apply IH.
Qed.

Lemma findGroup_link (gs : list TabGroup.t) (i : string) (p : option string) :
  NoDup (map TabGroup.id gs) ->
  (In (i, p) (map link gs) <->
   option_map TabGroup.parentId (findGroup gs i) = Some p).
Proof.
  intros ND. unfold findGroup. induction gs as [|g r IH]; simpl.
  - split; [intros []|discriminate].
  - inversion ND as [|? ? Hnot ND']; subst.
    destruct (String.eqb_spec (TabGroup.id g) i) as [E|N]; simpl.
    + split.
      * intros [H|H]; [unfold link in H; congruence|].
        exfalso. apply Hnot. rewrite E.
        change i with (fst (i, p)). rewrite <- (map_map link fst).
        now apply in_map.
      * intros [= <-]. left. unfold link. now rewrite E.
    + rewrite <- (IH ND'). split.
      * intros [H|H]; [unfold link in H; congruence|assumption].
      * now right.
Qed.

Lemma findGroup_perm (gs gs' : list TabGroup.t) :
  NoDup (map TabGroup.id gs) ->
  Permutation (map link gs) (map link gs') ->
  forall i, option_map TabGroup.parentId (findGroup gs' i) =
            option_map TabGroup.parentId (findGroup gs i).
Proof.
  intros ND P i.
  assert (ND' : NoDup (map TabGroup.id gs')).
  { assert (E : forall l, map TabGroup.id l = map fst (map link l))
      by (intros l; now rewrite map_map).
    rewrite E in ND |- *. apply (Permutation_NoDup (Permutation_map fst P) ND). }
  destruct (option_map TabGroup.parentId (findGroup gs i)) as [p|] eqn:E.
  - apply (findGroup_link gs' i p ND'). apply (Permutation_in _ P).
    now apply (findGroup_link gs i p ND).
  - destruct (option_map TabGroup.parentId (findGroup gs' i)) as [p|] eqn:E';
      [|reflexivity].
    apply (findGroup_link gs' i p ND') in E'.
    apply (Permutation_in _ (Permutation_sym P)) in E'.
    apply (findGroup_link gs i p ND) in E'. congruence.
Qed.

Lemma map_link_mapi (k : nat) (l : list TabGroup.t) :
  map link (mapi_from (fun g idx => withOrder g (Z.of_nat idx)) k l) = map link l.
Proof.
  revert k. induction l as [|g r IH]; intros k; [reflexivity|].
  simpl. now rewrite IH.
Qed.

(** When the ids of the groups are pairwise distinct, [reorderGroups]
    keeps the [parentId] relation acyclic. *)
Theorem reorderGroups_acyclic (st st' : State) (fromIndex toIndex : nat)
    (parentId : option string) :
  NoDup (map TabGroup.id (groups st)) ->
  acyclic (groups st) ->
  reorderGroups st fromIndex toIndex parentId = Some st' ->
  acyclic (groups st') /\ NoDup (map TabGroup.id (groups st')).
Proof.
  intros ND A E. unfold reorderGroups in E.
  destruct (spliceMove (filter (sameLevel parentId) (groups st)) fromIndex toIndex)
    as [r|] eqn:Er; [|discriminate].
  injection E as <-. simpl.
  assert (Pr : Permutation (filter (sameLevel parentId) (groups st)) r).
  { unfold spliceMove in Er.
    destruct (nth_error (filter (sameLevel parentId) (groups st)) fromIndex) as [x|] eqn:Ex;
      [|discriminate].
    injection Er as <-. rewrite (Permutation_removeAt _ _ _ Ex) at 1.
    apply Permutation_insertAt. }
  assert (P : Permutation (map link (groups st))
                (map link (filter (fun g => negb (sameLevel parentId g)) (groups st) ++
                           mapi (fun g idx => withOrder g (Z.of_nat idx)) r))).
  { rewrite map_app. unfold mapi. rewrite map_link_mapi, <- map_app.
    apply Permutation_map.
    rewrite (Permutation_partition (sameLevel parentId)
               (fun g => negb (sameLevel parentId g)) (groups st)) at 1;
      [|reflexivity].
    now apply Permutation_app_head. }
  split.
  - apply acyclic_of_all. intros c.
    destruct (acyclic_from_any (groups st) c A) as [n Hn]. exists n.
    apply (reachesRoot_ext (groups st) _ (findGroup_perm _ _ ND P) n c Hn).
  - assert (E : forall l, map TabGroup.id l = map fst (map link l))
      by (intros l; now rewrite map_map).
    rewrite E in ND |- *. apply (Permutation_NoDup (Permutation_map fst P) ND).
Qed.

(** With two groups of one id the invariant can break: reordering the
    root level puts the other groups first, and the group found for the
    id "a" is then the one under "b". *)
Lemma reorderGroups_twin_ids_cycle :
  acyclic (groups stateTwinIds) /\
  exists st',
    reorderGroups stateTwinIds 0 0 None = Some st' /\
    groups st' = [twinChild; groupUnderA; twinRoot] /\
    ~ acyclic (groups st').
Proof.
  split; [apply acyclicb_sound; reflexivity|].
  eexists. split; [reflexivity|]. split; [reflexivity|].
  intros A. destruct (A twinChild) as [n Hn]; [now left|].
  simpl in Hn. revert Hn. induction n as [|n IH]; [discriminate|].
  destruct n as [|n]; [discriminate|]. intros Hn. apply IH.
  apply reachesRoot_S. exact Hn.
Qed.

Lemma reorderGroups_acyclic_witness :
  NoDup (map TabGroup.id (groups stateABC)) /\
  acyclic (groups stateABC) /\
  exists st',
    reorderGroups stateABC 0 0 (Some "a") = Some st' /\ acyclic (groups st').
Proof.
  assert (ND : NoDup (map TabGroup.id (groups stateABC))).
  { repeat constructor; simpl; intuition discriminate. }
  assert (A : acyclic (groups stateABC)) by (apply acyclicb_sound; reflexivity).
  split; [exact ND|]. split; [exact A|]. eexists. split; [reflexivity|].
  exact (proj1 (reorderGroups_acyclic stateABC _ 0 0 (Some "a") ND A eq_refl)).
Defined.

End ReorderGroupsFacts.
